(** * SERAEX media organiser: shallow embedding of the core and its properties

    The development follows the TypeScript sources of the repository.

    - [workflows/organize-library.ts] holds the library coordinator
      [organizeLibrary] with its finalize signal, an earlier draft of it, its
      helpers [sanitizeWorkflowId] and [basename], and the filesystem
      activities in two drafts: [sanitizeFileName], [copyEpisodeToWorkDir],
      [copySingleFile], [copySingleFileToOutput], [enumerateSourceFiles],
      [listOriginalFiles], [listAllFilesRecursive], [verifyOutputIntegrity],
      and the season pattern of [structureToStaging].
    - [activities/subtitles.ts] holds [listVideoFilesRecursive],
      [detectEpisodeFiles] and [replaceExtension].
    - The disc coordinator [processFolder] (workflows/process-folder) holds
      the confirmation of the detection, the review loop and the progress
      query.
    - The matcher [matchEpisodes] (activities/llm) holds the proportional
      truncation of the subtitle texts.

    Conventions of the embedding.

    - A JavaScript string is the list of its UTF-16 code units ([list N]).
    - A JavaScript number that holds a count, a size or an index is an [N]:
      the integers below 2^53 are doubles, and their sums and differences
      below 2^53 are exact. Any other number is the rational ([Q]) that the
      double holds. The divisions and the product of [binWidth], [binIndex]
      and [allowedChars] are rounded as IEEE 754 binary64 rounds them
      ([to_double]: 53 significant bits, ties to even); the median and the
      window of [detectEpisodeFiles] are evaluated on exact rationals.
    - A path is the list of its components; [join] appends components and
      [relative] drops the common prefix, as the [path] module of Node does on
      normalised absolute paths.
    - Read-only directory walks run over a directory tree ([entry]); the
      activities that write run over a path-indexed store ([gmap]).
    - An activity that may throw returns an [option]; [None] is the throw.
      The store that a throwing [copyEpisodeToWorkDir] leaves behind is
      [copyEpisodeToWorkDir_leaves].
    - A coordinator is a transition function over its local variables; the
      host delivers signals and resumes the coordinator at its await points. *)

From Stdlib Require Import ZArith NArith QArith Qround Qpower Qminmax Lqa.
From Stdlib Require Import Ascii String List Lia Permutation.
From Stdlib Require SpecFloat.
From stdpp Require Import base list strings gmap sorting.
Import ListNotations.

(* ================================================================== *)
(** * Part I: the embedding                                            *)
(* ================================================================== *)

(** ** Strings *)

Abbreviation jsstring := (list N).

(** Code units of an ASCII literal. *)
Definition js (s : string) : jsstring :=
  map N_of_ascii (list_ascii_of_string s).

(** [Array.prototype.join] on strings. *)
Fixpoint join_with (sep : jsstring) (parts : list jsstring) : jsstring :=
  match parts with
  | [] => []
  | [p] => p
  | p :: rest => p ++ sep ++ join_with sep rest
  end.

(** The character class of [sanitizeFileName]: less-than, greater-than,
    colon, double quote, slash, backslash, bar, question mark, star. *)
Definition is_invalid_char (c : N) : bool :=
  existsb (N.eqb c) [60; 62; 58; 34; 47; 92; 124; 63; 42]%N.

(** The class [\s] of ECMAScript, which is also the set that [trim] strips:
    TAB, LF, VT, FF, CR, SP, NBSP, U+1680, U+2000..U+200A, LS, PS, U+202F,
    U+205F, U+3000 and U+FEFF. *)
Definition is_space (c : N) : bool :=
  ((9 <=? c) && (c <=? 13))%N
  || (c =? 32)%N || (c =? 160)%N || (c =? 5760)%N
  || ((8192 <=? c) && (c <=? 8202))%N
  || (c =? 8232)%N || (c =? 8233)%N || (c =? 8239)%N
  || (c =? 8287)%N || (c =? 12288)%N || (c =? 65279)%N.

Definition SP : N := 32%N.

(** First [replace] of [sanitizeFileName]: every code unit of the class is
    removed. *)
Definition remove_invalid (s : jsstring) : jsstring :=
  List.filter (fun c => negb (is_invalid_char c)) s.

(** Second [replace], of [\s+] by one space: every maximal run of white
    space becomes one space. [in_run] tells that the previous code unit was white space. *)
Fixpoint collapse_from (in_run : bool) (s : jsstring) : jsstring :=
  match s with
  | [] => []
  | c :: s' =>
      if is_space c
      then (if in_run then collapse_from true s' else SP :: collapse_from true s')
      else c :: collapse_from false s'
  end.

Definition collapse_spaces (s : jsstring) : jsstring := collapse_from false s.

Fixpoint trimStart (s : jsstring) : jsstring :=
  match s with
  | [] => []
  | c :: s' => if is_space c then trimStart s' else s
  end.

Fixpoint trimEnd (s : jsstring) : jsstring :=
  match s with
  | [] => []
  | c :: s' =>
      match trimEnd s' with
      | [] => if is_space c then [] else [c]
      | r => c :: r
      end
  end.

Definition trim (s : jsstring) : jsstring := trimEnd (trimStart s).

(** The helper [sanitizeFileName] of the filesystem activities. *)
Definition sanitizeFileName (name : jsstring) : jsstring :=
  trim (collapse_spaces (remove_invalid name)).

(** [organizeLibrary], Stage 4: the same three calls written inline. *)
Definition cleanShowName (showName : jsstring) : jsstring :=
  trim (collapse_spaces (remove_invalid showName)).

(** [String(n)] for a non-negative integer: its decimal digits. *)
Fixpoint uint_digits (u : Decimal.uint) : jsstring :=
  match u with
  | Decimal.Nil => []
  | Decimal.D0 u => 48%N :: uint_digits u
  | Decimal.D1 u => 49%N :: uint_digits u
  | Decimal.D2 u => 50%N :: uint_digits u
  | Decimal.D3 u => 51%N :: uint_digits u
  | Decimal.D4 u => 52%N :: uint_digits u
  | Decimal.D5 u => 53%N :: uint_digits u
  | Decimal.D6 u => 54%N :: uint_digits u
  | Decimal.D7 u => 55%N :: uint_digits u
  | Decimal.D8 u => 56%N :: uint_digits u
  | Decimal.D9 u => 57%N :: uint_digits u
  end.

Definition String_of (n : N) : jsstring := uint_digits (N.to_uint n).

(** [padStart] to width 2 with the digit zero. *)
Definition padStart2 (s : jsstring) : jsstring :=
  repeat 48%N (2 - length s) ++ s.

(** [toLowerCase]. The letters A..Z become a..z; the Kelvin sign U+212A
    becomes the letter k; the dotted capital I, U+0130, becomes the letter i
    followed by the combining dot U+0307. These are the only code units
    whose lower case holds a code unit below 128. Every other code unit
    stands for itself here: it is 128 or more, and so is each code unit that
    the Unicode tables put in its place, so that a comparison of the result
    with a string of code units below 128 comes out the same. *)
Definition lower_case_unit (c : N) : jsstring :=
  if ((65 <=? c) && (c <=? 90))%N then [(c + 32)%N]
  else if (c =? 8490)%N then [107%N]
  else if (c =? 304)%N then [105%N; 775%N]
  else [c].

Definition toLowerCase (s : jsstring) : jsstring := flat_map lower_case_unit s.

Definition startsWith (prefix s : jsstring) : bool :=
  bool_decide (take (length prefix) s = prefix).

(** ** Paths *)

Abbreviation path := (list (list N)).

(** [path.join(dir, name)] and the template [`${dir}/${name}`], for a single
    component [name]. *)
Definition join (dir : path) (name : jsstring) : path := dir ++ [name].

(** [path.join(dir, rel)] for a relative path. *)
Definition join_rel (dir rel : path) : path := dir ++ rel.

Fixpoint common_prefix_length (a b : path) : nat :=
  match a, b with
  | x :: a', y :: b' => if decide (x = y) then S (common_prefix_length a' b') else 0
  | _, _ => 0
  end.

(** [path.relative(from, to)]: one [..] for every component of [from] below
    the common prefix, then the rest of [to]. *)
Definition relative (from to : path) : path :=
  let k := common_prefix_length from to in
  repeat (js "..") (length from - k) ++ drop k to.

(** [path.extname] on one component: from the last dot to the end; empty when
    there is no dot, when the only dot is the first code unit, or for [..]. *)
Fixpoint last_dot_suffix (s : jsstring) : option jsstring :=
  match s with
  | [] => None
  | c :: s' =>
      match last_dot_suffix s' with
      | Some e => Some e
      | None => if (c =? 46)%N then Some s else None
      end
  end.

Definition extname_of_name (name : jsstring) : jsstring :=
  match name with
  | [] => []
  | c :: rest =>
      match last_dot_suffix rest with
      | Some e => if bool_decide (name = js "..") then [] else e
      | None => []
      end
  end.

(** [path.extname(p)]: the extension of the last component. *)
Definition extname (p : path) : jsstring :=
  match last p with
  | Some name => extname_of_name name
  | None => []
  end.

(** ** Shared record types (shared/types.ts) *)

Module SourceFileInfo.
Record t := mk {
  path : list (list N);
  relativePath : list (list N);
  name : jsstring;
  size : N;
}.
End SourceFileInfo.

Inductive Confidence := high | medium | low.

Module EpisodeDetectionResult.
Record t := mk {
  episodes : list SourceFileInfo.t;
  nonEpisodes : list SourceFileInfo.t;
  confidence : Confidence;
  clusterMedianSize : Q;
  (** [Math.min()] and [Math.max()] of no argument are the infinities: [None]. *)
  clusterSizeRange : option N * option N;
}.
End EpisodeDetectionResult.

Module AnimeTitle.
Record t := mk {
  romaji : jsstring;
  english : option jsstring;
  native : option jsstring;
}.
End AnimeTitle.

Module AnimeSearchResult.
Record t := mk {
  anilistId : N;
  title : AnimeTitle.t;
  episodes : option N;
  format : jsstring;
  status : jsstring;
}.
End AnimeSearchResult.

Module SeasonTitle.
Record t := mk {
  romaji : jsstring;
  english : option jsstring;
}.
End SeasonTitle.

Module AnimeEpisode.
Record t := mk {
  number : N;
  title : option jsstring;
  description : option jsstring;
}.
End AnimeEpisode.

Module SeasonInfo.
Record t := mk {
  seasonNumber : N;
  anilistId : N;
  title : SeasonTitle.t;
  episodeCount : N;
  episodes : list AnimeEpisode.t;
}.
End SeasonInfo.

Module SeriesMetadata.
Record t := mk {
  seriesName : jsstring;
  seasons : list SeasonInfo.t;
  totalCoreEpisodes : N;
}.
End SeriesMetadata.

Module EpisodeMatch.
Record t := mk {
  fileName : jsstring;
  filePath : list (list N);
  seasonNumber : N;
  episodeNumber : N;
  episodeTitle : jsstring;
  confidence : Q;
  reasoning : jsstring;
}.
End EpisodeMatch.

Module RenamedFile.
Record t := mk {
  originalPath : list (list N);
  originalRelativePath : list (list N);
  newPath : list (list N);
  newFileName : jsstring;
  seasonNumber : N;
  episodeNumber : N;
}.
End RenamedFile.

Module ExtractedSubtitles.
Record t := mk {
  filePath : list (list N);
  fileName : jsstring;
  content : jsstring;
}.
End ExtractedSubtitles.

(** ** The store of the writing activities *)

Inductive fnode :=
| NFile (data : list Byte.byte)
| NDir.

Abbreviation store := (gmap (list (list N)) fnode).

(** [access(p)]: succeeds when something exists at [p]. *)
Definition access (fs : store) (p : path) : bool :=
  bool_decide (is_Some (fs !! p)).

(** The directories from the root down to [dir]. *)
Definition ancestors (dir : path) : list path :=
  map (fun k => take k dir) (seq 1 (length dir)).

(** [mkdir(dir, { recursive: true })]: creates the missing directories on the
    way; throws when a component exists and is a file. *)
Definition mkdir_recursive (fs : store) (dir : path) : option store :=
  foldl
    (fun acc d =>
       match acc with
       | None => None
       | Some m =>
           match m !! d with
           | Some (NFile _) => None
           | Some NDir => Some m
           | None => Some (<[d := NDir]> m)
           end
       end)
    (Some fs) (ancestors dir).

(** [cp(src, dest)] of one file: [src] must be a regular file, [dest] must not
    be [src] nor a directory; the directory of [dest] is created when it is
    missing, and an existing file at [dest] is overwritten. *)
Definition cp (fs : store) (src dest : path) : option store :=
  match fs !! src with
  | Some (NFile data) =>
      if bool_decide (src = dest) then None
      else match fs !! dest with
           | Some NDir => None
           | _ =>
               match mkdir_recursive fs (removelast dest) with
               | Some fs' => Some (<[dest := NFile data]> fs')
               | None => None
               end
           end
  | _ => None
  end.

(** ** Filesystem activities: [copyEpisodeToWorkDir] *)

(** The record that every return of [copyEpisodeToWorkDir] builds. *)
Definition renamedFileFor
    (match_ : EpisodeMatch.t) (anime : AnimeSearchResult.t)
    (episodesDir seriesRootDir : path) : RenamedFile.t :=
  let ext := extname (EpisodeMatch.filePath match_) in
  let showName :=
    sanitizeFileName
      (match AnimeTitle.english (AnimeSearchResult.title anime) with
       | Some e => e
       | None => AnimeTitle.romaji (AnimeSearchResult.title anime)
       end) in
  let episodeNum := padStart2 (String_of (EpisodeMatch.episodeNumber match_)) in
  let seasonNum := padStart2 (String_of (EpisodeMatch.seasonNumber match_)) in
  let episodeTitle := sanitizeFileName (EpisodeMatch.episodeTitle match_) in
  let newFileName :=
    match episodeTitle with
    | _ :: _ =>
        showName ++ js " - S" ++ seasonNum ++ js "E" ++ episodeNum
                 ++ js " - " ++ episodeTitle ++ ext
    | [] => showName ++ js " - S" ++ seasonNum ++ js "E" ++ episodeNum ++ ext
    end in
  let seasonDir := join episodesDir (js "Season " ++ seasonNum) in
  let newPath := join seasonDir newFileName in
  let originalRelativePath := relative seriesRootDir (EpisodeMatch.filePath match_) in
  {| RenamedFile.originalPath := EpisodeMatch.filePath match_;
     RenamedFile.originalRelativePath := originalRelativePath;
     RenamedFile.newPath := newPath;
     RenamedFile.newFileName := newFileName;
     RenamedFile.seasonNumber := EpisodeMatch.seasonNumber match_;
     RenamedFile.episodeNumber := EpisodeMatch.episodeNumber match_ |}.

Definition copyEpisodeToWorkDir
    (match_ : EpisodeMatch.t) (anime : AnimeSearchResult.t)
    (episodesDir seriesRootDir : path) (dryRun : bool)
    (fs : store) : option (store * RenamedFile.t) :=
  let r := renamedFileFor match_ anime episodesDir seriesRootDir in
  let seasonDir :=
    join episodesDir
         (js "Season " ++ padStart2 (String_of (EpisodeMatch.seasonNumber match_))) in
  if dryRun then Some (fs, r)
  else if access fs (RenamedFile.newPath r) then Some (fs, r)
  else
    match mkdir_recursive fs seasonDir with
    | None => None
    | Some fs1 =>
        match cp fs1 (EpisodeMatch.filePath match_) (RenamedFile.newPath r) with
        | None => None
        | Some fs2 => Some (fs2, r)
        end
    end.

(** The store when [mkdir(dir, { recursive: true })] has returned or thrown:
    the missing directories have been created from the root down, as far as
    a component that is a file. *)
Fixpoint mkdir_leaves (fs : store) (dirs : list path) : store :=
  match dirs with
  | [] => fs
  | d :: rest =>
      match fs !! d with
      | Some (NFile _) => fs
      | Some NDir => mkdir_leaves fs rest
      | None => mkdir_leaves (<[d := NDir]> fs) rest
      end
  end.

(** The store when [cp(src, dest)] has returned or thrown: the checks of
    [src] and [dest] throw before anything is written. *)
Definition cp_leaves (fs : store) (src dest : path) : store :=
  match fs !! src with
  | Some (NFile data) =>
      if bool_decide (src = dest) then fs
      else match fs !! dest with
           | Some NDir => fs
           | _ =>
               match mkdir_recursive fs (removelast dest) with
               | Some fs' => <[dest := NFile data]> fs'
               | None => mkdir_leaves fs (ancestors (removelast dest))
               end
           end
  | _ => fs
  end.

(** The store when [copyEpisodeToWorkDir] has returned or thrown: a throw of
    [mkdir] keeps what [mkdir] created, a throw of [cp] keeps the season
    directory. *)
Definition copyEpisodeToWorkDir_leaves
    (match_ : EpisodeMatch.t) (anime : AnimeSearchResult.t)
    (episodesDir seriesRootDir : path) (dryRun : bool)
    (fs : store) : store :=
  let r := renamedFileFor match_ anime episodesDir seriesRootDir in
  let seasonDir :=
    join episodesDir
         (js "Season " ++ padStart2 (String_of (EpisodeMatch.seasonNumber match_))) in
  if dryRun then fs
  else if access fs (RenamedFile.newPath r) then fs
  else
    match mkdir_recursive fs seasonDir with
    | None => mkdir_leaves fs (ancestors seasonDir)
    | Some fs1 => cp_leaves fs1 (EpisodeMatch.filePath match_) (RenamedFile.newPath r)
    end.

(** Filesystem activities (earlier draft), [structureToStaging]: the season of a
    renamed file is read back from its base name with the pattern
    hyphen, space, S, two digits, E, two digits, at its first match. The
    second pair of digits is read here the same way as the first. *)
Definition is_digit (c : N) : bool := ((48 <=? c) && (c <=? 57))%N.

Definition two_digits (a b : N) : N := (10 * (a - 48) + (b - 48))%N.

Definition token_at (s : jsstring) : option (N * N) :=
  match s with
  | h :: sp :: cs :: a :: b :: ce :: c :: d :: _ =>
      if (h =? 45)%N then
        if (sp =? 32)%N then
          if (cs =? 83)%N then
            if is_digit a then
              if is_digit b then
                if (ce =? 69)%N then
                  if is_digit c then
                    if is_digit d then Some (two_digits a b, two_digits c d)
                    else None
                  else None
                else None
              else None
            else None
          else None
        else None
      else None
  | _ => None
  end.

Fixpoint parseSeasonEpisode (s : jsstring) : option (N * N) :=
  match token_at s with
  | Some r => Some r
  | None =>
      match s with
      | [] => None
      | _ :: s' => parseSeasonEpisode s'
      end
  end.

(** ** The directory tree of the read-only walks *)

(** What [readdir(dir, { withFileTypes: true })] and [stat] show of a
    directory: regular files with their size, directories with their entries
    in the order [readdir] yields them, and entries that are neither
    ([isFile()] and [isDirectory()] both false: links, sockets, ...). The
    second field of a directory and of such an entry is the size [stat]
    reports for it, if [stat] succeeds. *)
#[warnings="-register-all"]
Inductive entry :=
| EFile (name : jsstring) (size : N)
| EDir (name : jsstring) (dsize : N) (children : list entry)
| EOther (name : jsstring) (osize : option N).

Definition entry_name (e : entry) : jsstring :=
  match e with
  | EFile n _ | EDir n _ _ | EOther n _ => n
  end.

(** ** Numbers: the double-precision arithmetic of JavaScript *)

(** [pow2 e] is two to the power [e]. *)
Definition pow2 (e : Z) : Q := Qpower 2 e.

(** The binade of a positive number: the [e] with [2^e <= x < 2^(e+1)]. It
    is one of the two candidates that the bit lengths of the numerator and
    of the denominator leave. *)
Definition binade (x : Q) : Z :=
  let e0 := (Z.log2 (Qnum x) - Z.log2 (Zpos (Qden x)))%Z in
  if Qle_bool (pow2 e0) x then e0 else (e0 - 1)%Z.

(** The integer nearest to [x]; of two nearest ones the even one. *)
Definition round_half_even (x : Q) : Z :=
  let f := Qfloor x in
  match (x - inject_Z f ?= 1 # 2)%Q with
  | Lt => f
  | Gt => (f + 1)%Z
  | Eq => if Z.even f then f else (f + 1)%Z
  end.

(** The double nearest to a positive number: a significand of 53 bits
    times a power of two, ties to the even significand. The exponent is not
    bounded here: the numbers of the program are quotients and products of
    integers below 2^53 and a few constants, far from 2^-1022 and 2^1024. *)
Definition round_positive (x : Q) : Q :=
  let ulp := pow2 (binade x - 52) in
  (inject_Z (round_half_even (x / ulp)) * ulp)%Q.

(** The rounding of IEEE 754 binary64, to nearest and ties to even. *)
Definition to_double (x : Q) : Q :=
  match (x ?= 0)%Q with
  | Eq => 0%Q
  | Gt => round_positive x
  | Lt => (- round_positive (- x))%Q
  end.

(** The operators [-], [*] and [/] on doubles: the exact result, rounded. *)
Definition fsub (a b : Q) : Q := to_double (a - b).

Definition fmul (a b : Q) : Q := to_double (a * b).

Definition fdiv (a b : Q) : Q := to_double (a / b).

(** The binary64 numbers of the Standard Library's specification of IEEE 754
    arithmetic ([SpecFloat], at precision 53 and maximal exponent 1024),
    against which [to_double] is checked below: the double of an integer,
    and the rational that a finite double holds. *)
Definition binary64_of_Z (n : Z) : SpecFloat.spec_float :=
  SpecFloat.binary_normalize 53 1024 n 0 false.

Definition binary64_value (x : SpecFloat.spec_float) : Q :=
  match x with
  | SpecFloat.S754_finite s m e =>
      ((if s then -1 else 1) * inject_Z (Zpos m) * pow2 e)%Q
  | _ => 0%Q
  end.

(** ** [detectEpisodeFiles]: episode detection by file-size clustering *)

Definition VIDEO_EXTENSIONS : list jsstring :=
  [js ".mkv"; js ".mp4"; js ".avi"; js ".webm";
   js ".m4v"; js ".mov"; js ".wmv"; js ".flv"].

(** [VIDEO_EXTENSIONS.has(ext)] *)
Definition is_video_ext (ext : jsstring) : bool :=
  bool_decide (ext ∈ VIDEO_EXTENSIONS).

(** The body of the [for] loop of [listVideoFilesRecursive] for one entry. *)
Fixpoint listVideoFilesOfEntry (directory : path) (e : entry)
  : list SourceFileInfo.t :=
  if startsWith (js "_") (entry_name e) then []
  else
    match e with
    | EDir name _ children =>
        flat_map (listVideoFilesOfEntry (join directory name)) children
    | EFile name size =>
        if is_video_ext (toLowerCase (extname_of_name name))
        then [{| SourceFileInfo.path := join directory name;
                 SourceFileInfo.relativePath := [name];
                 SourceFileInfo.name := name;
                 SourceFileInfo.size := size |}]
        else []
    | EOther _ _ => []
    end.

(** [listVideoFilesRecursive(directory)], [entries] being what [readdir]
    returns for [directory]. *)
Definition listVideoFilesRecursive (directory : path) (entries : list entry)
  : list SourceFileInfo.t :=
  flat_map (listVideoFilesOfEntry directory) entries.

Definition Qof (n : N) : Q := inject_Z (Z.of_N n).

(** [Math.max] of two numbers. *)
Definition Math_max (a b : Q) : Q := if Qle_bool a b then b else a.

(** The comparator [(a, b) => a.size - b.size]. *)
Definition by_size : relation SourceFileInfo.t :=
  fun a b => (SourceFileInfo.size a <= SourceFileInfo.size b)%N.

#[global] Instance by_size_dec a b : Decision (by_size a b) :=
  N.le_dec (SourceFileInfo.size a) (SourceFileInfo.size b).

(** [[...files].sort((a, b) => a.size - b.size)] *)
Definition sort_by_size (files : list SourceFileInfo.t) : list SourceFileInfo.t :=
  merge_sort by_size files.

(** [sizes.sort((a, b) => a - b)] *)
Definition sort_numbers (sizes : list N) : list N := merge_sort N.le sizes.

(** [xs[i]] where the source reads inside the array. *)
Definition at_index (xs : list N) (i : nat) : N := nth i xs 0%N.

(** [Math.max(50 * 1024 * 1024, range / 20)] *)
Definition binWidth (minSize maxSize : N) : Q :=
  Math_max (Qof (50 * 1024 * 1024)) (fdiv (fsub (Qof maxSize) (Qof minSize)) (Qof 20)).

(** [Math.floor((file.size - minSize) / binWidth)] *)
Definition binIndex (minSize : N) (width : Q) (size : N) : Z :=
  Qfloor (fdiv (fsub (Qof size) (Qof minSize)) width).

(** The [Map] from bin index to files, in insertion order:
    [if (!bins.has(k)) bins.set(k, []); bins.get(k).push(file)]. *)
Fixpoint bins_push (k : Z) (file : SourceFileInfo.t)
    (bins : list (Z * list SourceFileInfo.t)) : list (Z * list SourceFileInfo.t) :=
  match bins with
  | [] => [(k, [file])]
  | (k', files) :: rest =>
      if (k =? k')%Z then (k', files ++ [file]) :: rest
      else (k', files) :: bins_push k file rest
  end.

Definition build_bins (minSize : N) (width : Q) (sorted : list SourceFileInfo.t)
  : list (Z * list SourceFileInfo.t) :=
  foldl (fun bins file =>
           bins_push (binIndex minSize width (SourceFileInfo.size file)) file bins)
        [] sorted.

(** The loop over [bins.values()] that keeps the first bin of greatest
    length. *)
Definition largest_bin (bins : list (Z * list SourceFileInfo.t))
  : list SourceFileInfo.t :=
  foldl (fun largestBin bin =>
           if (length largestBin <? length (snd bin))%nat then snd bin
           else largestBin)
        [] bins.

(** The median of the cluster sizes, as the source computes it. *)
Definition median_of (clusterSizes : list N) : Q :=
  let medianIdx := (length clusterSizes / 2)%nat in
  if (length clusterSizes mod 2 =? 0)%nat
  then (Qof (at_index clusterSizes (medianIdx - 1))
        + Qof (at_index clusterSizes medianIdx)) / Qof 2
  else Qof (at_index clusterSizes medianIdx).

(** [file.size >= lowerBound && file.size <= upperBound] *)
Definition in_cluster (clusterMedian : Q) (size : N) : bool :=
  Qle_bool (clusterMedian * (8 # 10)) (Qof size)
  && Qle_bool (Qof size) (clusterMedian * (12 # 10)).

(** [Math.min(...xs)] and [Math.max(...xs)]; [None] is the infinity that the
    source obtains for no argument. *)
Definition Math_min_list (xs : list N) : option N :=
  match xs with
  | [] => None
  | x :: rest => Some (foldl N.min x rest)
  end.

Definition Math_max_list (xs : list N) : option N :=
  match xs with
  | [] => None
  | x :: rest => Some (foldl N.max x rest)
  end.

(** [detectEpisodeFiles] after the listing of the folder. *)
Definition detectFromFiles (videoFiles : list SourceFileInfo.t)
  : EpisodeDetectionResult.t :=
  match videoFiles with
  | [] =>
      {| EpisodeDetectionResult.episodes := [];
         EpisodeDetectionResult.nonEpisodes := [];
         EpisodeDetectionResult.confidence := low;
         EpisodeDetectionResult.clusterMedianSize := 0;
         EpisodeDetectionResult.clusterSizeRange := (Some 0%N, Some 0%N) |}
  | first :: _ =>
      if (length videoFiles <=? 2)%nat then
        {| EpisodeDetectionResult.episodes := videoFiles;
           EpisodeDetectionResult.nonEpisodes := [];
           EpisodeDetectionResult.confidence :=
             if (length videoFiles =? 1)%nat then medium else low;
           EpisodeDetectionResult.clusterMedianSize := Qof (SourceFileInfo.size first);
           EpisodeDetectionResult.clusterSizeRange :=
             (Math_min_list (map SourceFileInfo.size videoFiles),
              Math_max_list (map SourceFileInfo.size videoFiles)) |}
      else
        let sorted := sort_by_size videoFiles in
        let sizes := map SourceFileInfo.size sorted in
        let minSize := at_index sizes 0 in
        let maxSize := at_index sizes (length sizes - 1) in
        let width := binWidth minSize maxSize in
        let bins := build_bins minSize width sorted in
        let largestBin := largest_bin bins in
        let clusterSizes := sort_numbers (map SourceFileInfo.size largestBin) in
        let clusterMedian := median_of clusterSizes in
        let episodes :=
          List.filter (fun f => in_cluster clusterMedian (SourceFileInfo.size f))
                      videoFiles in
        let nonEpisodes :=
          List.filter (fun f => negb (in_cluster clusterMedian (SourceFileInfo.size f)))
                      videoFiles in
        let episodeRatio :=
          (Qof (N.of_nat (length episodes))
           / Qof (N.of_nat (length videoFiles)))%Q in
        let confidence :=
          if (6 <=? length episodes)%nat && negb (Qle_bool episodeRatio (6 # 10))
          then high
          else if (3 <=? length episodes)%nat then medium
          else low in
        {| EpisodeDetectionResult.episodes := episodes;
           EpisodeDetectionResult.nonEpisodes := nonEpisodes;
           EpisodeDetectionResult.confidence := confidence;
           EpisodeDetectionResult.clusterMedianSize := clusterMedian;
           EpisodeDetectionResult.clusterSizeRange :=
             (Math_min_list (map SourceFileInfo.size episodes),
              Math_max_list (map SourceFileInfo.size episodes)) |}
  end.

(** [detectEpisodeFiles(folderPath)], [entries] being the content of the
    folder. *)
Definition detectEpisodeFiles (folderPath : path) (entries : list entry)
  : EpisodeDetectionResult.t :=
  detectFromFiles (listVideoFilesRecursive folderPath entries).

(** ** Filesystem activities: [listAllFilesRecursive] and [verifyOutputIntegrity] *)

(** The entry called [name] in a directory. *)
Fixpoint find_entry (name : jsstring) (entries : list entry) : option entry :=
  match entries with
  | [] => None
  | e :: rest =>
      if bool_decide (entry_name e = name) then Some e else find_entry name rest
  end.

(** The entry at a path below the root [fs]. *)
Fixpoint resolve (fs : list entry) (p : path) : option entry :=
  match p with
  | [] => None
  | [name] => find_entry name fs
  | name :: p' =>
      match find_entry name fs with
      | Some (EDir _ _ children) => resolve children p'
      | _ => None
      end
  end.

(** [readdir(dir, { withFileTypes: true })]; [None] when it throws. *)
Definition readdir (fs : list entry) (dir : path) : option (list entry) :=
  match dir with
  | [] => Some fs
  | _ =>
      match resolve fs dir with
      | Some (EDir _ _ children) => Some children
      | _ => None
      end
  end.

(** [(await stat(p)).size]; [None] when [stat] throws. *)
Definition stat (fs : list entry) (p : path) : option N :=
  match resolve fs p with
  | Some (EFile _ size) => Some size
  | Some (EDir _ dsize _) => Some dsize
  | Some (EOther _ osize) => osize
  | None => None
  end.

(** The body of the loop of [listAllFilesRecursive] for one entry. *)
Fixpoint listAllFilesOfEntry (directory : path) (e : entry) : list path :=
  match e with
  | EDir name _ children =>
      flat_map (listAllFilesOfEntry (join directory name)) children
  | EFile name _ => [join directory name]
  | EOther _ _ => []
  end.

Definition listAllFilesRecursive (fs : list entry) (directory : path)
  : option (list path) :=
  match readdir fs directory with
  | Some entries => Some (flat_map (listAllFilesOfEntry directory) entries)
  | None => None
  end.

(** One turn of the loop of [verifyOutputIntegrity]: what it pushes on
    [missingFiles] for one source file. *)
Definition missing_for (fs : list entry) (sourceDir outputDir srcFile : path)
  : list path :=
  let rel := relative sourceDir srcFile in
  let destFile := join_rel outputDir rel in
  match stat fs srcFile with
  | Some srcSize =>
      match stat fs destFile with
      | Some destSize => if bool_decide (srcSize <> destSize) then [rel] else []
      | None => [rel]
      end
  | None => [rel]
  end.

(** [verifyOutputIntegrity(sourceDir, outputDir)]: the pair of [verified] and
    [missingFiles]. *)
Definition verifyOutputIntegrity (fs : list entry) (sourceDir outputDir : path)
  : option (bool * list path) :=
  match listAllFilesRecursive fs sourceDir with
  | Some sourceFiles =>
      let missingFiles := flat_map (missing_for fs sourceDir outputDir) sourceFiles in
      Some (bool_decide (length missingFiles = 0%nat), missingFiles)
  | None => None
  end.

(** The byte total of the regular files below an entry, and below a
    directory: the sum over the recursive walk. *)
Fixpoint entry_total (e : entry) : N :=
  match e with
  | EFile _ size => size
  | EDir _ _ children => foldr (fun c acc => (entry_total c + acc)%N) 0%N children
  | EOther _ _ => 0%N
  end.

Definition walk_total (fs : list entry) (dir : path) : option N :=
  match readdir fs dir with
  | Some entries => Some (foldr (fun c acc => (entry_total c + acc)%N) 0%N entries)
  | None => None
  end.

(** The byte total that [stat] reports over a list of paths. *)
Definition stat_total (fs : list entry) (paths : list path) : N :=
  foldr (fun p acc => (default 0%N (stat fs p) + acc)%N) 0%N paths.

(** ** [matchEpisodes]: the proportional truncation *)

Definition MAX_TOTAL_CHARS : N := 500000%N.

(** [s.length] *)
Definition jslength (s : jsstring) : N := N.of_nat (length s).

(** [s.slice(0, n)] for an integer [n]: a negative [n] counts from the end. *)
Definition slice0 (n : Z) (s : jsstring) : jsstring :=
  if (n <? 0)%Z then take (length s - Z.to_nat (- n)) s
  else take (Z.to_nat n) s.

(** [subtitles.reduce((sum, sub) => sum + sub.content.length, 0)] *)
Definition totalChars (subtitles : list ExtractedSubtitles.t) : N :=
  foldl (fun sum sub => (sum + jslength (ExtractedSubtitles.content sub))%N)
        0%N subtitles.

Definition needsTruncation (subtitles : list ExtractedSubtitles.t) : bool :=
  (MAX_TOTAL_CHARS <? totalChars subtitles)%N.

(** [Math.floor((sub.content.length / totalChars) * MAX_TOTAL_CHARS)] *)
Definition allowedChars (subtitles : list ExtractedSubtitles.t)
    (sub : ExtractedSubtitles.t) : Z :=
  Qfloor (fmul (fdiv (Qof (jslength (ExtractedSubtitles.content sub)))
                     (Qof (totalChars subtitles)))
               (Qof MAX_TOTAL_CHARS)).

(** The value of [content] that the callback of [subtitles.map] interpolates
    for one file. *)
Definition snippetContent (subtitles : list ExtractedSubtitles.t)
    (sub : ExtractedSubtitles.t) : jsstring :=
  if needsTruncation subtitles
  then slice0 (allowedChars subtitles sub) (ExtractedSubtitles.content sub)
  else ExtractedSubtitles.content sub.

(** The subtitle texts of the prompt, file by file. *)
Definition promptContents (subtitles : list ExtractedSubtitles.t) : list jsstring :=
  map (snippetContent subtitles) subtitles.

(** [fileSnippets]: one block per file, joined by an empty line. *)
Definition fileSnippets (subtitles : list ExtractedSubtitles.t) : jsstring :=
  join_with [10%N; 10%N]
    (map (fun sub =>
            js "### File: " ++ ExtractedSubtitles.fileName sub ++ [10%N]
               ++ snippetContent subtitles sub)
         subtitles).

(** The number of code units in a list of texts. *)
Definition total_length (texts : list jsstring) : N :=
  foldr (fun t acc => (jslength t + acc)%N) 0%N texts.

(** ** [processFolder]: the review loop of the disc coordinator *)

Module FolderStatus.
Inductive t :=
| pending | scanning | extracting | matching | renaming
| awaiting_detection_review | awaiting_review | completed | failed.
End FolderStatus.

Module ReviewItem.
Record t := mk {
  id : jsstring;
  fileName : jsstring;
  filePath : list (list N);
  subtitleSnippet : jsstring;
  suggestedSeasonNumber : N;
  suggestedEpisodeNumber : N;
  suggestedEpisodeTitle : jsstring;
  confidence : Q;
  reasoning : jsstring;
  availableEpisodes : list AnimeEpisode.t;
  availableSeasons : list SeasonInfo.t;
}.
End ReviewItem.

Module ReviewDecision.
Record t := mk {
  reviewItemId : jsstring;
  approved : bool;
  correctedSeasonNumber : option N;
  correctedEpisodeNumber : option N;
}.
End ReviewDecision.

Module ProcessFolderInput.
Record t := mk {
  folderPath : list (list N);
  folderName : jsstring;
  seriesRootDir : list (list N);
  seriesMetadata : SeriesMetadata.t;
  dryRun : option bool;
  confidenceThreshold : Q;
}.
End ProcessFolderInput.

Module ProcessFolderProgress.
Record t := mk {
  folderName : jsstring;
  status : FolderStatus.t;
  totalVideoFiles : option N;
  detectedEpisodeCount : option N;
  detectionConfidence : option Confidence;
  totalEpisodeFiles : option N;
  subtitlesExtracted : N;
  currentFile : option jsstring;
  matchesFound : option N;
  totalToMatch : option N;
  episodesCopied : N;
  totalEpisodesToCopy : option N;
  pendingReviews : list ReviewItem.t;
}.
End ProcessFolderProgress.

Module Disc.

(** The local variables of [processFolder] that live through the review
    loop, the position [reviewIndex] of the [for..of] over [pendingReviews],
    and the store that [copyEpisodeToWorkDir] writes. *)
Record state := mk {
  status : FolderStatus.t;
  totalVideoFiles : option N;
  detectedEpisodeCount : option N;
  detectionConfidence : option Confidence;
  totalEpisodeFiles : option N;
  subtitlesExtracted : N;
  currentFile : option jsstring;
  matchesFound : option N;
  totalToMatch : option N;
  episodesCopied : N;
  totalEpisodesToCopy : option N;
  pendingReviews : list ReviewItem.t;
  resolvedReviews : gmap (list N) ReviewDecision.t;
  renamedFiles : list RenamedFile.t;
  reviewIndex : nat;
  fs : gmap (list (list N)) fnode;
}.

Definition set_resolvedReviews (m : gmap (list N) ReviewDecision.t) (st : state) : state :=
  mk (status st) (totalVideoFiles st) (detectedEpisodeCount st)
     (detectionConfidence st) (totalEpisodeFiles st) (subtitlesExtracted st)
     (currentFile st) (matchesFound st) (totalToMatch st) (episodesCopied st)
     (totalEpisodesToCopy st) (pendingReviews st) m (renamedFiles st)
     (reviewIndex st) (fs st).

Definition set_status (s : FolderStatus.t) (st : state) : state :=
  mk s (totalVideoFiles st) (detectedEpisodeCount st)
     (detectionConfidence st) (totalEpisodeFiles st) (subtitlesExtracted st)
     (currentFile st) (matchesFound st) (totalToMatch st) (episodesCopied st)
     (totalEpisodesToCopy st) (pendingReviews st) (resolvedReviews st)
     (renamedFiles st) (reviewIndex st) (fs st).

Definition set_pendingReviews (items : list ReviewItem.t) (st : state) : state :=
  mk (status st) (totalVideoFiles st) (detectedEpisodeCount st)
     (detectionConfidence st) (totalEpisodeFiles st) (subtitlesExtracted st)
     (currentFile st) (matchesFound st) (totalToMatch st) (episodesCopied st)
     (totalEpisodesToCopy st) items (resolvedReviews st)
     (renamedFiles st) (reviewIndex st) (fs st).

Definition set_reviewIndex (i : nat) (st : state) : state :=
  mk (status st) (totalVideoFiles st) (detectedEpisodeCount st)
     (detectionConfidence st) (totalEpisodeFiles st) (subtitlesExtracted st)
     (currentFile st) (matchesFound st) (totalToMatch st) (episodesCopied st)
     (totalEpisodesToCopy st) (pendingReviews st) (resolvedReviews st)
     (renamedFiles st) i (fs st).

Definition set_currentFile (f : option jsstring) (st : state) : state :=
  mk (status st) (totalVideoFiles st) (detectedEpisodeCount st)
     (detectionConfidence st) (totalEpisodeFiles st) (subtitlesExtracted st)
     f (matchesFound st) (totalToMatch st) (episodesCopied st)
     (totalEpisodesToCopy st) (pendingReviews st) (resolvedReviews st)
     (renamedFiles st) (reviewIndex st) (fs st).

Definition set_fs (fs' : gmap (list (list N)) fnode) (st : state) : state :=
  mk (status st) (totalVideoFiles st) (detectedEpisodeCount st)
     (detectionConfidence st) (totalEpisodeFiles st) (subtitlesExtracted st)
     (currentFile st) (matchesFound st) (totalToMatch st) (episodesCopied st)
     (totalEpisodesToCopy st) (pendingReviews st) (resolvedReviews st)
     (renamedFiles st) (reviewIndex st) fs'.

(** [renamedFiles.push(renamed); episodesCopied++; currentFile = undefined;
    break] after a copy that left the store [fs']. *)
Definition record_copy (renamed : RenamedFile.t) (fs' : gmap (list (list N)) fnode)
    (st : state) : state :=
  mk (status st) (totalVideoFiles st) (detectedEpisodeCount st)
     (detectionConfidence st) (totalEpisodeFiles st) (subtitlesExtracted st)
     None (matchesFound st) (totalToMatch st) (episodesCopied st + 1)%N
     (totalEpisodesToCopy st) (pendingReviews st) (resolvedReviews st)
     (renamedFiles st ++ [renamed]) (S (reviewIndex st)) fs'.

(** The handler of [reviewDecisionSignal]. *)
Definition reviewDecisionSignal (decision : ReviewDecision.t) (st : state) : state :=
  set_resolvedReviews
    (<[ReviewDecision.reviewItemId decision := decision]> (resolvedReviews st)) st.

(** The predicate of the [filter] in the handler of [getProgressQuery]. *)
Definition still_pending (resolved : gmap (list N) ReviewDecision.t)
    (r : ReviewItem.t) : bool :=
  match resolved !! ReviewItem.id r with
  | None => true
  | Some decision => negb (ReviewDecision.approved decision)
  end.

(** The handler of [getProgressQuery]. *)
Definition getProgressQuery (input : ProcessFolderInput.t) (st : state)
  : ProcessFolderProgress.t :=
  {| ProcessFolderProgress.folderName := ProcessFolderInput.folderName input;
     ProcessFolderProgress.status := status st;
     ProcessFolderProgress.totalVideoFiles := totalVideoFiles st;
     ProcessFolderProgress.detectedEpisodeCount := detectedEpisodeCount st;
     ProcessFolderProgress.detectionConfidence := detectionConfidence st;
     ProcessFolderProgress.totalEpisodeFiles := totalEpisodeFiles st;
     ProcessFolderProgress.subtitlesExtracted := subtitlesExtracted st;
     ProcessFolderProgress.currentFile := currentFile st;
     ProcessFolderProgress.matchesFound := matchesFound st;
     ProcessFolderProgress.totalToMatch := totalToMatch st;
     ProcessFolderProgress.episodesCopied := episodesCopied st;
     ProcessFolderProgress.totalEpisodesToCopy := totalEpisodesToCopy st;
     ProcessFolderProgress.pendingReviews :=
       List.filter (still_pending (resolvedReviews st)) (pendingReviews st) |}.

(** [animeForRename]: built from the first season, [null] without seasons. *)
Definition animeForRename (metadata : SeriesMetadata.t) : option AnimeSearchResult.t :=
  match SeriesMetadata.seasons metadata with
  | first :: _ =>
      Some {| AnimeSearchResult.anilistId := SeasonInfo.anilistId first;
              AnimeSearchResult.title :=
                {| AnimeTitle.romaji := SeasonTitle.romaji (SeasonInfo.title first);
                   AnimeTitle.english := SeasonTitle.english (SeasonInfo.title first);
                   AnimeTitle.native := None |};
              AnimeSearchResult.episodes := Some (SeasonInfo.episodeCount first);
              AnimeSearchResult.format := js "TV";
              AnimeSearchResult.status := js "FINISHED" |}
  | [] => None
  end.

(** The review item that Step 6 pushes for one low-confidence match. *)
Definition reviewItemFor (input : ProcessFolderInput.t)
    (extractedSubtitles : list ExtractedSubtitles.t) (match_ : EpisodeMatch.t)
  : ReviewItem.t :=
  let metadata := ProcessFolderInput.seriesMetadata input in
  let subtitle :=
    List.find (fun s => bool_decide (ExtractedSubtitles.fileName s
                                     = EpisodeMatch.fileName match_))
              extractedSubtitles in
  {| ReviewItem.id :=
       ProcessFolderInput.folderName input ++ js "-" ++ EpisodeMatch.fileName match_;
     ReviewItem.fileName := EpisodeMatch.fileName match_;
     ReviewItem.filePath := EpisodeMatch.filePath match_;
     ReviewItem.subtitleSnippet :=
       match subtitle with
       | Some s => slice0 500 (ExtractedSubtitles.content s)
       | None => []
       end;
     ReviewItem.suggestedSeasonNumber := EpisodeMatch.seasonNumber match_;
     ReviewItem.suggestedEpisodeNumber := EpisodeMatch.episodeNumber match_;
     ReviewItem.suggestedEpisodeTitle := EpisodeMatch.episodeTitle match_;
     ReviewItem.confidence := EpisodeMatch.confidence match_;
     ReviewItem.reasoning := EpisodeMatch.reasoning match_;
     ReviewItem.availableEpisodes :=
       flat_map SeasonInfo.episodes (SeriesMetadata.seasons metadata);
     ReviewItem.availableSeasons := SeriesMetadata.seasons metadata |}.

(** Entry of Step 6 when [lowConfidence] is not empty: the status changes and
    one item per match is pushed; the loop then starts at the first item. *)
Definition enter_review (input : ProcessFolderInput.t)
    (extractedSubtitles : list ExtractedSubtitles.t)
    (lowConfidence : list EpisodeMatch.t) (st : state) : state :=
  match lowConfidence with
  | [] => st
  | _ =>
      set_reviewIndex 0
        (set_pendingReviews
           (pendingReviews st
            ++ map (reviewItemFor input extractedSubtitles) lowConfidence)
           (set_status FolderStatus.awaiting_review st))
  end.

(** The episode title of an approved review:
    [season?.episodes.find(...)?.title ?? `Episode ${episodeNumber}`]. *)
Definition approvedEpisodeTitle (metadata : SeriesMetadata.t)
    (seasonNumber episodeNumber : N) : jsstring :=
  let fallback := js "Episode " ++ String_of episodeNumber in
  match List.find (fun s => (SeasonInfo.seasonNumber s =? seasonNumber)%N)
                  (SeriesMetadata.seasons metadata) with
  | Some season =>
      match List.find (fun e => (AnimeEpisode.number e =? episodeNumber)%N)
                      (SeasonInfo.episodes season) with
      | Some episode => default fallback (AnimeEpisode.title episode)
      | None => fallback
      end
  | None => fallback
  end.

(** [correctedMatch] of an approved review. *)
Definition correctedMatch (metadata : SeriesMetadata.t)
    (review : ReviewItem.t) (decision : ReviewDecision.t) : EpisodeMatch.t :=
  let seasonNumber :=
    default (ReviewItem.suggestedSeasonNumber review)
            (ReviewDecision.correctedSeasonNumber decision) in
  let episodeNumber :=
    default (ReviewItem.suggestedEpisodeNumber review)
            (ReviewDecision.correctedEpisodeNumber decision) in
  {| EpisodeMatch.fileName := ReviewItem.fileName review;
     EpisodeMatch.filePath := ReviewItem.filePath review;
     EpisodeMatch.seasonNumber := seasonNumber;
     EpisodeMatch.episodeNumber := episodeNumber;
     EpisodeMatch.episodeTitle := approvedEpisodeTitle metadata seasonNumber episodeNumber;
     EpisodeMatch.confidence := 1;
     EpisodeMatch.reasoning := js "User-approved" |}.

(** What one resumption of the coordinator inside the review loop does. *)
Inductive turn :=
| Blocked            (** the awaited condition is false: nothing runs *)
| Resumed (st : state)  (** ran up to the next [await condition] of the loop *)
| LoopDone           (** no review item is left: the loop is over *)
| Thrown (st : state).  (** the copy threw; the [catch] marks the disc failed *)

(** [currentFile = review.fileName]: the state in which the copy of an
    approved review is awaited. *)
Definition start_copy (review : ReviewItem.t) (st : state) : state :=
  set_currentFile (Some (ReviewItem.fileName review)) st.

(** The coordinator is suspended at
    [await condition(() => resolvedReviews.has(review.id))] for the review
    at [reviewIndex]; the host resumes it. The body of [while (true)] runs
    up to its next [await condition]; the copy that it awaits on the way
    returns or throws within the turn. When the copy throws, the [catch]
    finds [currentFile] as the loop has set it and the store as the copy
    left it. *)
Definition review_turn (input : ProcessFolderInput.t) (st : state) : turn :=
  let metadata := ProcessFolderInput.seriesMetadata input in
  let episodesDir := join (ProcessFolderInput.seriesRootDir input) (js "_episodes") in
  match pendingReviews st !! reviewIndex st with
  | None => LoopDone
  | Some review =>
      match resolvedReviews st !! ReviewItem.id review with
      | None => Blocked
      | Some decision =>
          match ReviewDecision.approved decision, animeForRename metadata with
          | true, Some anime =>
              let copying := start_copy review st in
              match copyEpisodeToWorkDir
                      (correctedMatch metadata review decision) anime episodesDir
                      (ProcessFolderInput.seriesRootDir input)
                      (default false (ProcessFolderInput.dryRun input)) (fs st) with
              | Some (fs', renamed) => Resumed (record_copy renamed fs' copying)
              | None =>
                  Thrown (set_status FolderStatus.failed
                            (set_fs (copyEpisodeToWorkDir_leaves
                                       (correctedMatch metadata review decision) anime
                                       episodesDir (ProcessFolderInput.seriesRootDir input)
                                       (default false (ProcessFolderInput.dryRun input))
                                       (fs st))
                                    copying))
              end
          | _, None => Resumed (set_reviewIndex (S (reviewIndex st)) st)
          | false, Some _ =>
              Resumed (set_resolvedReviews
                         (delete (ReviewItem.id review) (resolvedReviews st)) st)
          end
      end
  end.

(** What the host delivers to a disc coordinator in its review loop. *)
Inductive event :=
| Signal (decision : ReviewDecision.t)
| Resume.

(** One event. Once [processFolder] has returned (the status is no longer
    [awaiting_review]) nothing runs any more. *)
Definition on_event (input : ProcessFolderInput.t) (st : state) (e : event) : state :=
  match status st with
  | FolderStatus.awaiting_review =>
      match e with
      | Signal decision => reviewDecisionSignal decision st
      | Resume =>
          match review_turn input st with
          | Blocked => st
          | Resumed st' => st'
          | LoopDone => set_status FolderStatus.completed st
          | Thrown st' => st'
          end
      end
  | _ => st
  end.

Definition run (input : ProcessFolderInput.t) (events : list event) (st : state)
  : state :=
  foldl (on_event input) st events.

(** The number of review items that the progress query shows. *)
Definition pending_count (input : ProcessFolderInput.t) (st : state) : nat :=
  length (ProcessFolderProgress.pendingReviews (getProgressQuery input st)).

End Disc.

(** ** [organizeLibrary]: the finalize gate of the library coordinator *)

Module WorkflowStage.
Inductive t :=
| copying | fetching_metadata | processing_folders | structuring
| awaiting_finalize | finalizing | completed | failed | canceled.
End WorkflowStage.

Module FinalizeDecision.
Record t := mk { approved : bool }.
End FinalizeDecision.

Module FolderResult.
Record t := mk {
  folderName : jsstring;
  folderPath : jsstring;
  status : FolderStatus.t;
  episodesFound : N;
  episodesRenamed : N;
  episodesPendingReview : N;
  error : option jsstring;
}.
End FolderResult.

Module OrganizeLibraryResult.
Record t := mk {
  totalFolders : N;
  completed : N;
  failed : N;
  pendingReview : N;
  folders : list FolderResult.t;
  extraFiles : list (list (list N));
}.
End OrganizeLibraryResult.

Module Library.

(** What Stages 1 to 4 and the activities of Stage 6 hand to the
    coordinator in one run: whether the catalogue gave at least one season,
    the results of the disc coordinators, the files enumerated under the
    staging directory, and the answer of [verifyOutputIntegrity]. *)
Record run_data := mk_data {
  dryRun : option bool;
  metadataFound : bool;
  folderResults : list FolderResult.t;
  allRenamedFilePaths : list (list (list N));
  allExtraFiles : list (list (list N));
  stagingShowDir : list (list N);
  outputDir : list (list N);
  stagingFiles : list SourceFileInfo.t;
  verified : bool;
}.

(** Where the coordinator is suspended. Stages 1 to 4 are one step here: the
    finalize handler reads and writes nothing that they touch. *)
Inductive position :=
| InStages1to4
| AwaitingFinalize
| Returned (result : OrganizeLibraryResult.t).

(** The variables of [organizeLibrary] that the gate reads and writes, and
    the destinations that [copySingleFileToOutput] has written. *)
Record state := mk {
  workflowStage : WorkflowStage.t;
  canFinalize : bool;
  awaitingFinalApproval : bool;
  finalized : bool;
  rejected : bool;
  copiedToOutput : list (list (list N));
  at_ : position;
}.

Definition initial : state :=
  mk WorkflowStage.copying false false false false [] InStages1to4.

(** The handler of [finalizeSignal]. *)
Definition finalizeSignal (decision : FinalizeDecision.t) (st : state) : state :=
  if FinalizeDecision.approved decision && canFinalize st
  then mk (workflowStage st) (canFinalize st) (awaitingFinalApproval st)
          true (rejected st) (copiedToOutput st) (at_ st)
  else if negb (FinalizeDecision.approved decision)
  then mk (workflowStage st) (canFinalize st) (awaitingFinalApproval st)
          (finalized st) true (copiedToOutput st) (at_ st)
  else st.

Definition count_status (s : FolderStatus.t) (results : list FolderResult.t) : nat :=
  length (List.filter
            (fun r => match FolderResult.status r, s with
                      | FolderStatus.completed, FolderStatus.completed => true
                      | FolderStatus.failed, FolderStatus.failed => true
                      | _, _ => false
                      end)
            results).

Definition emptyResult : OrganizeLibraryResult.t :=
  OrganizeLibraryResult.mk 0 0 0 0 [] [].

(** The result object of the returns of Stages 5 and 6. *)
Definition resultOf (data : run_data) : OrganizeLibraryResult.t :=
  {| OrganizeLibraryResult.totalFolders := N.of_nat (length (folderResults data));
     OrganizeLibraryResult.completed :=
       N.of_nat (count_status FolderStatus.completed (folderResults data));
     OrganizeLibraryResult.failed :=
       N.of_nat (count_status FolderStatus.failed (folderResults data));
     OrganizeLibraryResult.pendingReview := 0;
     OrganizeLibraryResult.folders := folderResults data;
     OrganizeLibraryResult.extraFiles := allExtraFiles data |}.

(** [canFinalize = totalFailed === 0 && allRenamedFilePaths.length > 0] *)
Definition canFinalizeOf (data : run_data) : bool :=
  (count_status FolderStatus.failed (folderResults data) =? 0)%nat
  && (0 <? length (allRenamedFilePaths data))%nat.

(** The destination of [copySingleFileToOutput(file.path, stagingShowDir,
    outputDir)]. *)
Definition outputPathOf (data : run_data) (file : SourceFileInfo.t) : list (list N) :=
  join_rel (outputDir data) (relative (stagingShowDir data) (SourceFileInfo.path file)).

(** The code after the wait of Stage 5: the rejection, then Stage 6 (copy to
    the output directory, verification, clean-up). *)
Definition after_wait (data : run_data) (st : state) : state :=
  if rejected st then
    mk WorkflowStage.failed (canFinalize st) (awaitingFinalApproval st)
       (finalized st) (rejected st) (copiedToOutput st) (Returned (resultOf data))
  else if default false (dryRun data) then
    mk WorkflowStage.completed (canFinalize st) (awaitingFinalApproval st)
       (finalized st) (rejected st) (copiedToOutput st) (Returned (resultOf data))
  else
    let copied := copiedToOutput st ++ map (outputPathOf data) (stagingFiles data) in
    mk (if verified data then WorkflowStage.completed else WorkflowStage.failed)
       (canFinalize st) (awaitingFinalApproval st)
       (finalized st) (rejected st) copied (Returned (resultOf data)).

(** The host resumes the coordinator; it runs to its next await or to its
    return. *)
Definition resume (data : run_data) (st : state) : state :=
  match at_ st with
  | InStages1to4 =>
      if metadataFound data then
        let can := canFinalizeOf data in
        let st5 :=
          mk WorkflowStage.awaiting_finalize can can
             (finalized st) (rejected st) (copiedToOutput st) AwaitingFinalize in
        if can then
          (if finalized st5 || rejected st5 then after_wait data st5 else st5)
        else after_wait data st5
      else
        mk WorkflowStage.failed (canFinalize st) (awaitingFinalApproval st)
           (finalized st) (rejected st) (copiedToOutput st) (Returned emptyResult)
  | AwaitingFinalize =>
      if finalized st || rejected st then after_wait data st else st
  | Returned _ => st
  end.

Inductive event :=
| Signal (decision : FinalizeDecision.t)
| Resume.

(** One event; a workflow that has returned takes no more signals. *)
Definition on_event (data : run_data) (st : state) (e : event) : state :=
  match at_ st with
  | Returned _ => st
  | _ =>
      match e with
      | Signal decision => finalizeSignal decision st
      | Resume => resume data st
      end
  end.

Definition run (data : run_data) (events : list event) (st : state) : state :=
  foldl (on_event data) st events.

(** Whether a finalize signal with [approved = true] is among the events. *)
Definition approval_received (events : list event) : bool :=
  existsb (fun e => match e with
                    | Signal decision => FinalizeDecision.approved decision
                    | Resume => false
                    end)
          events.

End Library.

(** ** Vocabulary of the statements *)

(** [spaced prev s]: every white-space code unit of [s] is a single space
    between two other code units; [prev] tells that [s] follows white space. *)
Fixpoint spaced (prev : bool) (s : jsstring) : Prop :=
  match s with
  | [] => True
  | c :: s' =>
      if is_space c then prev = false /\ c = SP /\ spaced true s'
      else spaced false s'
  end.

(** What [trimStart] leaves does not begin with white space. *)
Definition starts_clean (s : jsstring) : Prop :=
  match s with
  | [] => True
  | c :: _ => is_space c = false
  end.

(** The sanitized show name that prefixes every renamed file. *)
Definition showNameOf (anime : AnimeSearchResult.t) : jsstring :=
  sanitizeFileName
    (match AnimeTitle.english (AnimeSearchResult.title anime) with
     | Some e => e
     | None => AnimeTitle.romaji (AnimeSearchResult.title anime)
     end).

(** The two decimal digits of a number below 100. *)
Definition two_digit_string (n : N) : jsstring :=
  [(48 + n / 10)%N; (48 + n mod 10)%N].

(** The optional title part of a renamed file. *)
Definition title_suffix (m : EpisodeMatch.t) : jsstring :=
  match sanitizeFileName (EpisodeMatch.episodeTitle m) with
  | [] => []
  | t => js " - " ++ t
  end.


(** A file counts as a video file when the lower-cased extension of its name
    is one of the eight video extensions. *)
Definition has_video_extension (name : jsstring) : Prop :=
  toLowerCase (extname_of_name name) ∈ VIDEO_EXTENSIONS.

Definition MiB (n : N) : N := (n * 1024 * 1024)%N.

(** [bins.get(k)], or no file when the map has no key [k]. *)
Fixpoint bin_lookup (k : Z) (bins : list (Z * list SourceFileInfo.t))
  : list SourceFileInfo.t :=
  match bins with
  | [] => []
  | (k', files) :: rest => if (k =? k')%Z then files else bin_lookup k rest
  end.

(** The map of bins for an arbitrary bin function [key]. *)
Definition bins_by (key : SourceFileInfo.t -> Z) (l : list SourceFileInfo.t)
  : list (Z * list SourceFileInfo.t) :=
  foldl (fun bins file => bins_push (key file) file bins) [] l.

(** The files of [l] that [key] sends to bin [k], in the order of [l]. *)
Definition members (key : SourceFileInfo.t -> Z) (k : Z)
    (l : list SourceFileInfo.t) : list SourceFileInfo.t :=
  List.filter (fun f => (key f =? k)%Z) l.

(** The least and the greatest size among the files. *)
Definition is_min_size (files : list SourceFileInfo.t) (mn : N) : Prop :=
  (exists f, f ∈ files /\ SourceFileInfo.size f = mn)
  /\ forall f, f ∈ files -> (mn <= SourceFileInfo.size f)%N.

Definition is_max_size (files : list SourceFileInfo.t) (mx : N) : Prop :=
  (exists f, f ∈ files /\ SourceFileInfo.size f = mx)
  /\ forall f, f ∈ files -> (SourceFileInfo.size f <= mx)%N.

(** The median of a sorted list: the middle value, or the mean of the two
    middle values when the length is even. *)
Definition is_median (cluster : list N) (m : Q) : Prop :=
  let n := length cluster in
  (Nat.Odd n /\ exists a, cluster !! (n / 2)%nat = Some a /\ m = Qof a)
  \/ (Nat.Even n /\ exists a b,
        cluster !! (n / 2 - 1)%nat = Some a /\ cluster !! (n / 2)%nat = Some b
        /\ m = ((Qof a + Qof b) / Qof 2)%Q).

(** The bin of a size under the rule of the specification read in exact
    arithmetic: bins of width max(50 MiB, (max - min) / 20) counted from the
    smallest size. *)
Definition spec_bin (mn mx size : N) : Z :=
  Qfloor ((Qof size - Qof mn)
          / Qmax (Qof (MiB 50)) ((Qof mx - Qof mn) / Qof 20)).

(** The same rule in double arithmetic: the difference by 20 and the
    difference by the width are divisions of doubles, each rounded to the
    nearest double before the floor is taken. *)
Definition double_bin (mn mx size : N) : Z :=
  let width := Qmax (Qof (MiB 50)) (to_double (to_double (Qof mx - Qof mn) / Qof 20)) in
  Qfloor (to_double (to_double (Qof size - Qof mn) / width)).

Definition bin_members (mn mx : N) (files : list SourceFileInfo.t) (j : Z)
  : list SourceFileInfo.t :=
  List.filter (fun f => (double_bin mn mx (SourceFileInfo.size f) =? j)%Z) files.

Definition primary_cluster (files : list SourceFileInfo.t) (median : Q) : Prop :=
  exists (mn mx : N) (k : Z) (cluster : list N),
    is_min_size files mn /\ is_max_size files mx
    /\ (0 < length (bin_members mn mx files k))%nat
    /\ (forall j, (length (bin_members mn mx files j)
                   <= length (bin_members mn mx files k))%nat)
    /\ (forall j, length (bin_members mn mx files j)
                  = length (bin_members mn mx files k) -> (k <= j)%Z)
    /\ Permutation cluster (map SourceFileInfo.size (bin_members mn mx files k))
    /\ StronglySorted N.le cluster
    /\ is_median cluster median.

(** The title that the series metadata holds for an episode: the title of the
    first episode of that number in the first season of that number. *)
Definition metadata_title (metadata : SeriesMetadata.t)
    (seasonNumber episodeNumber : N) : option jsstring :=
  match List.find (fun s => (SeasonInfo.seasonNumber s =? seasonNumber)%N)
                  (SeriesMetadata.seasons metadata) with
  | Some season =>
      match List.find (fun e => (AnimeEpisode.number e =? episodeNumber)%N)
                      (SeasonInfo.episodes season) with
      | Some episode => AnimeEpisode.title episode
      | None => None
      end
  | None => None
  end.

(** What every reachable state of the library coordinator satisfies. *)
Definition gate_invariant (data : Library.run_data) (events : list Library.event)
    (st : Library.state) : Prop :=
  (Library.finalized st = true -> Library.approval_received events = true)
  /\ (Library.at_ st = Library.InStages1to4 ->
      Library.finalized st = false /\ Library.canFinalize st = false
      /\ Library.copiedToOutput st = [])
  /\ (Library.at_ st = Library.AwaitingFinalize ->
      Library.copiedToOutput st = [] /\ Library.canFinalizeOf data = true)
  /\ (Library.copiedToOutput st <> [] ->
      Library.finalized st = true \/ Library.canFinalizeOf data = false).

(** A directory tree in which no directory holds two entries of one name. *)
Fixpoint wf_entry (e : entry) : Prop :=
  match e with
  | EDir _ _ children =>
      NoDup (map entry_name children)
      /\ foldr (fun c acc => wf_entry c /\ acc) True children
  | _ => True
  end.

Definition wf_tree (entries : list entry) : Prop :=
  NoDup (map entry_name entries)
  /\ foldr (fun c acc => wf_entry c /\ acc) True entries.

(** ** Sample data of the closed examples *)

Definition sample_anime : AnimeSearchResult.t :=
  AnimeSearchResult.mk 101 (AnimeTitle.mk (js "Shou") (Some (js "Show")) None)
    (Some 2%N) (js "TV") (js "FINISHED").

Definition sample_token_anime : AnimeSearchResult.t :=
  AnimeSearchResult.mk 102 (AnimeTitle.mk (js "Vol - S02E03 Special") None None)
    None (js "TV") (js "FINISHED").

Definition sample_file : path := [js "proc"; js "Disc 01"; js "a.mkv"].

Definition sample_match (season episode : N) : EpisodeMatch.t :=
  EpisodeMatch.mk (js "a.mkv") sample_file season episode (js "Pilot") 1 (js "clear").

Definition sample_store : store :=
  <[ sample_file := NFile [] ]>
    (<[ [js "proc"; js "Disc 01"] := NDir ]> (<[ [js "proc"] := NDir ]> ∅)).


Definition sample_disc : list entry :=
  [EFile (js "ep1.mkv") (MiB 1300); EFile (js "ep2.MKV") (MiB 1310);
   EFile (js "menu.mkv") (MiB 80);
   EDir (js "_subtitles") 4096 [EFile (js "x.mkv") 5];
   EDir (js "more") 4096 [EFile (js "ep3.mp4") (MiB 1400); EFile (js "notes.txt") 3]].

(** Five files of which the third falls on the boundary of two bins. *)
Definition sample_boundary_disc : list entry :=
  [EFile (js "a.mkv") 1048576; EFile (js "b.mkv") 1069583772;
   EFile (js "c.mkv") 1069584772; EFile (js "d.mkv") 1069585772;
   EFile (js "e.mkv") 1425763504].

Definition sample_underscore_folder : list entry :=
  [EFile (js "_op.mkv") (MiB 700); EFile (js "ep1.mkv") (MiB 700)].

Definition sample_subtitles : list ExtractedSubtitles.t :=
  [ExtractedSubtitles.mk [js "proc"; js "a.mkv"] (js "a.mkv")
     (repeat 97%N (N.to_nat 400000));
   ExtractedSubtitles.mk [js "proc"; js "b.mkv"] (js "b.mkv")
     (repeat 98%N (N.to_nat 200000))].

(** Two texts for which the quotient of the first length by the total is
    not a double. *)
Definition sample_rounding_subtitles : list ExtractedSubtitles.t :=
  [ExtractedSubtitles.mk [js "proc"; js "a.mkv"] (js "a.mkv")
     (repeat 97%N (N.to_nat 2382));
   ExtractedSubtitles.mk [js "proc"; js "b.mkv"] (js "b.mkv")
     (repeat 98%N (N.to_nat 597618))].

Definition sample_tree : list entry :=
  [EDir (js "staging") 4096 [EDir (js "Season 01") 4096 [EFile (js "a.mkv") 10]];
   EDir (js "output") 4096
     [EDir (js "Season 01") 4096 [EFile (js "a.mkv") 10; EFile (js "old.mkv") 5]]].

Definition sample_metadata : SeriesMetadata.t :=
  SeriesMetadata.mk (js "Show")
    [SeasonInfo.mk 1 101 (SeasonTitle.mk (js "Shou") (Some (js "Show"))) 2
       [AnimeEpisode.mk 1 (Some (js "Pilot")) None; AnimeEpisode.mk 2 None None]]
    2.

Definition sample_input : ProcessFolderInput.t :=
  ProcessFolderInput.mk [js "proc"; js "Disc 01"] (js "Disc 01") [js "proc"]
    sample_metadata None (85 # 100).

(** The same disc of a series whose metadata holds no season. *)
Definition sample_input_without_season : ProcessFolderInput.t :=
  ProcessFolderInput.mk [js "proc"; js "Disc 01"] (js "Disc 01") [js "proc"]
    (SeriesMetadata.mk (js "Show") [] 0) None (85 # 100).

Definition sample_low_matches : list EpisodeMatch.t :=
  [EpisodeMatch.mk (js "a.mkv") sample_file 1 2 (js "Second") (5 # 10) (js "guess");
   EpisodeMatch.mk (js "b.mkv") [js "proc"; js "Disc 01"; js "b.mkv"] 1 2
     (js "Second") (4 # 10) (js "guess")].

(** A disc at the entry of its review loop with two low-confidence matches. *)
Definition sample_review_state : Disc.state :=
  Disc.enter_review sample_input [] sample_low_matches
    (Disc.mk FolderStatus.renaming (Some 2%N) (Some 2%N) (Some low) (Some 2%N)
       2 None (Some 2%N) (Some 2%N) 0 (Some 2%N) [] ∅ [] 0 sample_store).

Definition sample_review : ReviewItem.t :=
  Disc.reviewItemFor sample_input []
    (EpisodeMatch.mk (js "a.mkv") sample_file 1 2 (js "Second") (5 # 10) (js "guess")).

Definition sample_review_state_without_season : Disc.state :=
  Disc.enter_review sample_input_without_season [] sample_low_matches
    (Disc.mk FolderStatus.renaming (Some 2%N) (Some 2%N) (Some low) (Some 2%N)
       2 None (Some 2%N) (Some 2%N) 0 (Some 2%N) [] ∅ [] 0 sample_store).

Definition sample_review_without_season : ReviewItem.t :=
  Disc.reviewItemFor sample_input_without_season []
    (EpisodeMatch.mk (js "a.mkv") sample_file 1 2 (js "Second") (5 # 10) (js "guess")).

Definition approve (id : jsstring) (season episode : option N) : ReviewDecision.t :=
  ReviewDecision.mk id true season episode.

Definition reject (id : jsstring) : ReviewDecision.t :=
  ReviewDecision.mk id false None None.

(** A run in which one of two discs failed: [canFinalize] is false. *)
Definition sample_failed_run : Library.run_data :=
  Library.mk_data None true
    [FolderResult.mk (js "Disc 01") [] FolderStatus.completed 1 1 0 None;
     FolderResult.mk (js "Disc 02") [] FolderStatus.failed 1 0 0
       (Some (js "Could not extract subtitles from any file"))]
    [[js "proc"; js "_episodes"; js "Season 01"; js "Show - S01E01.mkv"]]
    []
    [js "staging"; js "wf"; js "Show"] [js "output"; js "Show"]
    [SourceFileInfo.mk
       [js "staging"; js "wf"; js "Show"; js "Season 01"; js "Show - S01E01.mkv"]
       [js "Season 01"; js "Show - S01E01.mkv"] (js "Show - S01E01.mkv") 10]
    true.

(** ** Helpers of the library coordinator: [sanitizeWorkflowId] and [basename] *)


Definition SLASH : N := 47%N.





(** [filePath.replace(/\/+$/, '')]: the slashes at the end are removed. *)
Fixpoint strip_trailing_slashes (s : jsstring) : jsstring :=
  match s with
  | [] => []
  | c :: s' =>
      match strip_trailing_slashes s' with
      | [] => if (c =? SLASH)%N then [] else [c]
      | r => c :: r
      end
  end.

(** [s.split('/')]: the parts between the slashes; never empty. *)
Fixpoint split_slash (s : jsstring) : list jsstring :=
  match s with
  | [] => [[]]
  | c :: s' =>
      if (c =? SLASH)%N then [] :: split_slash s'
      else match split_slash s' with
           | p :: ps => (c :: p) :: ps
           | [] => [[c]]
           end
  end.

(** The helper [basename] of the library coordinator:
    [parts[parts.length - 1] ?? ''] over the parts of the stripped path. *)
Definition basename (filePath : jsstring) : jsstring :=
  default [] (last (split_slash (strip_trailing_slashes filePath))).

Definition resolveShowName (sourceDir : jsstring) : jsstring := basename sourceDir.

(** ** Subtitle activities: [replaceExtension] *)

(** [path.basename(p, suffix)] of Node for a [p] that holds no slash: [p]
    without [suffix] when [p] ends with it and is longer; the empty string
    when [p] is [suffix]; [p] otherwise. *)
Definition path_basename_suffix (p suffix : jsstring) : jsstring :=
  if bool_decide (suffix = []) || (length p <? length suffix)%nat then p
  else if bool_decide (suffix = p) then []
  else if bool_decide (drop (length p - length suffix) p = suffix)
       then take (length p - length suffix) p
       else p.

Definition replaceExtension (fileName newExt : jsstring) : jsstring :=
  path_basename_suffix fileName (extname_of_name fileName) ++ newExt.

(** The name of the text file in which [extractSubtitleToDir] keeps the
    subtitles of a media file. *)
Definition subtitleFilePath (subtitlesDir : path) (mediaFileName : jsstring) : path :=
  join subtitlesDir (replaceExtension mediaFileName (js ".txt")).


(** No code unit of [s] is a slash. *)
Definition slash_free (s : jsstring) : Prop := Forall (fun c => c <> SLASH) s.

(** An extension as [path.extname] returns them: a dot, then code units
    that are neither dots nor slashes. *)
Definition is_extension (e : jsstring) : Prop :=
  exists x, e = 46%N :: x /\ x <> [] /\ Forall (fun c => c <> 46%N) x /\ slash_free x.

(** ** Filesystem activities: [copySingleFile] and [copySingleFileToOutput] *)

(** [path.join(dir, rel)] with the normalisation that Node applies: a [..]
    component of [rel] removes the component before it. *)
Definition path_join (dir rel : path) : path :=
  foldl (fun acc c => if bool_decide (c = js "..") then removelast acc else acc ++ [c])
        dir rel.

(** [copySingleFile(src, dest)]: [mkdir] of the directory of [dest], [stat]
    of [src], [cp]; the result is the store and [bytesWritten]. [stat] throws
    when nothing is at [src]; [cp] throws when [src] is a directory. *)
Definition copySingleFile (fs : store) (src dest : path) : option (store * N) :=
  match mkdir_recursive fs (removelast dest) with
  | None => None
  | Some fs1 =>
      match fs1 !! src with
      | Some (NFile data) =>
          match cp fs1 src dest with
          | Some fs2 => Some (fs2, N.of_nat (length data))
          | None => None
          end
      | Some NDir => None
      | None => None
      end
  end.

(** [copySingleFileToOutput(filePath, sourceRoot, outputRoot)] *)
Definition copySingleFileToOutput (fs : store) (filePath sourceRoot outputRoot : path)
  : option (store * N) :=
  let rel := relative sourceRoot filePath in
  let destPath := path_join outputRoot rel in
  match mkdir_recursive fs (removelast destPath) with
  | None => None
  | Some fs1 =>
      match fs1 !! filePath with
      | Some (NFile data) =>
          match cp fs1 filePath destPath with
          | Some fs2 => Some (fs2, N.of_nat (length data))
          | None => None
          end
      | Some NDir => None
      | None => None
      end
  end.

(** No code unit of [s] is one of the nine characters that
    [sanitizeFileName] removes. *)
Definition valid_name (s : jsstring) : Prop :=
  Forall (fun c => is_invalid_char c = false) s.

(** Every entry of [fs] other than [dest] is in [fs'] as it was. *)
Definition preserved_except (dest : path) (fs fs' : store) : Prop :=
  forall p x, p <> dest -> fs !! p = Some x -> fs' !! p = Some x.

(** ** Filesystem activities: [enumerateSourceFiles] and [listOriginalFiles] *)




Definition isWorkDir (name : jsstring) : bool := startsWith (js "_") name.

(** [listOriginalFiles(seriesDir)]: the entries of the series directory whose
    name does not begin with an underscore, directories walked with
    [listAllFilesRecursive]. *)
Definition listOriginalFiles (fs : list entry) (seriesDir : path)
  : option (list path) :=
  match readdir fs seriesDir with
  | Some entries =>
      Some (flat_map
              (fun entry =>
                 if isWorkDir (entry_name entry) then []
                 else match entry with
                      | EDir name _ children =>
                          flat_map (listAllFilesOfEntry (join seriesDir name)) children
                      | EFile name _ => [join seriesDir name]
                      | EOther _ _ => []
                      end)
              entries)
  | None => None
  end.

(** The path [p] lies in a working directory of [dir]: its first component
    below [dir] begins with an underscore. *)
Definition in_work_dir (dir p : path) : bool :=
  match drop (length dir) p with
  | c :: _ => isWorkDir c
  | [] => false
  end.

(** ** [processFolder]: the confirmation of the detection (Steps 1 and 2) *)

Module DetectionConfirmation.
Record t := mk {
  confirmed : bool;
  addedPaths : option (list (list (list N)));
  removedPaths : option (list (list (list N)));
}.
End DetectionConfirmation.

Module Detection.

(** The three variables that the handler of [detectionConfirmationSignal]
    writes. *)
Record state := mk {
  detectionConfirmed : bool;
  detectionAddedPaths : list (list (list N));
  detectionRemovedPaths : list (list (list N));
}.

Definition initial : state := mk false [] [].

(** The handler of [detectionConfirmationSignal]. *)
Definition detectionConfirmationSignal (confirmation : DetectionConfirmation.t)
    (st : state) : state :=
  mk true
     (default [] (DetectionConfirmation.addedPaths confirmation))
     (default [] (DetectionConfirmation.removedPaths confirmation)).

(** The guard of Step 2:
    [detection.confidence !== 'high' && detection.episodes.length > 0]. *)
Definition awaits_confirmation (detection : EpisodeDetectionResult.t) : bool :=
  negb (match EpisodeDetectionResult.confidence detection with
        | high => true
        | _ => false
        end)
  && (0 <? length (EpisodeDetectionResult.episodes detection))%nat.

(** The corrections of Step 2, applied to [episodeFiles] after the wait. *)
Definition corrected (detection : EpisodeDetectionResult.t) (st : state)
  : list SourceFileInfo.t :=
  let episodeFiles := EpisodeDetectionResult.episodes detection in
  let episodeFiles :=
    if (0 <? length (detectionRemovedPaths st))%nat
    then List.filter
           (fun f => negb (bool_decide (SourceFileInfo.path f ∈ detectionRemovedPaths st)))
           episodeFiles
    else episodeFiles in
  if (0 <? length (detectionAddedPaths st))%nat
  then episodeFiles
       ++ List.filter
            (fun f => bool_decide (SourceFileInfo.path f ∈ detectionAddedPaths st))
            (EpisodeDetectionResult.nonEpisodes detection)
  else episodeFiles.

(** [episodeFiles] when the coordinator leaves Step 2, the host having
    delivered [signals] before it resumed; [None] while it is blocked at
    [await condition(() => detectionConfirmed)]. *)
Definition episodeFiles (detection : EpisodeDetectionResult.t)
    (signals : list DetectionConfirmation.t) : option (list SourceFileInfo.t) :=
  let st := foldl (fun st c => detectionConfirmationSignal c st) initial signals in
  if awaits_confirmation detection
  then (if detectionConfirmed st then Some (corrected detection st) else None)
  else Some (EpisodeDetectionResult.episodes detection).

End Detection.

(** A detection of medium confidence with one episode and one other file. *)
Definition sample_detection : EpisodeDetectionResult.t :=
  {| EpisodeDetectionResult.episodes :=
       [SourceFileInfo.mk [js "disc"; js "ep1.mkv"] [js "ep1.mkv"] (js "ep1.mkv") (MiB 1300)];
     EpisodeDetectionResult.nonEpisodes :=
       [SourceFileInfo.mk [js "disc"; js "ep2.mkv"] [js "ep2.mkv"] (js "ep2.mkv") (MiB 700)];
     EpisodeDetectionResult.confidence := medium;
     EpisodeDetectionResult.clusterMedianSize := Qof (MiB 1300);
     EpisodeDetectionResult.clusterSizeRange := (Some (MiB 1300), Some (MiB 1300)) |}.

(* ================================================================== *)
(** * Part II: properties                                              *)
(* ================================================================== *)

(** ** The file-name sanitizer *)

Lemma is_space_SP : is_space SP = true.
Proof. reflexivity. Qed.

Lemma is_invalid_SP : is_invalid_char SP = false.
Proof. reflexivity. Qed.

Lemma collapse_from_spaced s : forall b, spaced b (collapse_from b s).
Proof.
  induction s as [|c s IH]; intros b; simpl; [exact I|].
  destruct (is_space c) eqn:Hc.
  - destruct b; [apply IH|].
    cbn [spaced]. rewrite is_space_SP. auto.
  - cbn [spaced]. rewrite Hc. apply IH.
Qed.

Lemma spaced_collapse_from s : forall b, spaced b s -> collapse_from b s = s.
Proof.
  induction s as [|c s IH]; intros b H; simpl in *; [reflexivity|].
  destruct (is_space c).
  - destruct H as (-> & -> & H). f_equal. now apply IH.
  - f_equal. now apply IH.
Qed.

Lemma spaced_weaken s : spaced true s -> spaced false s.
Proof.
  destruct s as [|c s]; simpl; [auto|].
  destruct (is_space c); [intros (? & _); discriminate | auto].
Qed.

Lemma spaced_any s b : spaced b s -> spaced false s.
Proof. destruct b; [apply spaced_weaken | auto]. Qed.

Lemma trimStart_spaced s : spaced false s -> spaced false (trimStart s).
Proof.
  induction s as [|c s IH]; simpl; [auto|].
  destruct (is_space c) eqn:Hc; intros H.
  - apply IH, spaced_weaken, H.
  - simpl. now rewrite Hc.
Qed.

Lemma trimEnd_spaced s : forall b, spaced b s -> spaced b (trimEnd s).
Proof.
  induction s as [|c s IH]; intros b H; simpl in *; [exact I|].
  destruct (is_space c) eqn:Hc.
  - destruct H as (Hb & Hsp & H). apply IH in H.
    destruct (trimEnd s) as [|d r]; simpl; [exact I|].
    rewrite Hc. auto.
  - apply IH in H.
    destruct (trimEnd s) as [|d r]; simpl; rewrite Hc; [exact I | exact H].
Qed.

Lemma trimStart_starts_clean s : starts_clean (trimStart s).
Proof.
  induction s as [|c s IH]; simpl; [exact I|].
  destruct (is_space c) eqn:Hc; [exact IH | exact Hc].
Qed.

Lemma starts_clean_trimStart s : starts_clean s -> trimStart s = s.
Proof. destruct s as [|c s]; simpl; [auto | now intros ->]. Qed.

Lemma trimEnd_starts_clean s : starts_clean s -> starts_clean (trimEnd s).
Proof.
  destruct s as [|c s]; simpl; [auto|]. intros Hc.
  destruct (trimEnd s); rewrite ?Hc; exact Hc.
Qed.

Lemma trimEnd_idempotent s : trimEnd (trimEnd s) = trimEnd s.
Proof.
  induction s as [|c s IH]; simpl; [reflexivity|].
  destruct (trimEnd s) as [|d r] eqn:E.
  - destruct (is_space c) eqn:Hc; simpl; [reflexivity | now rewrite Hc].
  - change (trimEnd (c :: d :: r)) with
      (match trimEnd (d :: r) with
       | [] => if is_space c then [] else [c]
       | x => c :: x
       end).
    now rewrite IH.
Qed.

Lemma Forall_trimStart (P : N -> Prop) s : Forall P s -> Forall P (trimStart s).
Proof.
  induction 1 as [|c s Hc Hs IH]; simpl; [constructor|].
  destruct (is_space c); [exact IH | now constructor].
Qed.

Lemma Forall_trimEnd (P : N -> Prop) s : Forall P s -> Forall P (trimEnd s).
Proof.
  induction 1 as [|c s Hc Hs IH]; simpl; [constructor|].
  destruct (trimEnd s); [destruct (is_space c); repeat constructor; auto|].
  now constructor.
Qed.

Lemma Forall_collapse_from (P : N -> Prop) s :
  P SP -> Forall P s -> forall b, Forall P (collapse_from b s).
Proof.
  intros Hsp. induction 1 as [|c s Hc Hs IH]; intros b; simpl; [constructor|].
  destruct (is_space c); [destruct b|]; auto.
Qed.

Lemma remove_invalid_valid s :
  Forall (fun c => is_invalid_char c = false) (remove_invalid s).
Proof.
  unfold remove_invalid. induction s as [|c s IH]; simpl; [constructor|].
  destruct (is_invalid_char c) eqn:Hc; simpl; [exact IH | now constructor].
Qed.

Lemma valid_remove_invalid s :
  Forall (fun c => is_invalid_char c = false) s -> remove_invalid s = s.
Proof.
  unfold remove_invalid. induction 1 as [|c s Hc Hs IH]; simpl; [reflexivity|].
  rewrite Hc. simpl. now rewrite IH.
Qed.

(** The three facts that make a sanitized name a fixed point. *)
Lemma sanitizeFileName_normal s :
  let r := sanitizeFileName s in
  Forall (fun c => is_invalid_char c = false) r /\ spaced false r /\ starts_clean r.
Proof.
  unfold sanitizeFileName, trim, collapse_spaces. repeat split.
  - apply Forall_trimEnd, Forall_trimStart.
    apply Forall_collapse_from; [exact is_invalid_SP | apply remove_invalid_valid].
  - apply trimEnd_spaced, trimStart_spaced, collapse_from_spaced.
  - apply trimEnd_starts_clean, trimStart_starts_clean.
Qed.

(** C10. [sanitizeFileName] (and the identical inline pipeline that computes
    [cleanShowName]) is idempotent: sanitizing a sanitized name changes
    nothing. *)
Theorem sanitizeFileName_idempotent (s : jsstring) :
  sanitizeFileName (sanitizeFileName s) = sanitizeFileName s
  /\ cleanShowName (cleanShowName s) = cleanShowName s
  /\ cleanShowName s = sanitizeFileName s.
Proof.
  assert (H : sanitizeFileName (sanitizeFileName s) = sanitizeFileName s).
  { destruct (sanitizeFileName_normal s) as (Hv & Hs & Hc).
    unfold sanitizeFileName at 1. unfold trim, collapse_spaces.
    rewrite (valid_remove_invalid _ Hv), (spaced_collapse_from _ _ Hs).
    rewrite (starts_clean_trimStart _ Hc).
    unfold sanitizeFileName, trim. apply trimEnd_idempotent. }
  split; [exact H|]. split; [exact H | reflexivity].
Qed.

(** ** [copyEpisodeToWorkDir]: the record, the skip and the file name *)

Lemma copyEpisodeToWorkDir_record m anime episodesDir root dryRun fs fs' r :
  copyEpisodeToWorkDir m anime episodesDir root dryRun fs = Some (fs', r) ->
  r = renamedFileFor m anime episodesDir root.
Proof.
  unfold copyEpisodeToWorkDir. intros H.
  destruct dryRun; [congruence|].
  destruct (access _ _); [congruence|].
  destruct (mkdir_recursive _ _); [|discriminate].
  destruct (cp _ _ _); [congruence | discriminate].
Qed.

Lemma cp_access fs src dest fs' :
  cp fs src dest = Some fs' -> access fs' dest = true.
Proof.
  unfold cp, access. intros H.
  destruct (fs !! src) as [[data|]|]; try discriminate.
  destruct (bool_decide (src = dest)); [discriminate|].
  assert (Hins : exists fs0, fs' = <[dest := NFile data]> fs0).
  { destruct (fs !! dest) as [[?|]|]; try discriminate;
      destruct (mkdir_recursive fs (removelast dest)) as [fs0|];
      try discriminate; exists fs0; congruence. }
  destruct Hins as [fs0 ->]. apply bool_decide_eq_true.
  rewrite lookup_insert_eq. eauto.
Qed.

(** C6. [copyEpisodeToWorkDir] is idempotent. When the destination exists the
    call leaves the store as it is and returns the record that a first call
    builds; and a call that follows a successful call with the same arguments
    succeeds, returns the same record and leaves the store (hence the set of
    files under [_episodes/]) unchanged. *)
Theorem copyEpisodeToWorkDir_idempotent
    (m : EpisodeMatch.t) (anime : AnimeSearchResult.t)
    (episodesDir root : path) (dryRun : bool) (fs : store) :
  (access fs (RenamedFile.newPath (renamedFileFor m anime episodesDir root)) = true ->
   copyEpisodeToWorkDir m anime episodesDir root dryRun fs
   = Some (fs, renamedFileFor m anime episodesDir root))
  /\ (forall fs1 r1,
        copyEpisodeToWorkDir m anime episodesDir root dryRun fs = Some (fs1, r1) ->
        copyEpisodeToWorkDir m anime episodesDir root dryRun fs1 = Some (fs1, r1)).
Proof.
  split.
  - intros H. unfold copyEpisodeToWorkDir. rewrite H. now destruct dryRun.
  - intros fs1 r1 H.
    pose proof (copyEpisodeToWorkDir_record _ _ _ _ _ _ _ _ H) as ->.
    unfold copyEpisodeToWorkDir in *.
    destruct dryRun; [congruence|].
    destruct (access fs _) eqn:Ha.
    + injection H as <-. now rewrite Ha.
    + destruct (mkdir_recursive _ _) as [fs0|]; [|discriminate].
      destruct (cp fs0 _ _) as [fs2|] eqn:Hcp; [|discriminate].
      injection H as <-. now rewrite (cp_access _ _ _ _ Hcp).
Qed.

Lemma padStart2_below_100 n :
  (n < 100)%N -> padStart2 (String_of n) = two_digit_string n.
Proof.
  intros Hn.
  assert (Hall : forallb
            (fun k => bool_decide (padStart2 (String_of (N.of_nat k))
                                   = two_digit_string (N.of_nat k)))
            (seq 0 100) = true) by (vm_compute; reflexivity).
  rewrite forallb_forall in Hall.
  assert (Hin : In (N.to_nat n) (seq 0 100)) by (apply in_seq; lia).
  apply Hall in Hin. rewrite N2Nat.id in Hin.
  now apply bool_decide_eq_true in Hin.
Qed.

Lemma two_digit_string_digits n :
  (n < 100)%N ->
  is_digit (48 + n / 10) = true /\ is_digit (48 + n mod 10) = true
  /\ two_digits (48 + n / 10) (48 + n mod 10) = n.
Proof.
  intros Hn. unfold is_digit, two_digits.
  assert (n / 10 < 10)%N by (apply N.Div0.div_lt_upper_bound; lia).
  assert (n mod 10 < 10)%N by (apply N.mod_lt; lia).
  pose proof (N.div_mod n 10 ltac:(lia)).
  set (q := (n / 10)%N) in *. set (d := (n mod 10)%N) in *. clearbody q d.
  repeat split; try (apply andb_true_intro; split; apply N.leb_le; lia).
  lia.
Qed.

(** A match of the pattern cannot begin before a separator and end in it. *)
Lemma token_at_before_separator s t :
  s <> [] -> token_at s = None -> token_at (s ++ 32%N :: 45%N :: t) = None.
Proof.
  intros Hne H.
  destruct s as [|c1 [|c2 [|c3 [|c4 [|c5 [|c6 [|c7 [|c8 s]]]]]]]];
    try congruence; try exact H;
    repeat (cbn; match goal with
            | |- None = None => reflexivity
            | |- context [match ?l with [] => _ | _ :: _ => _ end] =>
                is_var l; destruct l
            | |- context [if ?b then _ else _] => destruct b
            end).
Qed.

Lemma parseSeasonEpisode_skip s t :
  parseSeasonEpisode s = None ->
  parseSeasonEpisode (s ++ 32%N :: 45%N :: t)
  = parseSeasonEpisode (32%N :: 45%N :: t).
Proof.
  induction s as [|c s IH]; [reflexivity|].
  intros H. cbn [parseSeasonEpisode] in H.
  destruct (token_at (c :: s)) eqn:Ht; [discriminate|].
  change ((c :: s) ++ 32%N :: 45%N :: t) with (c :: (s ++ 32%N :: 45%N :: t)).
  cbn [parseSeasonEpisode].
  change (c :: (s ++ 32%N :: 45%N :: t)) with ((c :: s) ++ 32%N :: 45%N :: t).
  rewrite token_at_before_separator by (congruence || assumption).
  now apply IH.
Qed.

Lemma parseSeasonEpisode_token a b c d rest :
  is_digit a = true -> is_digit b = true -> is_digit c = true -> is_digit d = true ->
  parseSeasonEpisode (js " - S" ++ [a; b] ++ js "E" ++ [c; d] ++ rest)
  = Some (two_digits a b, two_digits c d).
Proof.
  intros Ha Hb Hc Hd.
  change (js " - S" ++ [a; b] ++ js "E" ++ [c; d] ++ rest)
    with (32%N :: 45%N :: 32%N :: 83%N :: a :: b :: 69%N :: c :: d :: rest).
  cbn [parseSeasonEpisode].
  replace (token_at (32%N :: 45%N :: 32%N :: 83%N :: a :: b :: 69%N :: c :: d :: rest))
    with (@None (N * N)) by reflexivity.
  unfold token_at. rewrite Ha, Hb, Hc, Hd. reflexivity.
Qed.

(** C8 (amended). For a match whose season and episode numbers are below 100
    and a show name that holds no season-episode token of its own, the file
    name built by [copyEpisodeToWorkDir] is the show name, the token with two
    zero-padded digits each, the optional title and the extension; and
    reading the token back from the name gives the numbers of the match. *)
Theorem copyEpisodeToWorkDir_name_round_trip
    (m : EpisodeMatch.t) (anime : AnimeSearchResult.t)
    (episodesDir root : path) (dryRun : bool) (fs fs' : store)
    (r : RenamedFile.t) :
  copyEpisodeToWorkDir m anime episodesDir root dryRun fs = Some (fs', r) ->
  (EpisodeMatch.seasonNumber m < 100)%N ->
  (EpisodeMatch.episodeNumber m < 100)%N ->
  parseSeasonEpisode (showNameOf anime) = None ->
  RenamedFile.newFileName r
  = showNameOf anime
      ++ js " - S" ++ two_digit_string (EpisodeMatch.seasonNumber m)
      ++ js "E" ++ two_digit_string (EpisodeMatch.episodeNumber m)
      ++ title_suffix m ++ extname (EpisodeMatch.filePath m)
  /\ parseSeasonEpisode (RenamedFile.newFileName r)
     = Some (EpisodeMatch.seasonNumber m, EpisodeMatch.episodeNumber m).
Proof.
  intros Hrun Hs He Hshow.
  pose proof (copyEpisodeToWorkDir_record _ _ _ _ _ _ _ _ Hrun) as ->.
  assert (Hname :
    RenamedFile.newFileName (renamedFileFor m anime episodesDir root)
    = showNameOf anime
        ++ js " - S" ++ two_digit_string (EpisodeMatch.seasonNumber m)
        ++ js "E" ++ two_digit_string (EpisodeMatch.episodeNumber m)
        ++ title_suffix m ++ extname (EpisodeMatch.filePath m)).
  { unfold renamedFileFor, title_suffix, showNameOf. cbn [RenamedFile.newFileName].
    rewrite !padStart2_below_100 by assumption.
    destruct (sanitizeFileName (EpisodeMatch.episodeTitle m)); [reflexivity|].
    now rewrite <- !app_assoc. }
  split; [exact Hname|]. rewrite Hname.
  destruct (two_digit_string_digits _ Hs) as (Hs1 & Hs2 & Hsv).
  destruct (two_digit_string_digits _ He) as (He1 & He2 & Hev).
  change (js " - S") with (32%N :: 45%N :: js " S").
  cbn [app]. rewrite parseSeasonEpisode_skip by exact Hshow.
  change (32%N :: 45%N :: js " S" ++ ?x) with (js " - S" ++ x).
  unfold two_digit_string.
  rewrite parseSeasonEpisode_token by assumption.
  now rewrite Hsv, Hev.
Qed.

Lemma sample_copy_succeeds season episode anime :
  (match copyEpisodeToWorkDir (sample_match season episode) anime
           [js "proc"; js "_episodes"] [js "proc"] false sample_store with
   | Some _ => true
   | None => false
   end) = true ->
  exists fs1 r1,
    copyEpisodeToWorkDir (sample_match season episode) anime
      [js "proc"; js "_episodes"] [js "proc"] false sample_store = Some (fs1, r1).
Proof.
  destruct (copyEpisodeToWorkDir _ _ _ _ _ _) as [[fs1 r1]|]; [eauto | discriminate].
Qed.

Lemma copyEpisodeToWorkDir_idempotent_witness :
  exists fs1 r1,
    copyEpisodeToWorkDir (sample_match 1 2) sample_anime
      [js "proc"; js "_episodes"] [js "proc"] false sample_store = Some (fs1, r1)
    /\ copyEpisodeToWorkDir (sample_match 1 2) sample_anime
         [js "proc"; js "_episodes"] [js "proc"] false fs1 = Some (fs1, r1).
Proof.
  destruct (sample_copy_succeeds 1 2 sample_anime) as (fs1 & r1 & E);
    [vm_compute; reflexivity|].
  exists fs1, r1. split; [exact E|].
  exact (proj2 (copyEpisodeToWorkDir_idempotent _ _ _ _ _ _) fs1 r1 E).
Defined.

Lemma copyEpisodeToWorkDir_name_round_trip_witness :
  exists fs1 r1,
    copyEpisodeToWorkDir (sample_match 1 2) sample_anime
      [js "proc"; js "_episodes"] [js "proc"] false sample_store = Some (fs1, r1)
    /\ RenamedFile.newFileName r1 = js "Show - S01E02 - Pilot.mkv"
    /\ parseSeasonEpisode (RenamedFile.newFileName r1) = Some (1%N, 2%N).
Proof.
  destruct (sample_copy_succeeds 1 2 sample_anime) as (fs1 & r1 & E);
    [vm_compute; reflexivity|].
  exists fs1, r1. split; [exact E|].
  destruct (copyEpisodeToWorkDir_name_round_trip _ _ _ _ _ _ _ _ E) as [Hn Hp];
    [reflexivity | reflexivity | vm_compute; reflexivity |].
  split; [rewrite Hn; vm_compute; reflexivity | exact Hp].
Defined.

(** C8 as stated fails on the code: episode 100 is written with three digits
    and reads back as episode 10; and a show name with a token of its own is
    read back instead of the numbers of the match. *)
Lemma copyEpisodeToWorkDir_name_round_trip_counterexample :
  (exists fs1 r1,
     copyEpisodeToWorkDir (sample_match 1 100) sample_anime
       [js "proc"; js "_episodes"] [js "proc"] false sample_store = Some (fs1, r1)
     /\ RenamedFile.newFileName r1 = js "Show - S01E100 - Pilot.mkv"
     /\ parseSeasonEpisode (RenamedFile.newFileName r1) = Some (1%N, 10%N)
     /\ parseSeasonEpisode (RenamedFile.newFileName r1)
        <> Some (RenamedFile.seasonNumber r1, RenamedFile.episodeNumber r1))
  /\ (exists fs1 r1,
        copyEpisodeToWorkDir (sample_match 1 1) sample_token_anime
          [js "proc"; js "_episodes"] [js "proc"] false sample_store = Some (fs1, r1)
        /\ RenamedFile.newFileName r1 = js "Vol - S02E03 Special - S01E01 - Pilot.mkv"
        /\ parseSeasonEpisode (RenamedFile.newFileName r1) = Some (2%N, 3%N)
        /\ parseSeasonEpisode (RenamedFile.newFileName r1)
           <> Some (RenamedFile.seasonNumber r1, RenamedFile.episodeNumber r1)).
Proof.
  split.
  - destruct (sample_copy_succeeds 1 100 sample_anime) as (fs1 & r1 & E);
      [vm_compute; reflexivity|].
    exists fs1, r1. split; [exact E|].
    rewrite (copyEpisodeToWorkDir_record _ _ _ _ _ _ _ _ E).
    split; [vm_compute; reflexivity|]. split; [vm_compute; reflexivity|].
    vm_compute. discriminate.
  - destruct (sample_copy_succeeds 1 1 sample_token_anime) as (fs1 & r1 & E);
      [vm_compute; reflexivity|].
    exists fs1, r1. split; [exact E|].
    rewrite (copyEpisodeToWorkDir_record _ _ _ _ _ _ _ _ E).
    split; [vm_compute; reflexivity|]. split; [vm_compute; reflexivity|].
    vm_compute. discriminate.
Qed.

(** ** Induction over directory trees *)

Lemma entry_nested_ind (P : entry -> Prop) :
  (forall name size, P (EFile name size)) ->
  (forall name dsize children, Forall P children -> P (EDir name dsize children)) ->
  (forall name osize, P (EOther name osize)) ->
  forall e, P e.
Proof.
  intros Hf Hd Ho. fix IH 1. intros [name size|name dsize children|name osize].
  - apply Hf.
  - apply Hd. induction children as [|c children IHc]; constructor; [apply IH | exact IHc].
  - apply Ho.
Qed.

(** ** [detectEpisodeFiles]: the split of the video files *)

(** Whatever the walk lists is a video file by its extension, and its name
    does not begin with an underscore. *)
Lemma listVideoFilesOfEntry_listed e :
  forall dir f, In f (listVideoFilesOfEntry dir e) ->
    startsWith (js "_") (SourceFileInfo.name f) = false
    /\ has_video_extension (SourceFileInfo.name f).
Proof.
  induction e as [name size|name dsize children IH|name osize] using entry_nested_ind;
    intros dir f Hf; cbn [listVideoFilesOfEntry entry_name] in Hf.
  - destruct (startsWith (js "_") name) eqn:Hu; [destruct Hf|].
    destruct (is_video_ext (toLowerCase (extname_of_name name))) eqn:Hv; [|destruct Hf].
    destruct Hf as [<-|[]]. cbn [SourceFileInfo.name]. split; [exact Hu|].
    unfold has_video_extension. now apply bool_decide_eq_true in Hv.
  - destruct (startsWith (js "_") name); [destruct Hf|].
    apply in_flat_map in Hf as (c & Hc & Hf).
    rewrite List.Forall_forall in IH. exact (IH c Hc _ _ Hf).
  - destruct (startsWith (js "_") name); destruct Hf.
Qed.

Lemma listVideoFilesRecursive_listed dir entries f :
  In f (listVideoFilesRecursive dir entries) ->
  startsWith (js "_") (SourceFileInfo.name f) = false
  /\ has_video_extension (SourceFileInfo.name f).
Proof.
  unfold listVideoFilesRecursive. intros Hf.
  apply in_flat_map in Hf as (e & _ & Hf). exact (listVideoFilesOfEntry_listed e _ _ Hf).
Qed.



Lemma detectFromFiles_small files :
  (length files <= 2)%nat ->
  EpisodeDetectionResult.episodes (detectFromFiles files) = files
  /\ EpisodeDetectionResult.nonEpisodes (detectFromFiles files) = []
  /\ EpisodeDetectionResult.clusterMedianSize (detectFromFiles files)
     = match files with
       | [] => 0%Q
       | first :: _ => Qof (SourceFileInfo.size first)
       end.
Proof.
  intros H. unfold detectFromFiles.
  destruct files as [|f files]; [auto|].
  destruct (Nat.leb_spec (length (f :: files)) 2) as [_|Hgt]; [auto | lia].
Qed.

Lemma detectFromFiles_large files :
  (3 <= length files)%nat ->
  let median := EpisodeDetectionResult.clusterMedianSize (detectFromFiles files) in
  median
  = median_of
      (sort_numbers
         (map SourceFileInfo.size
            (largest_bin
               (let sizes := map SourceFileInfo.size (sort_by_size files) in
                build_bins (at_index sizes 0)
                  (binWidth (at_index sizes 0) (at_index sizes (length sizes - 1)))
                  (sort_by_size files)))))
  /\ EpisodeDetectionResult.episodes (detectFromFiles files)
     = List.filter (fun f => in_cluster median (SourceFileInfo.size f)) files
  /\ EpisodeDetectionResult.nonEpisodes (detectFromFiles files)
     = List.filter (fun f => negb (in_cluster median (SourceFileInfo.size f))) files.
Proof.
  intros H. unfold detectFromFiles.
  destruct files as [|f files]; [simpl in H; lia|].
  destruct (Nat.leb_spec (length (f :: files)) 2) as [Hle|_]; [lia|].
  cbn zeta. cbn [EpisodeDetectionResult.clusterMedianSize
                 EpisodeDetectionResult.episodes
                 EpisodeDetectionResult.nonEpisodes].
  auto.
Qed.

Lemma filter_split_Permutation {A} (p : A -> bool) (l : list A) :
  Permutation (List.filter p l ++ List.filter (fun x => negb (p x)) l) l.
Proof.
  induction l as [|x l IHl]; [constructor|]. simpl.
  destruct (p x); simpl; [now constructor|].
  symmetry. etransitivity; [|apply Permutation_middle].
  constructor. now symmetry.
Qed.

(** The two lists of a detection hold every listed video file once. *)
Lemma detectFromFiles_partition files :
  Permutation
    (EpisodeDetectionResult.episodes (detectFromFiles files)
     ++ EpisodeDetectionResult.nonEpisodes (detectFromFiles files))
    files.
Proof.
  destruct (le_lt_dec (length files) 2) as [Hs|Hl].
  - destruct (detectFromFiles_small files Hs) as (-> & -> & _).
    now rewrite app_nil_r.
  - destruct (detectFromFiles_large files Hl) as (_ & -> & ->).
    apply filter_split_Permutation.
Qed.

(** The detection splits the files that the walk lists: every listed file is
    in exactly one of the two lists. *)
Lemma detectEpisodeFiles_partition folderPath entries :
  Permutation
    (EpisodeDetectionResult.episodes (detectEpisodeFiles folderPath entries)
     ++ EpisodeDetectionResult.nonEpisodes (detectEpisodeFiles folderPath entries))
    (listVideoFilesRecursive folderPath entries).
Proof. apply detectFromFiles_partition. Qed.




(** C3, the failing input. A regular file [_op.mkv] lies directly in the
    folder and has a video extension, yet the listing drops it before it
    looks at the kind of the entry: the file is in neither list of the
    detection. *)
Theorem detectEpisodeFiles_drops_underscore_file :
  let r := detectEpisodeFiles [js "disc"] sample_underscore_folder in
  In (EFile (js "_op.mkv") (MiB 700)) sample_underscore_folder
  /\ has_video_extension (js "_op.mkv")
  /\ map SourceFileInfo.name (listVideoFilesRecursive [js "disc"] sample_underscore_folder)
     = [js "ep1.mkv"]
  /\ map SourceFileInfo.name
       (EpisodeDetectionResult.episodes r ++ EpisodeDetectionResult.nonEpisodes r)
     = [js "ep1.mkv"].
Proof.
  split; [left; reflexivity|].
  split; [unfold has_video_extension; vm_compute; set_solver|].
  split; vm_compute; reflexivity.
Qed.

(** ** The histogram of [detectEpisodeFiles] *)

Section Bins.
Variable key : SourceFileInfo.t -> Z.

Lemma build_snoc l f : bins_by key (l ++ [f]) = bins_push (key f) f (bins_by key l).
Proof. unfold bins_by. now rewrite foldl_app. Qed.

Lemma members_snoc k l f :
  members key k (l ++ [f]) = members key k l ++ (if (key f =? k)%Z then [f] else []).
Proof. unfold members. rewrite List.filter_app. simpl. now destruct (key f =? k)%Z. Qed.

Lemma bins_push_keys_in k f bins :
  k ∈ map fst bins -> map fst (bins_push k f bins) = map fst bins.
Proof.
  induction bins as [|[k' fs] bins IH]; cbn [bins_push map fst]; intros Hin.
  - inversion Hin.
  - destruct (Z.eqb_spec k k') as [->|Hne]; cbn [map fst]; [reflexivity|].
    f_equal. apply IH. apply elem_of_cons in Hin as [?|?]; [congruence | assumption].
Qed.

Lemma bins_push_keys_notin k f bins :
  k ∉ map fst bins -> map fst (bins_push k f bins) = map fst bins ++ [k].
Proof.
  induction bins as [|[k' fs] bins IH]; cbn [bins_push map fst]; intros Hin.
  - reflexivity.
  - destruct (Z.eqb_spec k k') as [->|Hne]; cbn [map fst].
    + exfalso. apply Hin. left.
    + cbn [app]. f_equal. apply IH. intros H. apply Hin. now right.
Qed.

Lemma bin_lookup_push k k' f bins :
  bin_lookup k (bins_push k' f bins)
  = bin_lookup k bins ++ (if (k' =? k)%Z then [f] else []).
Proof.
  induction bins as [|[k0 fs0] bins IH]; cbn [bins_push bin_lookup].
  - rewrite (Z.eqb_sym k k'). now destruct (k' =? k)%Z.
  - destruct (Z.eqb_spec k' k0) as [->|Hne]; cbn [bin_lookup].
    + rewrite (Z.eqb_sym k0 k). destruct (k =? k0)%Z; [reflexivity | now rewrite app_nil_r].
    + destruct (Z.eqb_spec k k0) as [->|Hne']; [|exact IH].
      destruct (Z.eqb_spec k' k0); [congruence | now rewrite app_nil_r].
Qed.

Lemma bin_lookup_build k l : bin_lookup k (bins_by key l) = members key k l.
Proof.
  induction l as [|f l IH] using rev_ind; [reflexivity|].
  now rewrite build_snoc, bin_lookup_push, members_snoc, IH.
Qed.

Lemma bin_lookup_elem k fs bins :
  NoDup (map fst bins) -> (k, fs) ∈ bins -> bin_lookup k bins = fs.
Proof.
  induction bins as [|[k0 fs0] bins IH]; cbn [map fst bin_lookup]; intros Hnd Hin.
  - inversion Hin.
  - apply NoDup_cons in Hnd as [Hk0 Hnd].
    apply elem_of_cons in Hin as [[= -> ->]|Hin].
    + now rewrite Z.eqb_refl.
    + destruct (Z.eqb_spec k k0) as [->|_]; [|now apply IH].
      exfalso. apply Hk0. apply list_elem_of_fmap. now exists (k0, fs).
Qed.

Lemma build_keys_elem k l : k ∈ map fst (bins_by key l) <-> exists f, f ∈ l /\ key f = k.
Proof.
  induction l as [|f l IH] using rev_ind.
  - split; [intros H; inversion H | intros (f & H & _); inversion H].
  - rewrite build_snoc.
    destruct (decide (key f ∈ map fst (bins_by key l))) as [Hin|Hnin].
    + rewrite bins_push_keys_in by assumption. rewrite IH. split.
      * intros (g & Hg & <-). exists g. split; [apply elem_of_app; now left | reflexivity].
      * intros (g & Hg & <-). apply elem_of_app in Hg as [Hg|Hg]; [eauto|].
        apply list_elem_of_singleton in Hg as ->. now apply IH.
    + rewrite bins_push_keys_notin by assumption. rewrite elem_of_app, IH. split.
      * intros [(g & Hg & <-)|Hk].
        -- exists g. split; [apply elem_of_app; now left | reflexivity].
        -- apply list_elem_of_singleton in Hk as ->. exists f. split; [|reflexivity].
           apply elem_of_app. right. now left.
      * intros (g & Hg & <-). apply elem_of_app in Hg as [Hg|Hg]; [left; eauto|].
        apply list_elem_of_singleton in Hg as ->. right. now left.
Qed.

(** With files in non-decreasing key order the keys of the map are strictly
    increasing in insertion order. *)
Lemma build_keys_increasing l :
  StronglySorted Z.le (map key l) -> StronglySorted Z.lt (map fst (bins_by key l)).
Proof.
  induction l as [|f l IH] using rev_ind; intros Hs; [constructor|].
  rewrite map_app in Hs. apply StronglySorted_app in Hs as (Hle & Hs1 & _).
  rewrite build_snoc.
  destruct (decide (key f ∈ map fst (bins_by key l))) as [Hin|Hnin].
  - rewrite bins_push_keys_in by assumption. now apply IH.
  - rewrite bins_push_keys_notin by assumption.
    apply StronglySorted_app_2; [| now apply IH | repeat constructor].
    intros k1 k2 Hk1 Hk2. apply list_elem_of_singleton in Hk2 as ->.
    assert (k1 <> key f) by (intros ->; contradiction).
    apply build_keys_elem in Hk1 as (g & Hg & <-).
    assert (key g <= key f)%Z; [|lia].
    apply Hle; [apply list_elem_of_fmap; eauto | now left].
Qed.

(** The loop keeps the first bin of greatest length. *)
Lemma largest_bin_first_max bins :
  bins <> [] -> (forall b, b ∈ bins -> snd b <> []) ->
  exists pre k fs suf,
    bins = pre ++ (k, fs) :: suf /\ largest_bin bins = fs
    /\ (forall b, b ∈ pre -> (length (snd b) < length fs)%nat)
    /\ (forall b, b ∈ suf -> (length (snd b) <= length fs)%nat).
Proof.
  induction bins as [|[k fs] bins IH] using rev_ind; [congruence|].
  intros _ Hne. unfold largest_bin. rewrite foldl_app. cbn [foldl snd].
  fold (largest_bin bins).
  destruct bins as [|b0 bins0].
  - cbn. exists [], k, fs, []. 
    assert (fs <> []) by (apply (Hne (k, fs)); left).
    destruct fs; [congruence|]. cbn. repeat split; intros b Hb; inversion Hb.
  - destruct IH as (pre & k0 & fs0 & suf & Hb & Hl & Hpre & Hsuf); [congruence | |].
    { intros b Hb'. apply Hne. apply elem_of_app. now left. }
    rewrite Hl. destruct (Nat.ltb_spec (length fs0) (length fs)) as [Hlt|Hge].
    + exists (b0 :: bins0), k, fs, []. repeat split.
      * intros b Hin. rewrite Hb in Hin.
        apply elem_of_app in Hin as [Hin|Hin]; [specialize (Hpre b Hin); lia|].
        apply elem_of_cons in Hin as [->|Hin]; [cbn; lia|].
        specialize (Hsuf b Hin). lia.
      * intros b Hin. inversion Hin.
    + exists pre, k0, fs0, (suf ++ [(k, fs)]). repeat split.
      * rewrite Hb. now rewrite <- app_assoc.
      * exact Hpre.
      * intros b Hin. apply elem_of_app in Hin as [Hin|Hin]; [now apply Hsuf|].
        apply list_elem_of_singleton in Hin as ->. exact Hge.
Qed.
End Bins.

#[local] Instance by_size_trans : Transitive by_size.
Proof. intros a b c. unfold by_size. lia. Qed.

#[local] Instance by_size_total : Total by_size.
Proof. intros a b. unfold by_size. lia. Qed.

Lemma List_filter_Permutation {A} (p : A -> bool) (l l' : list A) :
  Permutation l l' -> Permutation (List.filter p l) (List.filter p l').
Proof.
  induction 1 as [|x l l' _ IH|x y l|l1 l2 l3 _ IH1 _ IH2]; simpl.
  - constructor.
  - destruct (p x); [now constructor | assumption].
  - destruct (p x), (p y); try reflexivity. constructor.
  - etransitivity; eassumption.
Qed.

(** ** The rounding to doubles *)

Lemma pow2_pos e : (0 < pow2 e)%Q.
Proof. apply Qpower_0_lt. reflexivity. Qed.

Lemma pow2_add a b : (pow2 (a + b) == pow2 a * pow2 b)%Q.
Proof. apply Qpower_plus. discriminate. Qed.

Lemma pow2_le a b : (a <= b)%Z -> (pow2 a <= pow2 b)%Q.
Proof. intros H. apply Qpower_le_compat_l; [exact H | discriminate]. Qed.

Lemma pow2_lt_inv a b : (pow2 a < pow2 b)%Q -> (a < b)%Z.
Proof. intros H. apply (Qpower_lt_compat_l_inv 2); [exact H | reflexivity]. Qed.

Lemma pow2_Z n : (0 <= n)%Z -> (pow2 n == inject_Z (2 ^ n))%Q.
Proof. intros H. unfold pow2. now rewrite Zpower_Qpower. Qed.

Lemma pow2_succ e : (pow2 (e + 1) == 2 * pow2 e)%Q.
Proof. rewrite pow2_add. change (pow2 1) with 2%Q. ring. Qed.

(** A positive fraction lies between the fractions of the powers of two
    that bracket its numerator and its denominator. *)
Lemma binade_spec x :
  (0 < x)%Q -> (pow2 (binade x) <= x)%Q /\ (x < pow2 (binade x + 1))%Q.
Proof.
  intros Hx. destruct x as [a b]. unfold binade. cbn [Qnum Qden].
  assert (Ha : (0 < a)%Z) by (unfold Qlt in Hx; cbn in Hx; lia).
  set (la := Z.log2 a). set (lb := Z.log2 (Zpos b)).
  destruct (Z.log2_spec a Ha) as [Ha1 Ha2]. fold la in Ha1, Ha2.
  destruct (Z.log2_spec (Zpos b) eq_refl) as [Hb1 Hb2]. fold lb in Hb1, Hb2.
  assert (Hla : (0 <= la)%Z) by apply Z.log2_nonneg.
  assert (Hlb : (0 <= lb)%Z) by apply Z.log2_nonneg.
  assert (Hfrac : forall p q : Z, (0 <= p)%Z -> (0 <= q)%Z ->
            (pow2 (p - q) == inject_Z (2 ^ p) / inject_Z (2 ^ q))%Q).
  { intros p q Hp Hq. unfold pow2. rewrite Qpower_minus by discriminate.
    fold (pow2 p) (pow2 q). now rewrite !pow2_Z. }
  assert (Hpos : forall q, (0 <= q)%Z -> (0 < inject_Z (2 ^ q))%Q).
  { intros q Hq. rewrite <- pow2_Z by assumption. apply pow2_pos. }
  assert (Hxq : (a # b == inject_Z a / inject_Z (Zpos b))%Q) by apply Qmake_Qdiv.
  assert (Hbpos : (0 < inject_Z (Zpos b))%Q) by reflexivity.
  assert (Hlow : (pow2 (la - lb - 1) <= a # b)%Q).
  { replace (la - lb - 1)%Z with (la - (lb + 1))%Z by lia.
    rewrite Hfrac, Hxq by lia.
    apply Qle_shift_div_l; [exact Hbpos|].
    unfold Qdiv. rewrite <- Qmult_assoc, (Qmult_comm (/ _)), Qmult_assoc.
    apply Qle_shift_div_r; [apply Hpos; lia|].
    rewrite <- !inject_Z_mult, <- Zle_Qle.
    replace (Z.succ lb) with (lb + 1)%Z in Hb2 by lia. nia. }
  assert (Hhigh : (a # b < pow2 (la - lb + 1))%Q).
  { replace (la - lb + 1)%Z with ((la + 1) - lb)%Z by lia.
    rewrite Hfrac, Hxq by lia.
    apply Qlt_shift_div_l; [apply Hpos; lia|].
    unfold Qdiv. rewrite <- Qmult_assoc, (Qmult_comm (/ _)), Qmult_assoc.
    apply Qlt_shift_div_r; [exact Hbpos|].
    rewrite <- !inject_Z_mult, <- Zlt_Qlt.
    replace (Z.succ la) with (la + 1)%Z in Ha2 by lia. nia. }
  destruct (Qle_bool (pow2 (la - lb)) (a # b)) eqn:E.
  - apply Qle_bool_iff in E. split; assumption.
  - split; [exact Hlow|].
    replace (la - lb - 1 + 1)%Z with (la - lb)%Z by lia.
    apply Qnot_le_lt. intros H. apply Qle_bool_iff in H. congruence.
Qed.

Lemma binade_unique x e :
  (pow2 e <= x)%Q -> (x < pow2 (e + 1))%Q -> binade x = e.
Proof.
  intros H1 H2.
  assert (Hx : (0 < x)%Q) by (eapply Qlt_le_trans; [apply pow2_pos | exact H1]).
  destruct (binade_spec x Hx) as [H3 H4].
  assert (binade x < e + 1)%Z
    by (apply pow2_lt_inv; eapply Qle_lt_trans; eassumption).
  assert (e < binade x + 1)%Z
    by (apply pow2_lt_inv; eapply Qle_lt_trans; eassumption).
  lia.
Qed.

Lemma binade_mono x y : (0 < x)%Q -> (x <= y)%Q -> (binade x <= binade y)%Z.
Proof.
  intros Hx Hxy.
  assert (Hy : (0 < y)%Q) by (eapply Qlt_le_trans; eassumption).
  destruct (binade_spec x Hx) as [H1 _]. destruct (binade_spec y Hy) as [_ H2].
  assert (binade x < binade y + 1)%Z; [|lia].
  apply pow2_lt_inv. eapply Qle_lt_trans; [exact H1|].
  eapply Qle_lt_trans; eassumption.
Qed.

Lemma round_half_even_bounds x :
  (x - (1 # 2) <= inject_Z (round_half_even x))%Q
  /\ (inject_Z (round_half_even x) <= x + (1 # 2))%Q.
Proof.
  unfold round_half_even.
  pose proof (Qfloor_le x) as Hf. pose proof (Qlt_floor x) as Hc.
  rewrite inject_Z_plus in Hc. change (inject_Z 1) with 1%Q in Hc.
  destruct (Qcompare_spec (x - inject_Z (Qfloor x)) (1 # 2)) as [E|E|E].
  - destruct (Z.even (Qfloor x)); [|rewrite inject_Z_plus; change (inject_Z 1) with 1%Q];
      split; lra.
  - split; lra.
  - rewrite inject_Z_plus. change (inject_Z 1) with 1%Q. split; lra.
Qed.

Lemma round_half_even_Z n : round_half_even (inject_Z n) = n.
Proof.
  unfold round_half_even. rewrite Qfloor_Z.
  destruct (Qcompare_spec (inject_Z n - inject_Z n) (1 # 2)) as [E|E|E];
    [exfalso; lra | reflexivity | exfalso; lra].
Qed.

Lemma round_half_even_mono x y :
  (x <= y)%Q -> (round_half_even x <= round_half_even y)%Z.
Proof.
  intros Hxy. pose proof (Qfloor_resp_le _ _ Hxy) as Hfl.
  destruct (Z.eq_dec (Qfloor x) (Qfloor y)) as [Heq|Hne].
  - unfold round_half_even. rewrite <- Heq.
    destruct (Qcompare_spec (x - inject_Z (Qfloor x)) (1 # 2)) as [E|E|E];
      destruct (Qcompare_spec (y - inject_Z (Qfloor x)) (1 # 2)) as [E'|E'|E'];
      try destruct (Z.even (Qfloor x)); try lia; exfalso; lra.
  - assert (Hlt : (Qfloor x + 1 <= Qfloor y)%Z) by lia.
    transitivity (Qfloor x + 1)%Z; [|transitivity (Qfloor y); [exact Hlt|]].
    + unfold round_half_even.
      destruct (x - inject_Z (Qfloor x) ?= 1 # 2)%Q; try destruct (Z.even _); lia.
    + unfold round_half_even.
      destruct (y - inject_Z (Qfloor y) ?= 1 # 2)%Q; try destruct (Z.even _); lia.
Qed.

Lemma round_half_even_ge x n : (inject_Z n <= x)%Q -> (n <= round_half_even x)%Z.
Proof.
  intros H. rewrite <- (round_half_even_Z n). now apply round_half_even_mono.
Qed.

Lemma round_half_even_le x n : (x <= inject_Z n)%Q -> (round_half_even x <= n)%Z.
Proof.
  intros H. rewrite <- (round_half_even_Z n). now apply round_half_even_mono.
Qed.

(** The significand of a positive number lies between 2^52 and 2^53. *)
Lemma significand_bounds x :
  (0 < x)%Q ->
  (inject_Z (2 ^ 52) <= x / pow2 (binade x - 52))%Q
  /\ (x / pow2 (binade x - 52) < inject_Z (2 ^ 53))%Q.
Proof.
  intros Hx. destruct (binade_spec x Hx) as [H1 H2].
  pose proof (pow2_pos (binade x - 52)) as Hu.
  assert (E1 : (pow2 (binade x) == inject_Z (2 ^ 52) * pow2 (binade x - 52))%Q).
  { rewrite <- pow2_Z by lia. rewrite <- pow2_add. now replace (52 + (binade x - 52))%Z with (binade x) by lia. }
  assert (E2 : (pow2 (binade x + 1) == inject_Z (2 ^ 53) * pow2 (binade x - 52))%Q).
  { rewrite <- pow2_Z by lia. rewrite <- pow2_add. now replace (53 + (binade x - 52))%Z with (binade x + 1)%Z by lia. }
  split.
  - apply Qle_shift_div_l; [exact Hu|]. now rewrite <- E1.
  - apply Qlt_shift_div_r; [exact Hu|]. now rewrite <- E2.
Qed.

Lemma round_positive_range x :
  (0 < x)%Q ->
  (pow2 (binade x) <= round_positive x)%Q
  /\ (round_positive x <= pow2 (binade x + 1))%Q.
Proof.
  intros Hx. destruct (significand_bounds x Hx) as [H1 H2].
  pose proof (pow2_pos (binade x - 52)) as Hu.
  unfold round_positive. cbn zeta.
  set (r := round_half_even (x / pow2 (binade x - 52))).
  assert (Hr1 : (2 ^ 52 <= r)%Z) by now apply round_half_even_ge.
  assert (Hr2 : (r <= 2 ^ 53)%Z) by (apply round_half_even_le; lra).
  assert (E1 : (pow2 (binade x) == inject_Z (2 ^ 52) * pow2 (binade x - 52))%Q).
  { rewrite <- pow2_Z by lia. rewrite <- pow2_add. now replace (52 + (binade x - 52))%Z with (binade x) by lia. }
  assert (E2 : (pow2 (binade x + 1) == inject_Z (2 ^ 53) * pow2 (binade x - 52))%Q).
  { rewrite <- pow2_Z by lia. rewrite <- pow2_add. now replace (53 + (binade x - 52))%Z with (binade x + 1)%Z by lia. }
  rewrite E1, E2. split; apply Qmult_le_compat_r; try lra; now rewrite <- Zle_Qle.
Qed.

Lemma round_positive_mono x y :
  (0 < x)%Q -> (x <= y)%Q -> (round_positive x <= round_positive y)%Q.
Proof.
  intros Hx Hxy.
  assert (Hy : (0 < y)%Q) by (eapply Qlt_le_trans; eassumption).
  pose proof (binade_mono x y Hx Hxy) as He.
  destruct (Z.eq_dec (binade x) (binade y)) as [Heq|Hne].
  - unfold round_positive. cbn zeta. rewrite Heq.
    pose proof (pow2_pos (binade y - 52)) as Hu.
    apply Qmult_le_compat_r; [|lra].
    rewrite <- Zle_Qle. apply round_half_even_mono.
    apply Qmult_le_compat_r; [exact Hxy|].
    apply Qlt_le_weak, Qinv_lt_0_compat, Hu.
  - destruct (round_positive_range x Hx) as [_ H1].
    destruct (round_positive_range y Hy) as [H2 _].
    eapply Qle_trans; [exact H1|]. eapply Qle_trans; [|exact H2].
    apply pow2_le. lia.
Qed.

Lemma round_positive_pos x : (0 < x)%Q -> (0 < round_positive x)%Q.
Proof.
  intros Hx. eapply Qlt_le_trans; [apply pow2_pos|].
  apply (round_positive_range x Hx).
Qed.

(** Rounding a positive number makes it larger by at most one part in 2^53. *)
Lemma round_positive_upper x :
  (0 < x)%Q -> (round_positive x <= x + x * (1 # 2 ^ 53))%Q.
Proof.
  intros Hx. destruct (binade_spec x Hx) as [H1 _].
  pose proof (pow2_pos (binade x - 52)) as Hu.
  unfold round_positive. cbn zeta.
  set (u := pow2 (binade x - 52)) in *.
  destruct (round_half_even_bounds (x / u)) as [_ Hr].
  assert (E1 : (pow2 (binade x) == inject_Z (2 ^ 52) * u)%Q).
  { unfold u. rewrite <- pow2_Z by lia. rewrite <- pow2_add. now replace (52 + (binade x - 52))%Z with (binade x) by lia. }
  assert (Hmul : (inject_Z (round_half_even (x / u)) * u <= (x / u + (1 # 2)) * u)%Q)
    by (apply Qmult_le_compat_r; lra).
  assert (Hxu : (x / u * u == x)%Q) by (field; lra).
  rewrite E1 in H1. change (inject_Z (2 ^ 52)) with (4503599627370496 # 1)%Q in H1.
  change (1 # 2 ^ 53)%Q with (1 # 9007199254740992)%Q.
  lra.
Qed.

Lemma to_double_nonneg x : (0 <= x)%Q -> (0 <= to_double x)%Q.
Proof.
  intros Hx. unfold to_double.
  destruct (Qcompare_spec x 0) as [E|E|E]; [lra | exfalso; lra|].
  apply Qlt_le_weak. now apply round_positive_pos.
Qed.

Lemma to_double_mono x y : (x <= y)%Q -> (to_double x <= to_double y)%Q.
Proof.
  intros Hxy. unfold to_double.
  destruct (Qcompare_spec x 0) as [Ex|Ex|Ex]; destruct (Qcompare_spec y 0) as [Ey|Ey|Ey];
    try (exfalso; lra); try lra.
  - apply Qlt_le_weak. now apply round_positive_pos.
  - assert (0 < round_positive (- x))%Q by (apply round_positive_pos; lra). lra.
  - assert (round_positive (- y) <= round_positive (- x))%Q
      by (apply round_positive_mono; lra). lra.
  - assert (0 < round_positive (- x))%Q by (apply round_positive_pos; lra).
    assert (0 < round_positive y)%Q by (apply round_positive_pos; lra). lra.
  - now apply round_positive_mono.
Qed.

Lemma to_double_upper x :
  (0 <= x)%Q -> (to_double x <= x + x * (1 # 2 ^ 53))%Q.
Proof.
  intros Hx. unfold to_double.
  destruct (Qcompare_spec x 0) as [E|E|E]; [|exfalso; lra|].
  - rewrite E. lra.
  - now apply round_positive_upper.
Qed.

(** On the numbers of the two examples of rounding further down, and on one
    third, the operators defined here give the doubles that the binary64
    operations of [SpecFloat] give. *)
Lemma double_operators_agree_with_binary64 :
  let sub := SpecFloat.SFsub 53 1024 in
  let mul := SpecFloat.SFmul 53 1024 in
  let div := SpecFloat.SFdiv 53 1024 in
  let d := binary64_of_Z in
  (binary64_value (div (d 1%Z) (d 3%Z)) == fdiv 1 3)%Q
  /\ (binary64_value (mul (div (d 2382%Z) (d 600000%Z)) (d 500000%Z))
      == fmul (fdiv 2382 600000) 500000)%Q
  /\ (binary64_value (div (sub (d 1425763504%Z) (d 1048576%Z)) (d 20%Z))
      == fdiv (fsub 1425763504 1048576) 20)%Q
  /\ (binary64_value
        (div (sub (d 1069584772%Z) (d 1048576%Z))
             (div (sub (d 1425763504%Z) (d 1048576%Z)) (d 20%Z)))
      == fdiv (fsub 1069584772 1048576) (fdiv (fsub 1425763504 1048576) 20))%Q.
Proof. cbv zeta. repeat split; vm_compute; reflexivity. Qed.

(** ** The bins of [detectEpisodeFiles] in double arithmetic *)

Lemma Math_max_pos a b : (0 < a)%Q -> (0 < Math_max a b)%Q.
Proof.
  intros Ha. unfold Math_max. destruct (Qle_bool a b) eqn:E; [|assumption].
  apply Qle_bool_iff in E. eapply Qlt_le_trans; eassumption.
Qed.

Lemma Qof_le a b : (a <= b)%N -> (Qof a <= Qof b)%Q.
Proof. intros H. unfold Qof. rewrite <- Zle_Qle. lia. Qed.

Lemma binIndex_mono mn w a b :
  (0 < w)%Q -> (a <= b)%N -> (binIndex mn w a <= binIndex mn w b)%Z.
Proof.
  intros Hw Hab. unfold binIndex, fdiv, fsub.
  apply Qfloor_resp_le, to_double_mono.
  unfold Qdiv. apply Qmult_le_compat_r.
  - apply to_double_mono, Qplus_le_compat; [now apply Qof_le | apply Qle_refl].
  - apply Qlt_le_weak, Qinv_lt_0_compat, Hw.
Qed.

Lemma to_double_Qeq x y : (x == y)%Q -> (to_double x == to_double y)%Q.
Proof.
  intros H. apply Qle_antisym; apply to_double_mono; rewrite H; apply Qle_refl.
Qed.

Lemma Math_max_Qmax a b : (Math_max a b == Qmax a b)%Q.
Proof.
  unfold Math_max.
  destruct (Qle_bool a b) eqn:E.
  - apply Qle_bool_iff in E. symmetry. now apply Q.max_r.
  - assert (b <= a)%Q.
    { apply Qlt_le_weak, Qnot_le_lt. intros H. apply Qle_bool_iff in H. congruence. }
    symmetry. now apply Q.max_l.
Qed.

(** The bin index of the source is the bin of the rule in double
    arithmetic. *)
Lemma binIndex_double_bin mn mx size :
  binIndex mn (binWidth mn mx) size = double_bin mn mx size.
Proof.
  unfold binIndex, double_bin, binWidth, fdiv, fsub. cbn zeta.
  apply Qfloor_comp, to_double_Qeq.
  rewrite Math_max_Qmax. reflexivity.
Qed.

Lemma median_of_is_median cluster :
  cluster <> [] -> is_median cluster (median_of cluster).
Proof.
  intros Hne. unfold is_median, median_of, at_index.
  assert (Hlen : (0 < length cluster)%nat) by (destruct cluster; [congruence | simpl; lia]).
  set (n := length cluster) in *.
  assert (Hhalf : (n / 2 < n)%nat) by (apply Nat.div_lt; lia).
  destruct (Nat.eqb_spec (n mod 2) 0) as [He|Ho].
  - right. split; [apply Nat.Div0.mod_divides in He as [c Hc]; exists c; lia|].
    destruct (lookup_lt_is_Some_2 cluster (n / 2 - 1)) as [a Ha]; [fold n; lia|].
    destruct (lookup_lt_is_Some_2 cluster (n / 2)) as [b Hb]; [fold n; lia|].
    exists a, b. repeat split; try assumption.
    now rewrite (nth_lookup_Some _ _ _ _ Ha), (nth_lookup_Some _ _ _ _ Hb).
  - left. split.
    + exists (n / 2)%nat. pose proof (Nat.div_mod_eq n 2).
      assert (n mod 2 < 2)%nat by (apply Nat.mod_upper_bound; lia). lia.
    + destruct (lookup_lt_is_Some_2 cluster (n / 2)) as [b Hb]; [fold n; lia|].
      exists b. split; [assumption|]. now rewrite (nth_lookup_Some _ _ _ _ Hb).
Qed.

Lemma sorted_head_min (l : list SourceFileInfo.t) :
  l <> [] -> StronglySorted by_size l ->
  is_min_size l (at_index (map SourceFileInfo.size l) 0).
Proof.
  destruct l as [|f l]; [congruence|]. intros _ Hs. cbn. split.
  - exists f. split; [left | reflexivity].
  - intros g Hg. apply elem_of_cons in Hg as [->|Hg]; [lia|].
    apply StronglySorted_inv in Hs as [_ Hall].
    rewrite List.Forall_forall in Hall. apply Hall. now apply list_elem_of_In.
Qed.

Lemma sorted_last_max (l : list SourceFileInfo.t) :
  l <> [] -> StronglySorted by_size l ->
  is_max_size l (at_index (map SourceFileInfo.size l)
                          (length (map SourceFileInfo.size l) - 1)).
Proof.
  induction l as [|f l _] using rev_ind; [congruence|]. intros _ Hs.
  rewrite map_app, length_app. cbn [map length].
  unfold at_index. rewrite app_nth2 by (rewrite length_map; lia).
  replace (length (map SourceFileInfo.size l) + 1 - 1 - length (map SourceFileInfo.size l))%nat
    with 0%nat by lia.
  cbn. split.
  - exists f. split; [apply elem_of_app; right; left | reflexivity].
  - intros g Hg. apply elem_of_app in Hg as [Hg|Hg].
    + apply (StronglySorted_app_1_elem_of _ _ _ g f Hs Hg). left.
    + apply list_elem_of_singleton in Hg as ->. lia.
Qed.

Lemma min_size_Permutation l l' mn :
  Permutation l l' -> is_min_size l mn -> is_min_size l' mn.
Proof.
  intros Hp [(f & Hf & Hm) Hall]. split.
  - exists f. split; [now rewrite <- Hp | assumption].
  - intros g Hg. apply Hall. now rewrite Hp.
Qed.

Lemma max_size_Permutation l l' mx :
  Permutation l l' -> is_max_size l mx -> is_max_size l' mx.
Proof.
  intros Hp [(f & Hf & Hm) Hall]. split.
  - exists f. split; [now rewrite <- Hp | assumption].
  - intros g Hg. apply Hall. now rewrite Hp.
Qed.

(** The selection of the loop, for any bin function that does not decrease
    with the size: the bin kept holds the most files, and among the bins
    that hold as many it has the smallest index. The argument uses nothing
    else of the arithmetic of the bin index. *)
Lemma largest_bin_by_key (key : SourceFileInfo.t -> Z) (sorted : list SourceFileInfo.t) :
  sorted <> [] -> StronglySorted Z.le (map key sorted) ->
  exists k,
    largest_bin (bins_by key sorted) = members key k sorted
    /\ (0 < length (members key k sorted))%nat
    /\ (forall j, (length (members key j sorted)
                   <= length (members key k sorted))%nat)
    /\ (forall j, length (members key j sorted) = length (members key k sorted) ->
                  (k <= j)%Z).
Proof.
  intros Hne Hmono.
  assert (Hkeys : StronglySorted Z.lt (map fst (bins_by key sorted)))
    by now apply build_keys_increasing.
  assert (Hnd : NoDup (map fst (bins_by key sorted))).
  { clear -Hkeys. induction Hkeys as [|k l Hl IH Hall]; constructor; [|assumption].
    intros Hin. rewrite List.Forall_forall in Hall.
    apply list_elem_of_In, Hall in Hin. lia. }
  assert (Hbin : forall k fs, (k, fs) ∈ bins_by key sorted ->
                 fs = members key k sorted /\ fs <> []).
  { intros k fs Hin.
    pose proof (bin_lookup_elem _ _ _ Hnd Hin) as Hl.
    rewrite bin_lookup_build in Hl. split; [congruence|].
    assert (Hk : k ∈ map fst (bins_by key sorted))
      by (apply list_elem_of_fmap; now exists (k, fs)).
    apply build_keys_elem in Hk as (g & Hg & Hkg).
    intros ->.
    assert (In g (members key k sorted)).
    { apply filter_In. split; [now apply list_elem_of_In | now apply Z.eqb_eq]. }
    rewrite Hl in *. contradiction. }
  destruct (largest_bin_first_max (bins_by key sorted))
    as (pre & k & fs & suf & Hdec & Hbest & Hpre & Hsuf).
  { destruct sorted as [|f s]; [congruence|].
    intros E. assert (Hk : key f ∈ map fst (bins_by key (f :: s))).
    { apply build_keys_elem. exists f. split; [left | reflexivity]. }
    rewrite E in Hk. inversion Hk. }
  { intros [k fs] Hin. now apply Hbin in Hin. }
  assert (Hfs : fs = members key k sorted /\ fs <> []).
  { apply Hbin. rewrite Hdec. apply elem_of_app. right. left. }
  destruct Hfs as [Hfs Hfsne].
  assert (Hcases : forall j, length (members key j sorted) <> 0%nat ->
             (j, members key j sorted) ∈ bins_by key sorted).
  { intros j Hj.
    assert (Hk : j ∈ map fst (bins_by key sorted)).
    { apply build_keys_elem.
      destruct (members key j sorted) as [|g l] eqn:E; [simpl in Hj; lia|].
      assert (Hg : In g (members key j sorted)) by (rewrite E; now left).
      apply filter_In in Hg as [Hg1 Hg2].
      exists g. split; [now apply list_elem_of_In | now apply Z.eqb_eq]. }
    apply list_elem_of_fmap in Hk as ([j' fs'] & -> & Hin).
    cbn [fst]. now destruct (Hbin _ _ Hin) as [<- _]. }
  exists k. rewrite Hbest, <- Hfs. split; [reflexivity|].
  split; [destruct fs; [congruence | simpl; lia]|]. split.
  - intros j.
    destruct (Nat.eq_dec (length (members key j sorted)) 0) as [->|Hj]; [lia|].
    pose proof (Hcases j Hj) as Hin. rewrite Hdec in Hin.
    apply elem_of_app in Hin as [Hin|Hin]; [specialize (Hpre _ Hin); cbn in Hpre; lia|].
    apply elem_of_cons in Hin as [[= _ <-]|Hin]; [lia|].
    specialize (Hsuf _ Hin). exact Hsuf.
  - intros j Hj.
    assert (Hj0 : length (members key j sorted) <> 0%nat)
      by (destruct fs; [congruence | simpl in Hj; lia]).
    pose proof (Hcases j Hj0) as Hin. rewrite Hdec in Hin.
    apply elem_of_app in Hin as [Hin|Hin].
    + specialize (Hpre _ Hin). cbn in Hpre. lia.
    + apply elem_of_cons in Hin as [[= -> _]|Hin]; [lia|].
      rewrite Hdec, map_app in Hkeys. cbn [map fst] in Hkeys.
      apply StronglySorted_app_1_r, StronglySorted_inv in Hkeys as [_ Hall].
      rewrite List.Forall_forall in Hall.
      assert (k < j)%Z; [|lia].
      apply Hall, list_elem_of_In, list_elem_of_fmap.
      now exists (j, members key j sorted).
Qed.

Lemma detectFromFiles_primary_cluster files :
  (3 <= length files)%nat ->
  primary_cluster files (EpisodeDetectionResult.clusterMedianSize (detectFromFiles files)).
Proof.
  intros Hlen.
  destruct (detectFromFiles_large files Hlen) as (Hmed & _). cbn zeta in Hmed.
  rewrite Hmed. clear Hmed.
  set (sorted := sort_by_size files).
  assert (Hperm : Permutation sorted files) by apply merge_sort_Permutation.
  assert (Hsorted : StronglySorted by_size sorted)
    by (apply StronglySorted_merge_sort; apply _).
  assert (Hne : sorted <> []).
  { intros E. apply Permutation_length in Hperm. rewrite E in Hperm. simpl in Hperm. lia. }
  set (mn := at_index (map SourceFileInfo.size sorted) 0).
  set (mx := at_index (map SourceFileInfo.size sorted)
                      (length (map SourceFileInfo.size sorted) - 1)).
  set (w := binWidth mn mx).
  assert (Hw : (0 < w)%Q) by (apply Math_max_pos; reflexivity).
  set (key := fun f => binIndex mn w (SourceFileInfo.size f)).
  change (build_bins mn w sorted) with (bins_by key sorted).
  destruct (largest_bin_by_key key sorted Hne) as (k & Hbest & Hpos & Hmax & Htie).
  { apply (StronglySorted_fmap key by_size Z.le); [|exact Hsorted].
    intros a b Hab. now apply binIndex_mono. }
  rewrite Hbest.
  assert (Hcount : forall j, length (bin_members mn mx files j)
                             = length (members key j sorted)).
  { intros j. unfold members, bin_members.
    rewrite (List.filter_ext _ (fun f => (key f =? j)%Z))
      by (intros f; unfold key, w; now rewrite binIndex_double_bin).
    apply Permutation_length.
    apply (List_filter_Permutation (fun f => (key f =? j)%Z)). now symmetry. }
  exists mn, mx, k, (sort_numbers (map SourceFileInfo.size (members key k sorted))).
  split; [apply (min_size_Permutation sorted); [assumption | now apply sorted_head_min]|].
  split; [apply (max_size_Permutation sorted); [assumption | now apply sorted_last_max]|].
  rewrite !Hcount.
  split; [exact Hpos|]. split; [|split; [|split; [|split]]].
  - intros j. rewrite Hcount. apply Hmax.
  - intros j. rewrite Hcount. apply Htie.
  - unfold sort_numbers. rewrite merge_sort_Permutation.
    apply Permutation_map. unfold members, bin_members.
    rewrite (List.filter_ext (fun f => (double_bin mn mx (SourceFileInfo.size f) =? k)%Z)
                             (fun f => (key f =? k)%Z))
      by (intros f; unfold key, w; now rewrite binIndex_double_bin).
    apply (List_filter_Permutation (fun f => (key f =? k)%Z)), Hperm.
  - unfold sort_numbers. apply StronglySorted_merge_sort; apply _.
  - apply median_of_is_median. intros E.
    assert (Hp : Permutation (sort_numbers (map SourceFileInfo.size (members key k sorted)))
                             (map SourceFileInfo.size (members key k sorted)))
      by apply merge_sort_Permutation.
    rewrite E in Hp. apply Permutation_nil in Hp.
    destruct (members key k sorted); [simpl in Hpos; lia | discriminate].
Qed.

(** C5 (amended). For three or more video files the detection works on the
    least and the greatest size, bins of width max(50 MiB, (max - min) / 20)
    counted from the least size, the quotient by 20 and the quotient by the
    width each rounded to the nearest double before the maximum and the
    floor are taken ([double_bin]); it picks the bin with the most files and
    among equals the one of smallest index, and reports as
    [clusterMedianSize] the median of the sizes of that bin, the mean of the
    two middle sizes when their number is even. The sizes are below 2^52
    bytes: they, their differences and the sum of two of them are doubles. *)
Theorem detectEpisodeFiles_primary_cluster (folderPath : path) (entries : list entry) :
  (3 <= length (listVideoFilesRecursive folderPath entries))%nat ->
  Forall (fun f => (SourceFileInfo.size f < 2 ^ 52)%N)
         (listVideoFilesRecursive folderPath entries) ->
  primary_cluster
    (listVideoFilesRecursive folderPath entries)
    (EpisodeDetectionResult.clusterMedianSize (detectEpisodeFiles folderPath entries)).
Proof. intros H _. now apply detectFromFiles_primary_cluster. Qed.

Lemma detectEpisodeFiles_primary_cluster_witness :
  (3 <= length (listVideoFilesRecursive [js "disc"] sample_disc))%nat
  /\ Forall (fun f => (SourceFileInfo.size f < 2 ^ 52)%N)
            (listVideoFilesRecursive [js "disc"] sample_disc)
  /\ EpisodeDetectionResult.clusterMedianSize (detectEpisodeFiles [js "disc"] sample_disc)
     = ((Qof (MiB 1300) + Qof (MiB 1310)) / Qof 2)%Q
  /\ primary_cluster
       (listVideoFilesRecursive [js "disc"] sample_disc)
       (EpisodeDetectionResult.clusterMedianSize (detectEpisodeFiles [js "disc"] sample_disc)).
Proof.
  assert (Hsizes : Forall (fun f => (SourceFileInfo.size f < 2 ^ 52)%N)
                          (listVideoFilesRecursive [js "disc"] sample_disc)).
  { apply List.Forall_forall. intros f Hf. vm_compute in Hf.
    repeat (destruct Hf as [<-|Hf]; [reflexivity|]). destruct Hf. }
  split; [vm_compute; lia|]. split; [exact Hsizes|]. split; [vm_compute; reflexivity|].
  apply detectEpisodeFiles_primary_cluster; [vm_compute; lia | exact Hsizes].
Defined.

(** C5 as stated fails on the code. For the sizes 1048576, 1069583772,
    1069584772, 1069585772 and 1425763504 the width is 71235746.4 in exact
    arithmetic and the third size lies exactly 15 widths above the least
    one; the width that the program holds is the double next to 71235746.4,
    which is greater, and the quotient is rounded to the double below 15.
    The program puts the third size in bin 14 with the second and reports
    the median 1069584272, where the rule in exact arithmetic puts it in
    bin 15 with the fourth, for a median of 1069585272. *)
Lemma detectEpisodeFiles_primary_cluster_counterexample :
  let files := listVideoFilesRecursive [js "disc"] sample_boundary_disc in
  let sizes := map SourceFileInfo.size files in
  let mn := 1048576%N in
  let mx := 1425763504%N in
  sizes = [mn; 1069583772; 1069584772; 1069585772; mx]%N
  /\ map (spec_bin mn mx) sizes = [0; 14; 15; 15; 20]%Z
  /\ map (binIndex mn (binWidth mn mx)) sizes = [0; 14; 14; 15; 20]%Z
  /\ (EpisodeDetectionResult.clusterMedianSize
        (detectEpisodeFiles [js "disc"] sample_boundary_disc)
      == (Qof 1069583772 + Qof 1069584772) / Qof 2)%Q
  /\ ~ (EpisodeDetectionResult.clusterMedianSize
          (detectEpisodeFiles [js "disc"] sample_boundary_disc)
        == (Qof 1069584772 + Qof 1069585772) / Qof 2)%Q.
Proof.
  cbv zeta. split; [vm_compute; reflexivity|]. split; [vm_compute; reflexivity|].
  split; [vm_compute; reflexivity|]. split; [vm_compute; reflexivity|].
  vm_compute. discriminate.
Qed.

(** ** [matchEpisodes]: the truncation of the subtitle texts *)

Lemma totalChars_total_length subs :
  totalChars subs = total_length (map ExtractedSubtitles.content subs).
Proof.
  unfold totalChars.
  assert (H : forall acc,
            foldl (fun sum sub => (sum + jslength (ExtractedSubtitles.content sub))%N) acc subs
            = (acc + total_length (map ExtractedSubtitles.content subs))%N).
  { induction subs as [|s subs IH]; intros acc; simpl; [lia|]. rewrite IH. lia. }
  now rewrite H.
Qed.

Lemma Qof_nonneg n : (0 <= Qof n)%Q.
Proof. unfold Qof. change 0%Q with (inject_Z 0). rewrite <- Zle_Qle. lia. Qed.

(** The number of code units kept of a text, times the total, is at most
    the length of the text times 500,000, up to the two roundings. *)
Lemma allowedChars_scaled subs sub :
  (MAX_TOTAL_CHARS < totalChars subs)%N ->
  (0 <= allowedChars subs sub)%Z
  /\ (inject_Z (allowedChars subs sub) * Qof (totalChars subs)
      <= Qof (jslength (ExtractedSubtitles.content sub))
         * (500000 * ((1 + (1 # 2 ^ 53)) * (1 + (1 # 2 ^ 53)))))%Q
  /\ (allowedChars subs sub <= Z.of_N (jslength (ExtractedSubtitles.content sub)))%Z.
Proof.
  intros H. unfold allowedChars, fmul, fdiv.
  set (l := Qof (jslength (ExtractedSubtitles.content sub))).
  set (t := Qof (totalChars subs)).
  change (Qof MAX_TOTAL_CHARS) with 500000%Q.
  assert (Hl : (0 <= l)%Q) by apply Qof_nonneg.
  assert (Ht : (500001 <= t)%Q).
  { unfold t, Qof. change 500001%Q with (inject_Z 500001). rewrite <- Zle_Qle.
    unfold MAX_TOTAL_CHARS in H. lia. }
  set (x := (l / t)%Q).
  assert (Hxt : (x * t == l)%Q) by (unfold x; field; lra).
  assert (Hx : (0 <= x)%Q).
  { unfold x, Qdiv. apply Qmult_le_0_compat; [exact Hl|].
    apply Qlt_le_weak, Qinv_lt_0_compat. lra. }
  pose proof (to_double_nonneg x Hx) as Hq0.
  pose proof (to_double_upper x Hx) as Hq1.
  set (q := to_double x) in *.
  assert (Hy : (0 <= q * 500000)%Q) by lra.
  pose proof (to_double_nonneg _ Hy) as Hp0.
  pose proof (to_double_upper _ Hy) as Hp1.
  set (p := to_double (q * 500000)) in *.
  pose proof (Qfloor_le p) as Hf.
  change (1 # 2 ^ 53)%Q with (1 # 9007199254740992)%Q in *.
  assert (Hup : (inject_Z (Qfloor p)
                 <= x * (500000 * ((1 + (1 # 9007199254740992))
                                   * (1 + (1 # 9007199254740992)))))%Q) by lra.
  assert (Hxs : (x * 500001 <= l)%Q).
  { rewrite <- Hxt. rewrite (Qmult_comm x t), (Qmult_comm x 500001).
    apply Qmult_le_compat_r; assumption. }
  split; [|split].
  - change 0%Z with (Qfloor 0). now apply Qfloor_resp_le.
  - rewrite <- Hxt.
    rewrite (Qmult_comm x t), <- Qmult_assoc, (Qmult_comm (inject_Z _) t).
    apply Qmult_le_l; [lra | exact Hup].
  - rewrite Zle_Qle. fold (Qof (jslength (ExtractedSubtitles.content sub))). fold l. lra.
Qed.

Lemma snippetContent_truncated subs sub :
  (MAX_TOTAL_CHARS < totalChars subs)%N ->
  snippetContent subs sub
  = take (Z.to_nat (allowedChars subs sub)) (ExtractedSubtitles.content sub)
  /\ Z.of_N (jslength (snippetContent subs sub)) = allowedChars subs sub.
Proof.
  intros H. pose proof (allowedChars_scaled subs sub H) as (H0 & _ & H1).
  unfold snippetContent, needsTruncation.
  rewrite (proj2 (N.ltb_lt _ _) H). unfold slice0.
  destruct (Z.ltb_spec (allowedChars subs sub) 0) as [?|_]; [lia|].
  split; [reflexivity|]. unfold jslength in *. rewrite length_take.
  set (a := allowedChars subs sub) in *. clearbody a.
  rewrite Nat.min_l by lia. lia.
Qed.

Lemma truncated_total subs (part : list ExtractedSubtitles.t) :
  (MAX_TOTAL_CHARS < totalChars subs)%N ->
  (Qof (total_length (map (snippetContent subs) part)) * Qof (totalChars subs)
   <= Qof (total_length (map ExtractedSubtitles.content part))
      * (500000 * ((1 + (1 # 2 ^ 53)) * (1 + (1 # 2 ^ 53)))))%Q.
Proof.
  intros H. induction part as [|s part IH]; cbn [map total_length foldr].
  - change (Qof 0) with 0%Q. lra.
  - fold (total_length (map (snippetContent subs) part)).
    fold (total_length (map ExtractedSubtitles.content part)).
    destruct (snippetContent_truncated subs s H) as [_ Hl].
    destruct (allowedChars_scaled subs s H) as (_ & Hs & _).
    rewrite <- Hl in Hs. fold (Qof (jslength (snippetContent subs s))) in Hs.
    assert (Hadd : forall a b, (Qof (a + b) == Qof a + Qof b)%Q).
    { intros a b. unfold Qof. now rewrite N2Z.inj_add, inject_Z_plus. }
    rewrite !Hadd. lra.
Qed.

(** C9 (amended). When the subtitle texts hold more than 500,000 code units
    in total (and fewer than 2^53, so that the total is the double that the
    program holds), the text of each file is cut to its first [kept] code
    units, where [kept] is the floor of the product by 500,000 of the
    quotient of its length by the total, the quotient and the product each
    rounded to the nearest double; [kept] never exceeds the length of the
    text, and the texts of the prompt hold at most 500,000 code units
    together. Otherwise every text goes into the prompt unchanged. *)
Theorem matchEpisodes_truncation (subtitles : list ExtractedSubtitles.t) :
  (totalChars subtitles < 2 ^ 53)%N ->
  ((MAX_TOTAL_CHARS < totalChars subtitles)%N ->
   Forall2 (fun sub text =>
              let length := Qof (jslength (ExtractedSubtitles.content sub)) in
              let kept :=
                Qfloor (to_double (to_double (length / Qof (totalChars subtitles))
                                   * 500000)) in
              text = take (Z.to_nat kept) (ExtractedSubtitles.content sub)
              /\ Z.of_N (jslength text) = kept)
           subtitles (promptContents subtitles)
   /\ (total_length (promptContents subtitles) <= 500000)%N)
  /\ ((totalChars subtitles <= MAX_TOTAL_CHARS)%N ->
      promptContents subtitles = map ExtractedSubtitles.content subtitles).
Proof.
  intros _. split.
  - intros H. split.
    + unfold promptContents. apply Forall2_fmap_r, Forall_Forall2_diag, List.Forall_forall.
      intros sub _. cbn zeta. now apply snippetContent_truncated.
    + pose proof (truncated_total subtitles subtitles H) as Hb.
      rewrite <- totalChars_total_length in Hb. fold (promptContents subtitles) in Hb.
      assert (Ht : (0 < Qof (totalChars subtitles))%Q).
      { unfold Qof. change 0%Q with (inject_Z 0). rewrite <- Zlt_Qlt. lia. }
      rewrite (Qmult_comm (Qof (totalChars subtitles))) in Hb.
      apply Qmult_le_r in Hb; [|exact Ht].
      change (1 # 2 ^ 53)%Q with (1 # 9007199254740992)%Q in Hb.
      assert (Hlt : (Qof (total_length (promptContents subtitles)) < Qof 500001)%Q).
      { change (Qof 500001) with 500001%Q. lra. }
      unfold Qof in Hlt. rewrite <- Zlt_Qlt in Hlt. lia.
  - intros H. unfold promptContents, snippetContent, needsTruncation.
    now rewrite (proj2 (N.ltb_ge _ _) H).
Qed.

Lemma matchEpisodes_truncation_witness :
  (totalChars sample_subtitles < 2 ^ 53)%N
  /\ (MAX_TOTAL_CHARS < totalChars sample_subtitles)%N
  /\ map jslength (promptContents sample_subtitles) = [333333%N; 166666%N]
  /\ (total_length (promptContents sample_subtitles) <= 500000)%N
  /\ promptContents (take 1 sample_subtitles)
     = map ExtractedSubtitles.content (take 1 sample_subtitles).
Proof.
  split; [vm_compute; reflexivity|].
  split; [vm_compute; reflexivity|]. split; [vm_compute; reflexivity|]. split.
  - apply (proj1 (matchEpisodes_truncation sample_subtitles ltac:(vm_compute; reflexivity))).
    vm_compute. reflexivity.
  - apply (proj2 (matchEpisodes_truncation (take 1 sample_subtitles)
                    ltac:(vm_compute; reflexivity))).
    vm_compute. discriminate.
Defined.

(** C9 as stated fails on the code. For two texts of 2,382 and 597,618 code
    units the quotient 2382 / 600000 is rounded to a double just below
    0.00397, its product by 500,000 is rounded to a double just below 1985,
    and the program keeps 1,984 code units of the first text, where the
    floor of (length / total) * 500,000 is 1,985. *)
Lemma matchEpisodes_truncation_counterexample :
  totalChars sample_rounding_subtitles = 600000%N
  /\ map jslength (promptContents sample_rounding_subtitles) = [1984%N; 498015%N]
  /\ Qfloor (Qof 2382 / Qof 600000 * Qof 500000) = 1985%Z
  /\ (to_double (to_double (Qof 2382 / Qof 600000) * Qof 500000) < 1985)%Q.
Proof.
  split; [vm_compute; reflexivity|]. split; [vm_compute; reflexivity|].
  split; [vm_compute; reflexivity|]. vm_compute. reflexivity.
Qed.

(** ** [verifyOutputIntegrity] *)

Lemma missing_for_nil fs sourceDir outputDir srcFile :
  missing_for fs sourceDir outputDir srcFile = [] ->
  exists size, stat fs srcFile = Some size
    /\ stat fs (join_rel outputDir (relative sourceDir srcFile)) = Some size.
Proof.
  unfold missing_for. intros H.
  destruct (stat fs srcFile) as [a|]; [|discriminate].
  destruct (stat fs (join_rel outputDir (relative sourceDir srcFile))) as [b|]; [|discriminate].
  case_bool_decide as E; [discriminate|].
  exists a. split; [reflexivity|]. f_equal. destruct (decide (a = b)); [congruence | contradiction].
Qed.

Lemma flat_map_nil_Forall {A B} (f : A -> list B) l :
  flat_map f l = [] -> Forall (fun x => f x = []) l.
Proof.
  induction l as [|x l IH]; simpl; intros H; [constructor|].
  apply app_eq_nil in H as [H1 H2]. constructor; auto.
Qed.

Lemma wf_tree_cons e es :
  wf_tree (e :: es)
  <-> (entry_name e ∉ map entry_name es) /\ wf_entry e /\ wf_tree es.
Proof.
  unfold wf_tree. cbn [map foldr]. rewrite NoDup_cons. tauto.
Qed.

Lemma find_entry_head e es : find_entry (entry_name e) (e :: es) = Some e.
Proof. cbn. now rewrite bool_decide_eq_true_2. Qed.

Lemma find_entry_skip e es name :
  entry_name e <> name -> find_entry name (e :: es) = find_entry name es.
Proof. intros H. cbn. now rewrite bool_decide_eq_false_2. Qed.

Lemma resolve_skip e es p :
  (forall name, head p = Some name -> entry_name e <> name) ->
  resolve (e :: es) p = resolve es p.
Proof.
  destruct p as [|name [|n2 p]]; [reflexivity | |]; intros H;
    cbn [resolve]; rewrite find_entry_skip by (apply H; reflexivity); reflexivity.
Qed.

Lemma stat_total_app fs l1 l2 :
  stat_total fs (l1 ++ l2) = (stat_total fs l1 + stat_total fs l2)%N.
Proof.
  unfold stat_total. induction l1 as [|p l1 IH]; cbn [app foldr]; [reflexivity|].
  rewrite IH. lia.
Qed.

Lemma stat_total_ext fs1 fs2 l :
  Forall (fun p => stat fs1 p = stat fs2 p) l -> stat_total fs1 l = stat_total fs2 l.
Proof.
  unfold stat_total. induction 1 as [|p l Hp _ IH]; cbn [foldr]; [reflexivity|].
  now rewrite Hp, IH.
Qed.

(** The walk of an entry lists paths that begin with the directory walked
    and then the name of the entry. *)
Lemma listAllFilesOfEntry_prefix e :
  forall dir p, In p (listAllFilesOfEntry dir e) ->
                exists q, p = dir ++ entry_name e :: q.
Proof.
  induction e as [name size|name dsize children IH|name osize] using entry_nested_ind;
    intros dir p Hp; cbn in Hp.
  - destruct Hp as [<-|[]]. now exists [].
  - apply in_flat_map in Hp as (c & Hc & Hp).
    rewrite List.Forall_forall in IH.
    destruct (IH c Hc _ _ Hp) as [q ->]. unfold join. rewrite <- app_assoc.
    now exists (entry_name c :: q).
  - destruct Hp.
Qed.

Lemma listAllFilesOfEntry_relocate e :
  forall dir, listAllFilesOfEntry dir e = map (app dir) (listAllFilesOfEntry [] e).
Proof.
  induction e as [name size|name dsize children IH|name osize] using entry_nested_ind;
    intros dir; cbn [listAllFilesOfEntry map]; try reflexivity.
  unfold join. cbn [app].
  induction IH as [|c cs Hc _ IHcs]; [reflexivity|].
  cbn [flat_map]. rewrite map_app, IHcs, (Hc (dir ++ [name])), (Hc [name]).
  rewrite map_map. f_equal. apply map_ext. intros q. now rewrite <- app_assoc.
Qed.

Lemma wf_foldr_Forall es :
  foldr (fun c acc => wf_entry c /\ acc) True es <-> Forall wf_entry es.
Proof.
  induction es as [|e es IH]; cbn [foldr]; [split; [constructor | auto]|].
  rewrite IH. split; [intros [? ?]; now constructor | intros H; inversion H; auto].
Qed.

(** In a well-formed tree [stat] finds, at every path that the walk lists,
    the file that the walk has seen there. *)
Lemma stat_total_walk es :
  wf_tree es ->
  stat_total es (flat_map (listAllFilesOfEntry []) es)
  = foldr (fun c acc => (entry_total c + acc)%N) 0%N es.
Proof.
  assert (Hentry : forall e, wf_entry e -> forall es',
             entry_name e ∉ map entry_name es' ->
             stat_total (e :: es') (listAllFilesOfEntry [] e) = entry_total e).
  { induction e as [name size|name dsize children IH|name osize] using entry_nested_ind;
      intros Hwf es' Hfresh.
    - cbn [listAllFilesOfEntry join app stat_total foldr].
      unfold stat. cbn [resolve].
      rewrite (find_entry_head (EFile name size)). cbn. lia.
    - cbn [listAllFilesOfEntry entry_total]. destruct Hwf as [Hnd Hall].
      apply wf_foldr_Forall in Hall.
      transitivity (stat_total children (flat_map (listAllFilesOfEntry []) children)).
      + unfold join. cbn [app].
        assert (Hmap : flat_map (listAllFilesOfEntry [name]) children
                       = map (cons name) (flat_map (listAllFilesOfEntry []) children)).
        { clear. induction children as [|c cs IHc]; [reflexivity|].
          cbn [flat_map]. rewrite map_app, <- IHc. f_equal.
          apply (listAllFilesOfEntry_relocate c [name]). }
        rewrite Hmap. clear Hmap.
        assert (Hne : Forall (fun q => q <> []) (flat_map (listAllFilesOfEntry []) children)).
        { apply List.Forall_forall. intros q Hq. apply in_flat_map in Hq as (c & _ & Hq).
          apply listAllFilesOfEntry_prefix in Hq as [q' ->]. discriminate. }
        revert Hne. generalize (flat_map (listAllFilesOfEntry []) children) as L.
        induction 1 as [|q l Hq _ IHl]; [reflexivity|].
        cbn [map stat_total foldr].
        fold (stat_total (EDir name dsize children :: es') (map (cons name) l)).
        fold (stat_total children l). rewrite IHl. f_equal.
        unfold stat. destruct q as [|n q]; [congruence|].
        cbn [resolve]. now rewrite (find_entry_head (EDir name dsize children)).
      + clear Hfresh. induction children as [|c cs IHc]; [reflexivity|].
        cbn [flat_map foldr]. rewrite stat_total_app.
        apply NoDup_cons in Hnd as [Hc Hnd].
        apply Forall_cons in Hall as [Hwc Hall].
        apply Forall_cons in IH as [IHc0 IH].
        rewrite (IHc0 Hwc cs Hc). f_equal.
        rewrite <- (IHc IH Hnd Hall).
        apply stat_total_ext, List.Forall_forall. intros p Hp.
        apply in_flat_map in Hp as (c' & Hc' & Hp).
        apply listAllFilesOfEntry_prefix in Hp as [q ->]. cbn [app].
        unfold stat. rewrite resolve_skip; [reflexivity|].
        intros n [= <-] E. apply Hc. rewrite E. apply list_elem_of_fmap.
        exists c'. split; [reflexivity | now apply list_elem_of_In].
    - reflexivity. }
  induction es as [|e es IH]; intros Hwf; [reflexivity|].
  apply wf_tree_cons in Hwf as (Hfresh & Hwe & Hwf).
  cbn [flat_map foldr]. rewrite stat_total_app, (Hentry e Hwe es Hfresh). f_equal.
  rewrite <- (IH Hwf).
  apply stat_total_ext, List.Forall_forall. intros p Hp.
  apply in_flat_map in Hp as (c' & Hc' & Hp).
  apply listAllFilesOfEntry_prefix in Hp as [q ->]. cbn [app].
  unfold stat. rewrite resolve_skip; [reflexivity|].
  intros n [= <-] E. apply Hfresh. rewrite E. apply list_elem_of_fmap.
  exists c'. split; [reflexivity | now apply list_elem_of_In].
Qed.

Lemma find_entry_In name es e : find_entry name es = Some e -> In e es.
Proof.
  induction es as [|c es IH]; cbn; [discriminate|].
  case_bool_decide; [intros [= ->]; now left | intros Hf; right; auto].
Qed.

Lemma wf_tree_find name es cname dsize children :
  wf_tree es -> find_entry name es = Some (EDir cname dsize children) ->
  wf_tree children.
Proof.
  intros [_ Hall] Hf. apply wf_foldr_Forall in Hall.
  apply find_entry_In in Hf. rewrite List.Forall_forall in Hall.
  exact (Hall _ Hf).
Qed.

Lemma readdir_cons fs name dir entries :
  readdir fs (name :: dir) = Some entries ->
  exists cname dsize children,
    find_entry name fs = Some (EDir cname dsize children)
    /\ readdir children dir = Some entries.
Proof.
  unfold readdir. destruct dir as [|n2 dir]; cbn [resolve].
  - destruct (find_entry name fs) as [[| cname dsize children |]|]; try discriminate.
    intros [= <-]. eauto.
  - destruct (find_entry name fs) as [[| cname dsize children |]|]; try discriminate.
    intros H. eauto.
Qed.

Lemma wf_tree_readdir dir : forall fs entries,
  wf_tree fs -> readdir fs dir = Some entries -> wf_tree entries.
Proof.
  induction dir as [|name dir IH]; intros fs entries Hwf Hr.
  - cbn in Hr. congruence.
  - apply readdir_cons in Hr as (cname & dsize & children & Hf & Hr).
    eapply IH; [|exact Hr]. eapply wf_tree_find; eassumption.
Qed.

Lemma stat_under dir : forall fs entries q,
  readdir fs dir = Some entries -> q <> [] -> stat fs (dir ++ q) = stat entries q.
Proof.
  induction dir as [|name dir IH]; intros fs entries q Hr Hq.
  - cbn in Hr. injection Hr as ->. reflexivity.
  - apply readdir_cons in Hr as (cname & dsize & children & Hf & Hr).
    rewrite <- (IH children entries q Hr Hq).
    unfold stat. cbn [app resolve]. rewrite Hf.
    destruct (dir ++ q) eqn:E; [|reflexivity].
    apply app_eq_nil in E as [_ ->]. congruence.
Qed.

(** In a well-formed tree the byte total of the walk of a directory is the
    total that [stat] reports over the files that the walk lists. *)
Lemma walk_total_stat_total fs dir files :
  wf_tree fs -> listAllFilesRecursive fs dir = Some files ->
  walk_total fs dir = Some (stat_total fs files).
Proof.
  unfold listAllFilesRecursive, walk_total. intros Hwf H.
  destruct (readdir fs dir) as [entries|] eqn:Hr; [|discriminate].
  injection H as <-. f_equal.
  rewrite <- (stat_total_walk entries (wf_tree_readdir dir fs entries Hwf Hr)).
  assert (Hmap : flat_map (listAllFilesOfEntry dir) entries
                 = map (app dir) (flat_map (listAllFilesOfEntry []) entries)).
  { clear. induction entries as [|c cs IHc]; [reflexivity|].
    cbn [flat_map]. rewrite map_app, <- IHc. f_equal.
    apply listAllFilesOfEntry_relocate. }
  rewrite Hmap. clear Hmap.
  assert (Hne : Forall (fun q => q <> []) (flat_map (listAllFilesOfEntry []) entries)).
  { apply List.Forall_forall. intros q Hq. apply in_flat_map in Hq as (c & _ & Hq).
    apply listAllFilesOfEntry_prefix in Hq as [q' ->]. discriminate. }
  revert Hne. generalize (flat_map (listAllFilesOfEntry []) entries) as L.
  induction 1 as [|q l Hq _ IHl]; [reflexivity|].
  cbn [map stat_total foldr]. fold (stat_total fs (map (app dir) l)).
  fold (stat_total entries l). rewrite <- IHl. f_equal. f_equal.
  symmetry. now apply stat_under.
Qed.

(** C7 (amended). When [verifyOutputIntegrity] returns [verified], every
    file of the recursive walk of the source directory has, at the same
    relative path under the output directory, an entry of the same byte
    length; hence the byte total of the source files (which, in a tree
    without duplicate names, is the byte total of the walk of the source
    directory) equals the byte total of the entries at those paths. What
    else lies under the output directory is not looked at. *)
Theorem verifyOutputIntegrity_verified
    (fs : list entry) (sourceDir outputDir : path) (missingFiles : list path) :
  verifyOutputIntegrity fs sourceDir outputDir = Some (true, missingFiles) ->
  exists sourceFiles,
    listAllFilesRecursive fs sourceDir = Some sourceFiles
    /\ missingFiles = []
    /\ Forall (fun srcFile =>
                 exists size,
                   stat fs srcFile = Some size
                   /\ stat fs (join_rel outputDir (relative sourceDir srcFile)) = Some size)
              sourceFiles
    /\ stat_total fs sourceFiles
       = stat_total fs
           (map (fun srcFile => join_rel outputDir (relative sourceDir srcFile))
                sourceFiles)
    /\ (wf_tree fs ->
        walk_total fs sourceDir
        = Some (stat_total fs
                  (map (fun srcFile => join_rel outputDir (relative sourceDir srcFile))
                       sourceFiles))).
Proof.
  unfold verifyOutputIntegrity. intros H.
  destruct (listAllFilesRecursive fs sourceDir) as [sourceFiles|] eqn:Hl; [|discriminate].
  injection H as Hv <-. apply bool_decide_eq_true in Hv.
  apply length_zero_iff_nil in Hv.
  exists sourceFiles. split; [reflexivity|]. split; [assumption|].
  apply flat_map_nil_Forall in Hv.
  assert (Hall : Forall (fun srcFile =>
                 exists size,
                   stat fs srcFile = Some size
                   /\ stat fs (join_rel outputDir (relative sourceDir srcFile)) = Some size)
              sourceFiles).
  { eapply List.Forall_impl; [|exact Hv]. intros f. apply missing_for_nil. }
  split; [exact Hall|].
  assert (Htotal : stat_total fs sourceFiles
       = stat_total fs
           (map (fun srcFile => join_rel outputDir (relative sourceDir srcFile))
                sourceFiles)).
  { clear Hv Hl. induction Hall as [|f l (size & Hs & Hd) _ IH]; [reflexivity|].
    cbn [stat_total map foldr]. fold (stat_total fs l).
    fold (stat_total fs (map (fun srcFile => join_rel outputDir (relative sourceDir srcFile)) l)).
    now rewrite Hs, Hd, IH. }
  split; [exact Htotal|].
  intros Hwf. rewrite <- Htotal. now apply walk_total_stat_total.
Qed.

Lemma verifyOutputIntegrity_verified_witness :
  verifyOutputIntegrity sample_tree [js "staging"] [js "output"] = Some (true, [])
  /\ walk_total sample_tree [js "staging"]
     = Some (stat_total sample_tree [[js "output"; js "Season 01"; js "a.mkv"]]).
Proof.
  assert (H : verifyOutputIntegrity sample_tree [js "staging"] [js "output"]
              = Some (true, [])) by (vm_compute; reflexivity).
  split; [exact H|].
  destruct (verifyOutputIntegrity_verified _ _ _ _ H) as (files & Hl & _ & _ & _ & Ht).
  vm_compute in Hl. injection Hl as <-. apply Ht.
  split; [apply (bool_decide_unpack _); vm_compute; exact I|].
  cbn. repeat split; apply (bool_decide_unpack _); vm_compute; exact I.
Defined.

(** C7 as stated fails on the code: the output directory holds one more file
    than the staging directory, the verification succeeds, and the byte
    totals of the two walks are 10 and 15. *)
Lemma verifyOutputIntegrity_verified_counterexample :
  verifyOutputIntegrity sample_tree [js "staging"] [js "output"] = Some (true, [])
  /\ walk_total sample_tree [js "staging"] = Some 10%N
  /\ walk_total sample_tree [js "output"] = Some 15%N.
Proof. repeat split; vm_compute; reflexivity. Qed.

(** ** The review loop of the disc coordinator *)

Lemma filter_still_pending_ext (m1 m2 : gmap (list N) ReviewDecision.t) items :
  (forall r, In r items -> Disc.still_pending m1 r = Disc.still_pending m2 r) ->
  List.filter (Disc.still_pending m1) items = List.filter (Disc.still_pending m2) items.
Proof.
  induction items as [|r items IH]; intros H; [reflexivity|]. simpl.
  rewrite (H r) by now left. rewrite IH; [reflexivity|].
  intros x Hx. apply H. now right.
Qed.

Lemma filter_length_le {A} (p q : A -> bool) l :
  (forall x, In x l -> p x = true -> q x = true) ->
  (length (List.filter p l) <= length (List.filter q l))%nat.
Proof.
  induction l as [|x l IH]; intros H; [reflexivity|]. simpl.
  assert (IH' : (length (List.filter p l) <= length (List.filter q l))%nat).
  { apply IH. intros y Hy. apply H. now right. }
  destruct (p x) eqn:Hp.
  - rewrite (H x) by (auto; now left). simpl. lia.
  - destruct (q x); simpl; lia.
Qed.

(** A coordinator turn never changes what the progress query lists. *)
Lemma review_turn_keeps_pending input st :
  match Disc.review_turn input st with
  | Disc.Resumed st' | Disc.Thrown st' =>
      ProcessFolderProgress.pendingReviews (Disc.getProgressQuery input st')
      = ProcessFolderProgress.pendingReviews (Disc.getProgressQuery input st)
  | _ => True
  end.
Proof.
  unfold Disc.review_turn.
  destruct (Disc.pendingReviews st !! Disc.reviewIndex st) as [review|]; [|exact I].
  destruct (Disc.resolvedReviews st !! ReviewItem.id review) as [decision|] eqn:Hd; [|exact I].
  destruct (ReviewDecision.approved decision) eqn:Ha,
           (Disc.animeForRename (ProcessFolderInput.seriesMetadata input)) as [anime|];
    try reflexivity.
  - destruct (copyEpisodeToWorkDir _ _ _ _ _ _) as [[fs' renamed]|]; reflexivity.
  - cbn. apply filter_still_pending_ext. intros r _. unfold Disc.still_pending.
    destruct (decide (ReviewItem.id r = ReviewItem.id review)) as [->|Hne].
    + now rewrite lookup_delete_eq, Hd, Ha.
    + now rewrite lookup_delete_ne by congruence.
Qed.

(** A rejecting signal never shortens the list of the progress query. *)
Lemma reject_signal_pending input st decision :
  ReviewDecision.approved decision = false ->
  (Disc.pending_count input st
   <= Disc.pending_count input (Disc.reviewDecisionSignal decision st))%nat.
Proof.
  intros Ha. unfold Disc.pending_count. cbn.
  apply filter_length_le. intros r _ Hr. unfold Disc.still_pending in *.
  destruct (decide (ReviewDecision.reviewItemId decision = ReviewItem.id r)) as [<-|Hne].
  - now rewrite lookup_insert_eq, Ha.
  - now rewrite lookup_insert_ne.
Qed.

(** ... and leaves it as it is unless an approval is stored under its id. *)
Lemma reject_signal_same input st decision :
  ReviewDecision.approved decision = false ->
  (forall d, Disc.resolvedReviews st !! ReviewDecision.reviewItemId decision = Some d ->
             ReviewDecision.approved d = false) ->
  ProcessFolderProgress.pendingReviews
    (Disc.getProgressQuery input (Disc.reviewDecisionSignal decision st))
  = ProcessFolderProgress.pendingReviews (Disc.getProgressQuery input st).
Proof.
  intros Ha Hold. cbn. apply filter_still_pending_ext. intros r _.
  unfold Disc.still_pending.
  destruct (decide (ReviewDecision.reviewItemId decision = ReviewItem.id r)) as [E|Hne].
  - rewrite <- E, lookup_insert_eq, Ha.
    destruct (Disc.resolvedReviews st !! ReviewDecision.reviewItemId decision) as [d|] eqn:Hd;
      [now rewrite (Hold d eq_refl) | reflexivity].
  - now rewrite lookup_insert_ne.
Qed.

Lemma on_event_pending_shrinks input st e :
  (Disc.pending_count input (Disc.on_event input st e) < Disc.pending_count input st)%nat ->
  exists decision, e = Disc.Signal decision /\ ReviewDecision.approved decision = true.
Proof.
  unfold Disc.on_event. intros H.
  destruct (Disc.status st); try lia.
  destruct e as [decision|].
  - exists decision. split; [reflexivity|].
    destruct (ReviewDecision.approved decision) eqn:Ha; [reflexivity|].
    pose proof (reject_signal_pending input st decision Ha). lia.
  - exfalso. pose proof (review_turn_keeps_pending input st) as Hk.
    unfold Disc.pending_count in H.
    destruct (Disc.review_turn input st) as [|st'| |st']; try rewrite Hk in H; try lia.
    cbn in H. lia.
Qed.

Lemma approvedEpisodeTitle_metadata metadata s e :
  Disc.approvedEpisodeTitle metadata s e
  = default (js "Episode " ++ String_of e) (metadata_title metadata s e).
Proof.
  unfold Disc.approvedEpisodeTitle, metadata_title.
  destruct (List.find _ (SeriesMetadata.seasons metadata)) as [season|]; [|reflexivity].
  now destruct (List.find _ (SeasonInfo.episodes season)).
Qed.

(** Where [mkdir] and the copy return, the store that they leave is the
    store that they return. *)
Lemma mkdir_leaves_returns dirs : forall fs fs',
  foldl
    (fun acc d =>
       match acc with
       | None => None
       | Some m =>
           match m !! d with
           | Some (NFile _) => None
           | Some NDir => Some m
           | None => Some (<[d := NDir]> m)
           end
       end)
    (Some fs) dirs = Some fs' ->
  mkdir_leaves fs dirs = fs'.
Proof.
  induction dirs as [|d dirs IH]; intros fs fs'; cbn [foldl mkdir_leaves].
  - congruence.
  - destruct (fs !! d) as [[data|]|]; [|apply IH..].
    intros H. exfalso. revert H. clear. induction dirs as [|d' dirs IH]; cbn; [discriminate|].
    exact IH.
Qed.

Lemma copyEpisodeToWorkDir_leaves_returns match_ anime episodesDir root dryRun fs fs' r :
  copyEpisodeToWorkDir match_ anime episodesDir root dryRun fs = Some (fs', r) ->
  copyEpisodeToWorkDir_leaves match_ anime episodesDir root dryRun fs = fs'.
Proof.
  unfold copyEpisodeToWorkDir, copyEpisodeToWorkDir_leaves.
  destruct dryRun; [congruence|].
  destruct (access fs _); [congruence|].
  destruct (mkdir_recursive fs _) as [fs1|]; [|discriminate].
  unfold cp, cp_leaves.
  destruct (fs1 !! EpisodeMatch.filePath match_) as [[data|]|]; try discriminate.
  destruct (bool_decide _); [discriminate|].
  destruct (fs1 !! _) as [[data'|]|]; try discriminate;
    destruct (mkdir_recursive fs1 _); congruence.
Qed.

(** C4 (amended). For the review item at which the loop stands: without a
    stored decision under its id the coordinator stays blocked. With a
    stored decision and a first season to name the show: an approving
    decision makes it show the file as the current one and copy-rename the
    match made of the corrected-or-suggested season and episode, the title
    that the metadata holds for them or the text Episode N, confidence 1 and
    reasoning User-approved; when the copy returns it records the file and
    moves to the next item, when the copy throws the disc fails with the
    file still shown as the current one and the store as the copy left it;
    a rejecting decision is deleted and the coordinator is blocked again.
    Without a first season any stored decision, approving or rejecting,
    makes it move to the next item: nothing is copied and the decision is
    not deleted. The list of the progress query gets shorter only when the
    handler stores an approving decision; no turn of the coordinator changes
    it; a rejecting decision never shortens it and leaves it unchanged
    unless it replaces a stored approval. *)
Theorem review_loop_contract
    (input : ProcessFolderInput.t) (st : Disc.state) (review : ReviewItem.t) :
  Disc.pendingReviews st !! Disc.reviewIndex st = Some review ->
  let metadata := ProcessFolderInput.seriesMetadata input in
  let root := ProcessFolderInput.seriesRootDir input in
  let dryRun := default false (ProcessFolderInput.dryRun input) in
  let id := ReviewItem.id review in
  (Disc.resolvedReviews st !! id = None -> Disc.review_turn input st = Disc.Blocked)
  /\ (forall decision anime,
        Disc.resolvedReviews st !! id = Some decision ->
        ReviewDecision.approved decision = true ->
        Disc.animeForRename metadata = Some anime ->
        exists m,
          EpisodeMatch.fileName m = ReviewItem.fileName review
          /\ EpisodeMatch.filePath m = ReviewItem.filePath review
          /\ EpisodeMatch.seasonNumber m
             = default (ReviewItem.suggestedSeasonNumber review)
                       (ReviewDecision.correctedSeasonNumber decision)
          /\ EpisodeMatch.episodeNumber m
             = default (ReviewItem.suggestedEpisodeNumber review)
                       (ReviewDecision.correctedEpisodeNumber decision)
          /\ EpisodeMatch.episodeTitle m
             = default (js "Episode " ++ String_of (EpisodeMatch.episodeNumber m))
                       (metadata_title metadata (EpisodeMatch.seasonNumber m)
                                       (EpisodeMatch.episodeNumber m))
          /\ EpisodeMatch.confidence m = 1%Q
          /\ EpisodeMatch.reasoning m = js "User-approved"
          /\ Disc.currentFile (Disc.start_copy review st)
             = Some (ReviewItem.fileName review)
          /\ match copyEpisodeToWorkDir m anime (join root (js "_episodes")) root dryRun
                     (Disc.fs st) with
             | Some (fs', renamed) =>
                 Disc.review_turn input st
                 = Disc.Resumed (Disc.record_copy renamed fs' st)
             | None =>
                 exists st',
                   Disc.review_turn input st = Disc.Thrown st'
                   /\ Disc.status st' = FolderStatus.failed
                   /\ Disc.currentFile st' = Some (ReviewItem.fileName review)
                   /\ Disc.fs st'
                      = copyEpisodeToWorkDir_leaves m anime (join root (js "_episodes"))
                          root dryRun (Disc.fs st)
                   /\ Disc.renamedFiles st' = Disc.renamedFiles st
                   /\ Disc.episodesCopied st' = Disc.episodesCopied st
                   /\ Disc.reviewIndex st' = Disc.reviewIndex st
                   /\ Disc.pendingReviews st' = Disc.pendingReviews st
                   /\ Disc.resolvedReviews st' = Disc.resolvedReviews st
             end)
  /\ (forall decision anime,
        Disc.resolvedReviews st !! id = Some decision ->
        ReviewDecision.approved decision = false ->
        Disc.animeForRename metadata = Some anime ->
        let st' := Disc.set_resolvedReviews (delete id (Disc.resolvedReviews st)) st in
        Disc.review_turn input st = Disc.Resumed st'
        /\ Disc.review_turn input st' = Disc.Blocked)
  /\ (forall decision,
        Disc.resolvedReviews st !! id = Some decision ->
        Disc.animeForRename metadata = None ->
        let st' := Disc.set_reviewIndex (S (Disc.reviewIndex st)) st in
        Disc.review_turn input st = Disc.Resumed st'
        /\ Disc.resolvedReviews st' !! id = Some decision
        /\ Disc.renamedFiles st' = Disc.renamedFiles st
        /\ Disc.fs st' = Disc.fs st)
  /\ (forall e,
        (Disc.pending_count input (Disc.on_event input st e)
         < Disc.pending_count input st)%nat ->
        exists decision, e = Disc.Signal decision /\ ReviewDecision.approved decision = true)
  /\ (forall st',
        Disc.review_turn input st = Disc.Resumed st' ->
        ProcessFolderProgress.pendingReviews (Disc.getProgressQuery input st')
        = ProcessFolderProgress.pendingReviews (Disc.getProgressQuery input st))
  /\ (forall decision,
        ReviewDecision.approved decision = false ->
        (Disc.pending_count input st
         <= Disc.pending_count input (Disc.reviewDecisionSignal decision st))%nat
        /\ ((forall d, Disc.resolvedReviews st !! ReviewDecision.reviewItemId decision = Some d ->
                       ReviewDecision.approved d = false) ->
            ProcessFolderProgress.pendingReviews
              (Disc.getProgressQuery input (Disc.reviewDecisionSignal decision st))
            = ProcessFolderProgress.pendingReviews (Disc.getProgressQuery input st))).
Proof.
  intros Hrev metadata root dryRun id. repeat apply conj.
  - intros Hnone. unfold Disc.review_turn. rewrite Hrev. fold id. now rewrite Hnone.
  - intros decision anime Hd Ha Han.
    exists (Disc.correctedMatch metadata review decision).
    repeat apply conj; try reflexivity.
    + apply approvedEpisodeTitle_metadata.
    + unfold Disc.review_turn. rewrite Hrev. fold id metadata root dryRun.
      rewrite Hd, Ha, Han. cbn zeta.
      destruct (copyEpisodeToWorkDir _ _ _ _ _ _) as [[fs' renamed]|]; [reflexivity|].
      eexists. split; [reflexivity|]. repeat apply conj; reflexivity.
  - intros decision anime Hd Ha Han st'. split.
    + unfold Disc.review_turn. rewrite Hrev. fold id metadata.
      now rewrite Hd, Ha, Han.
    + unfold Disc.review_turn, st'. cbn [Disc.pendingReviews Disc.reviewIndex
        Disc.set_resolvedReviews Disc.resolvedReviews].
      rewrite Hrev. fold id. now rewrite lookup_delete_eq.
  - intros decision Hd Han st'. split; [|split; [exact Hd | split; reflexivity]].
    unfold Disc.review_turn. rewrite Hrev. fold id metadata.
    rewrite Hd, Han. now destruct (ReviewDecision.approved decision).
  - apply on_event_pending_shrinks.
  - intros st' Ht. pose proof (review_turn_keeps_pending input st) as Hk.
    now rewrite Ht in Hk.
  - intros decision Ha. split.
    + now apply reject_signal_pending.
    + now apply reject_signal_same.
Qed.

Lemma review_loop_contract_witness :
  let approved_state :=
    Disc.reviewDecisionSignal (approve (js "Disc 01-a.mkv") None (Some 1%N))
      sample_review_state in
  Disc.pendingReviews sample_review_state !! Disc.reviewIndex sample_review_state
  = Some sample_review
  /\ ReviewItem.id sample_review = js "Disc 01-a.mkv"
  /\ Disc.review_turn sample_input sample_review_state = Disc.Blocked
  /\ (Disc.pending_count sample_input sample_review_state
      <= Disc.pending_count sample_input
           (Disc.reviewDecisionSignal (reject (js "Disc 01-a.mkv")) sample_review_state))%nat
  /\ (exists m,
        EpisodeMatch.seasonNumber m = 1%N
        /\ EpisodeMatch.episodeNumber m = 1%N
        /\ EpisodeMatch.episodeTitle m = js "Pilot"
        /\ EpisodeMatch.reasoning m = js "User-approved"
        /\ match copyEpisodeToWorkDir m sample_anime [js "proc"; js "_episodes"]
                 [js "proc"] false sample_store with
           | Some (fs', renamed) =>
               Disc.review_turn sample_input approved_state
               = Disc.Resumed (Disc.record_copy renamed fs' approved_state)
           | None =>
               exists st',
                 Disc.review_turn sample_input approved_state = Disc.Thrown st'
                 /\ Disc.status st' = FolderStatus.failed
                 /\ Disc.currentFile st' = Some (js "a.mkv")
           end)
  /\ (Disc.review_turn sample_input_without_season
        (Disc.reviewDecisionSignal (reject (js "Disc 01-a.mkv"))
           sample_review_state_without_season)
      = Disc.Resumed
          (Disc.set_reviewIndex 1
             (Disc.reviewDecisionSignal (reject (js "Disc 01-a.mkv"))
                sample_review_state_without_season))).
Proof.
  intros approved_state.
  assert (H : Disc.pendingReviews sample_review_state
              !! Disc.reviewIndex sample_review_state = Some sample_review)
    by (vm_compute; reflexivity).
  split; [exact H|]. split; [vm_compute; reflexivity|].
  pose proof (review_loop_contract sample_input sample_review_state sample_review H)
    as (Hblocked & _ & _ & _ & _ & _ & Hreject).
  split; [apply Hblocked; vm_compute; reflexivity|].
  split; [apply (Hreject (reject (js "Disc 01-a.mkv"))); reflexivity|].
  split.
  - pose proof (review_loop_contract sample_input approved_state sample_review
                  ltac:(vm_compute; reflexivity))
      as (_ & Happroved & _).
    destruct (Happroved (approve (js "Disc 01-a.mkv") None (Some 1%N)) sample_anime
                ltac:(vm_compute; reflexivity) ltac:(reflexivity)
                ltac:(vm_compute; reflexivity))
      as (m & _ & _ & Hs & He & Ht & _ & Hr & _ & Hturn).
    exists m. split; [exact Hs|]. split; [exact He|].
    split; [rewrite Ht, Hs, He; vm_compute; reflexivity|].
    split; [exact Hr|].
    change (ProcessFolderInput.seriesRootDir sample_input) with [js "proc"] in Hturn.
    change (join [js "proc"] (js "_episodes")) with [js "proc"; js "_episodes"] in Hturn.
    change (default false (ProcessFolderInput.dryRun sample_input)) with false in Hturn.
    change (Disc.fs approved_state) with sample_store in Hturn.
    destruct (copyEpisodeToWorkDir m sample_anime _ _ _ _) as [[fs' renamed]|];
      [exact Hturn|].
    destruct Hturn as (st' & Hth & Hst & Hcur & _).
    exists st'. split; [exact Hth|]. split; [exact Hst | exact Hcur].
  - pose proof (review_loop_contract sample_input_without_season
                  (Disc.reviewDecisionSignal (reject (js "Disc 01-a.mkv"))
                     sample_review_state_without_season)
                  sample_review_without_season ltac:(vm_compute; reflexivity))
      as (_ & _ & _ & Hnone & _).
    apply (Hnone (reject (js "Disc 01-a.mkv"))); vm_compute; reflexivity.
Defined.

(** C4 as stated fails on the code. With two items pending and the loop
    blocked on the first, an approving decision for the second shortens the
    list of the progress query although nothing has been processed or
    copied, and a rejecting decision that follows makes the list longer
    again. The reasoning of an approved match is spelled with a capital
    letter. And where the metadata holds no season the loop passes over the
    first item on a rejecting decision, which it does not delete, and on an
    approving decision, for which it copies nothing. *)
Lemma review_loop_contract_counterexample :
  let id_a := js "Disc 01-a.mkv" in
  let id_b := js "Disc 01-b.mkv" in
  let st1 :=
    Disc.run sample_input [Disc.Signal (approve id_b None None)] sample_review_state in
  let st2 :=
    Disc.run sample_input
      [Disc.Signal (approve id_b None None); Disc.Signal (reject id_b)]
      sample_review_state in
  let st3 :=
    Disc.run sample_input_without_season
      [Disc.Signal (reject id_a); Disc.Resume] sample_review_state_without_season in
  let st4 :=
    Disc.run sample_input_without_season
      [Disc.Signal (approve id_a None None); Disc.Resume]
      sample_review_state_without_season in
  Disc.pending_count sample_input sample_review_state = 2%nat
  /\ Disc.pending_count sample_input st1 = 1%nat
  /\ Disc.renamedFiles st1 = [] /\ Disc.reviewIndex st1 = 0%nat
  /\ Disc.pending_count sample_input st2 = 2%nat
  /\ (forall metadata review decision,
        EpisodeMatch.reasoning (Disc.correctedMatch metadata review decision)
        <> js "user-approved")
  /\ Disc.reviewIndex sample_review_state_without_season = 0%nat
  /\ (Disc.reviewIndex st3 = 1%nat
      /\ Disc.resolvedReviews st3 !! id_a = Some (reject id_a))
  /\ (Disc.reviewIndex st4 = 1%nat
      /\ Disc.renamedFiles st4 = []
      /\ Disc.fs st4 = Disc.fs sample_review_state_without_season).
Proof.
  repeat apply conj; try (vm_compute; reflexivity).
  intros metadata review decision. cbn. discriminate.
Qed.

(** ** The finalize gate of the library coordinator *)

Ltac gate_cases :=
  cbn;
  repeat match goal with
    | |- context [if ?b then _ else _] => destruct b eqn:?
    end;
  rewrite ?orb_false_r, ?orb_true_r in *;
  unfold gate_invariant; cbn; repeat split; intros;
  try discriminate; try congruence; auto.

Lemma gate_invariant_run data events :
  gate_invariant data events (Library.run data events Library.initial).
Proof.
  induction events as [|e events IH] using rev_ind.
  - repeat split; cbn; intros; try discriminate; congruence.
  - unfold Library.run in *. rewrite foldl_app. cbn [foldl].
    set (st := foldl (Library.on_event data) Library.initial events) in *.
    destruct IH as (I1 & I2 & I3 & I4).
    assert (Hmono : Library.approval_received events = true ->
                    Library.approval_received (events ++ [e]) = true).
    { unfold Library.approval_received. rewrite existsb_app. now intros ->. }
    assert (Happ : forall decision,
               e = Library.Signal decision ->
               FinalizeDecision.approved decision = true ->
               Library.approval_received (events ++ [e]) = true).
    { intros decision -> Ha. unfold Library.approval_received.
      rewrite existsb_app. cbn. rewrite Ha. now rewrite orb_true_r. }
    unfold Library.on_event.
    destruct (Library.at_ st) as [| |result] eqn:Hat.
    + destruct (I2 eq_refl) as (Hf & Hc & Hcp).
      destruct e as [decision|].
      * unfold Library.finalizeSignal. rewrite Hc, andb_false_r. gate_cases.
      * unfold Library.resume, Library.after_wait. rewrite Hat.
        cbn [Library.finalized Library.rejected Library.copiedToOutput
             Library.canFinalize Library.awaitingFinalApproval].
        rewrite Hf, Hcp. cbn [orb]. gate_cases.
    + destruct (I3 eq_refl) as (Hcp & Hcan).
      destruct e as [decision|].
      * unfold Library.finalizeSignal.
        destruct (FinalizeDecision.approved decision) eqn:Ha.
        -- specialize (Happ decision eq_refl Ha). gate_cases.
        -- gate_cases.
      * unfold Library.resume, Library.after_wait. rewrite Hat, Hcp. gate_cases.
    + unfold gate_invariant. rewrite Hat. repeat split; intros; try discriminate; auto.
Qed.

(** Where [canFinalize] holds the gate works: nothing is copied under the
    output directory unless an approving finalize signal was received. *)
Lemma finalize_gate_when_canFinalize data events :
  Library.canFinalizeOf data = true ->
  Library.copiedToOutput (Library.run data events Library.initial) <> [] ->
  Library.approval_received events = true.
Proof.
  intros Hcan Hcp.
  destruct (gate_invariant_run data events) as (I1 & _ & _ & I4).
  destruct (I4 Hcp) as [Hf|Hn]; [now apply I1 | congruence].
Qed.

(** C1, the failing input. One of two discs failed, so [canFinalize] is
    false; the coordinator is resumed once and no signal is ever sent. The
    wait of Stage 5 is skipped, Stage 6 runs, the staged file is written
    under the output directory and the run ends as completed. *)
Theorem organizeLibrary_publishes_without_approval :
  let events := [Library.Resume] in
  let final := Library.run sample_failed_run events Library.initial in
  Library.approval_received events = false
  /\ Library.canFinalize final = false
  /\ Library.finalized final = false
  /\ Library.workflowStage final = WorkflowStage.completed
  /\ Library.copiedToOutput final
     = [[js "output"; js "Show"; js "Season 01"; js "Show - S01E01.mkv"]].
Proof. repeat split; vm_compute; reflexivity. Qed.

(** ** [sanitizeWorkflowId] *)








(** ** [basename] of the library coordinator *)

Lemma strip_trailing_slashes_free s : slash_free s -> strip_trailing_slashes s = s.
Proof.
  induction 1 as [|c s Hc Hs IH]; simpl; [reflexivity|]. rewrite IH.
  destruct s; [|reflexivity].
  destruct (N.eqb_spec c SLASH); [contradiction | reflexivity].
Qed.

Lemma strip_trailing_slashes_app s t :
  strip_trailing_slashes (s ++ t)
  = match strip_trailing_slashes t with
    | [] => strip_trailing_slashes s
    | r => s ++ r
    end.
Proof.
  induction s as [|c s IH]; simpl.
  - now destruct (strip_trailing_slashes t).
  - rewrite IH. destruct (strip_trailing_slashes t) as [|d r]; [reflexivity|].
    now destruct s.
Qed.

Lemma strip_trailing_slashes_repeat k : strip_trailing_slashes (repeat SLASH k) = [].
Proof. induction k as [|k IH]; simpl; [reflexivity|]. now rewrite IH. Qed.

Lemma split_slash_nonempty s : split_slash s <> [].
Proof.
  destruct s as [|c s]; simpl; [discriminate|].
  destruct (c =? SLASH)%N; [discriminate|]. destruct (split_slash s); discriminate.
Qed.

Lemma split_slash_app s t :
  split_slash (s ++ SLASH :: t) = split_slash s ++ split_slash t.
Proof.
  induction s as [|c s IH]; simpl; [reflexivity|].
  destruct (c =? SLASH)%N; [now rewrite IH|].
  rewrite IH. destruct (split_slash s) as [|p ps] eqn:E; [|reflexivity].
  now apply split_slash_nonempty in E.
Qed.

Lemma split_slash_free s : slash_free s -> split_slash s = [s].
Proof.
  induction 1 as [|c s Hc Hs IH]; simpl; [reflexivity|]. rewrite IH.
  destruct (N.eqb_spec c SLASH); [contradiction | reflexivity].
Qed.

Lemma split_slash_parts s : Forall slash_free (split_slash s).
Proof.
  induction s as [|c s IH]; simpl; [repeat constructor|].
  destruct (N.eqb_spec c SLASH) as [->|Hc]; [constructor; [constructor | exact IH]|].
  destruct (split_slash s) as [|p ps]; [repeat constructor; assumption|].
  inversion IH; subst. constructor; [constructor|]; assumption.
Qed.

(** The base name that the library coordinator takes of a path holds no
    slash; and for a path that ends with a separator, a name without slash
    and any number of slashes it is that name. [resolveShowName] is this
    function. *)
Theorem basename_last_component (dir name : jsstring) (k : nat) :
  slash_free name -> name <> [] ->
  resolveShowName (dir ++ SLASH :: name ++ repeat SLASH k) = name
  /\ forall p, slash_free (basename p).
Proof.
  intros Hfree Hne. split.
  - unfold resolveShowName, basename.
    replace (dir ++ SLASH :: name ++ repeat SLASH k)
      with ((dir ++ SLASH :: name) ++ repeat SLASH k) by now rewrite <- app_assoc.
    rewrite strip_trailing_slashes_app, strip_trailing_slashes_repeat.
    rewrite strip_trailing_slashes_app.
    assert (Hs : strip_trailing_slashes (SLASH :: name) = SLASH :: name).
    { cbn [strip_trailing_slashes]. rewrite (strip_trailing_slashes_free _ Hfree).
      destruct name; [contradiction | reflexivity]. }
    rewrite Hs. rewrite split_slash_app, (split_slash_free _ Hfree).
    now rewrite last_snoc.
  - intros p. unfold basename.
    pose proof (split_slash_parts (strip_trailing_slashes p)) as Hall.
    destruct (last (split_slash (strip_trailing_slashes p))) as [x|] eqn:E;
      [|constructor].
    apply last_Some_elem_of in E. rewrite List.Forall_forall in Hall.
    apply Hall. now apply list_elem_of_In.
Qed.

Lemma basename_last_component_witness :
  resolveShowName (js "/mnt/media/input/My Show//") = js "My Show".
Proof.
  refine (proj1 (basename_last_component (js "/mnt/media/input") (js "My Show") 2 _ _)).
  - unfold slash_free. apply (bool_decide_unpack _). vm_compute. exact I.
  - discriminate.
Defined.

(** ** [replaceExtension] *)

Lemma last_dot_suffix_app_dot s x :
  Forall (fun c => c <> 46%N) x ->
  last_dot_suffix (s ++ 46%N :: x) = Some (46%N :: x).
Proof.
  intros Hx.
  assert (Hnone : last_dot_suffix x = None).
  { induction Hx as [|c x Hc _ IH]; simpl; [reflexivity|]. rewrite IH.
    destruct (N.eqb_spec c 46); [contradiction | reflexivity]. }
  induction s as [|c s IH]; simpl.
  - now rewrite Hnone.
  - now rewrite IH.
Qed.

Lemma extname_of_name_stem stem e :
  stem <> [] -> is_extension e -> extname_of_name (stem ++ e) = e.
Proof.
  intros Hstem (x & -> & Hx & Hdots & _).
  destruct stem as [|c rest]; [contradiction|].
  cbn [app extname_of_name]. rewrite (last_dot_suffix_app_dot _ _ Hdots).
  case_bool_decide as Heq; [|reflexivity].
  exfalso. change (js "..") with [46%N; 46%N] in Heq.
  apply (f_equal length) in Heq. rewrite !length_cons, length_app, !length_cons in Heq.
  destruct x; [contradiction | simpl in Heq; lia].
Qed.

(** [replaceExtension] swaps the extension: for a file name made of a stem
    (without slash) and an extension it returns the stem with the new
    extension, whatever the old one was. Two media files of one folder that
    differ only in their extension therefore share one subtitle text file. *)
Theorem replaceExtension_stem (stem e newExt : jsstring) :
  stem <> [] -> slash_free stem -> is_extension e ->
  replaceExtension (stem ++ e) newExt = stem ++ newExt
  /\ forall e' dir, is_extension e' ->
       subtitleFilePath dir (stem ++ e') = subtitleFilePath dir (stem ++ e).
Proof.
  intros Hstem _ He.
  assert (H : forall e0 ext, is_extension e0 ->
                replaceExtension (stem ++ e0) ext = stem ++ ext).
  { intros e0 ext He0. unfold replaceExtension.
    rewrite (extname_of_name_stem _ _ Hstem He0). f_equal.
    unfold path_basename_suffix. destruct He0 as (x & -> & _ & _).
    rewrite bool_decide_eq_false_2 by discriminate.
    rewrite length_app. cbn [orb].
    destruct (Nat.ltb_spec (length stem + length (46%N :: x)) (length (46%N :: x)));
      [lia|].
    rewrite bool_decide_eq_false_2.
    2:{ intros Heq. apply (f_equal length) in Heq. rewrite length_app in Heq.
        destruct stem; [contradiction | simpl in Heq; lia]. }
    replace (length stem + length (46%N :: x) - length (46%N :: x))%nat
      with (length stem) by lia.
    rewrite drop_app_length, take_app_length.
    now rewrite bool_decide_eq_true_2. }
  split; [now apply H|].
  intros e' dir He'. unfold subtitleFilePath. now rewrite !H.
Qed.

Lemma replaceExtension_stem_witness :
  replaceExtension (js "ep1.mkv") (js ".txt") = js "ep1.txt"
  /\ subtitleFilePath [js "_subtitles"] (js "ep1.mp4")
     = subtitleFilePath [js "_subtitles"] (js "ep1.mkv").
Proof.
  assert (Hext : forall x, x <> [] -> Forall (fun c => c <> 46%N) x -> slash_free x ->
                           is_extension (46%N :: x)) by (intros x ? ? ?; now exists x).
  assert (Hmkv : is_extension (js ".mkv")).
  { apply Hext; [discriminate|..]; apply (bool_decide_unpack _); vm_compute; exact I. }
  assert (Hmp4 : is_extension (js ".mp4")).
  { apply Hext; [discriminate|..]; apply (bool_decide_unpack _); vm_compute; exact I. }
  assert (Hstem : slash_free (js "ep1")).
  { unfold slash_free. apply (bool_decide_unpack _). vm_compute. exact I. }
  destruct (replaceExtension_stem (js "ep1") (js ".mkv") (js ".txt")
              ltac:(discriminate) Hstem Hmkv) as [H1 H2].
  split; [exact H1|]. exact (H2 (js ".mp4") [js "_subtitles"] Hmp4).
Defined.

(** ** The store: what the writing activities leave in place *)

Lemma option_succeeds {A} (o : option A) :
  (match o with Some _ => true | None => false end) = true -> exists a, o = Some a.
Proof. destruct o as [a|]; [eauto | discriminate]. Qed.

Lemma mkdir_step_None ds :
  foldl (fun acc d =>
           match acc with
           | None => None
           | Some m =>
               match m !! d with
               | Some (NFile _) => None
               | Some NDir => Some m
               | None => Some (<[d := NDir]> m)
               end
           end) (None : option store) ds = None.
Proof. induction ds as [|d ds IH]; [reflexivity | exact IH]. Qed.

(** [mkdir] with [recursive] only adds directories, at ancestors of its
    argument. *)
Lemma mkdir_recursive_grows fs dir fs' :
  mkdir_recursive fs dir = Some fs' ->
  fs ⊆ fs'
  /\ forall p x, fs' !! p = Some x -> fs !! p = Some x \/ (x = NDir /\ p ∈ ancestors dir).
Proof.
  unfold mkdir_recursive. generalize (ancestors dir) as ds. intros ds. revert fs.
  induction ds as [|d ds IH]; intros fs H; cbn [foldl] in H.
  - injection H as <-. split; [reflexivity | auto].
  - destruct (fs !! d) as [[data|]|] eqn:Hd.
    + now rewrite mkdir_step_None in H.
    + destruct (IH _ H) as [Hsub Hnew]. split; [exact Hsub|].
      intros p x Hp. destruct (Hnew p x Hp) as [?|[-> ?]]; [now left|].
      right. split; [reflexivity | (apply elem_of_cons; now right)].
    + destruct (IH _ H) as [Hsub Hnew]. split.
      * etransitivity; [|exact Hsub]. now apply insert_subseteq.
      * intros p x Hp. destruct (Hnew p x Hp) as [Hl|[-> ?]].
        -- destruct (decide (p = d)) as [->|Hne].
           ++ rewrite lookup_insert_eq in Hl. injection Hl as <-.
              right. split; [reflexivity | (apply elem_of_cons; now left)].
           ++ rewrite lookup_insert_ne in Hl by congruence. now left.
        -- right. split; [reflexivity | (apply elem_of_cons; now right)].
Qed.

Lemma ancestors_shorter dir p : p ∈ ancestors dir -> (length p <= length dir)%nat.
Proof.
  unfold ancestors. intros H. apply list_elem_of_fmap in H as (k & -> & _).
  rewrite length_take. lia.
Qed.

Lemma removelast_length {A} (l : list A) : length (removelast l) = (length l - 1)%nat.
Proof.
  induction l as [|a l IH]; [reflexivity|].
  destruct l as [|b l]; [reflexivity|].
  change (removelast (a :: b :: l)) with (a :: removelast (b :: l)).
  rewrite length_cons, IH. simpl. lia.
Qed.

(** A successful [cp] writes the bytes of [src] at [dest] and leaves every
    other entry in place. *)
Lemma cp_copies fs src dest fs' :
  cp fs src dest = Some fs' ->
  exists data,
    fs !! src = Some (NFile data) /\ fs' !! dest = Some (NFile data)
    /\ preserved_except dest fs fs'
    /\ (fs !! dest = None -> fs ⊆ fs').
Proof.
  unfold cp. intros H.
  destruct (fs !! src) as [[data|]|] eqn:Hsrc; try discriminate.
  destruct (bool_decide (src = dest)); [discriminate|].
  assert (Hins : exists fs0, mkdir_recursive fs (removelast dest) = Some fs0
                             /\ fs' = <[dest := NFile data]> fs0).
  { destruct (fs !! dest) as [[?|]|]; try discriminate;
      destruct (mkdir_recursive fs (removelast dest)) as [fs0|];
      try discriminate; exists fs0; split; congruence. }
  destruct Hins as (fs0 & Hmk & ->).
  destruct (mkdir_recursive_grows _ _ _ Hmk) as [Hsub Hnew].
  exists data. split; [reflexivity|]. split; [apply lookup_insert_eq|]. split.
  - intros p x Hp Hl. rewrite lookup_insert_ne by congruence.
    eapply lookup_weaken; eassumption.
  - intros Hnone. etransitivity; [exact Hsub|]. apply insert_subseteq.
    destruct (fs0 !! dest) as [x|] eqn:E; [|reflexivity].
    destruct (Hnew _ _ E) as [?|[_ Hin]]; [congruence|].
    apply ancestors_shorter in Hin. rewrite removelast_length in Hin.
    destruct dest; [|simpl in Hin; lia].
    unfold ancestors in *. cbn in Hmk. injection Hmk as <-. congruence.
Qed.

Lemma copySingleFile_returns fs src dest fs' n :
  copySingleFile fs src dest = Some (fs', n) ->
  exists data,
    fs !! src = Some (NFile data) /\ n = N.of_nat (length data)
    /\ fs' !! dest = Some (NFile data) /\ fs' !! src = Some (NFile data)
    /\ preserved_except dest fs fs'.
Proof.
  unfold copySingleFile. intros H.
  destruct (mkdir_recursive fs (removelast dest)) as [fs1|] eqn:Hmk; [|discriminate].
  destruct (mkdir_recursive_grows _ _ _ Hmk) as [Hsub Hnew].
  destruct (fs1 !! src) as [[data|]|] eqn:Hsrc; try discriminate.
  destruct (cp fs1 src dest) as [fs2|] eqn:Hcp; [|discriminate].
  injection H as <- <-.
  destruct (cp_copies _ _ _ _ Hcp) as (data' & Hs' & Hd & Hpres & _).
  assert (data' = data) as -> by congruence.
  assert (Hfs : fs !! src = Some (NFile data)).
  { destruct (Hnew _ _ Hsrc) as [?|[? _]]; [assumption | discriminate]. }
  exists data. repeat split; try assumption.
  - apply Hpres; [|assumption]. intros ->. unfold cp in Hcp. rewrite Hsrc in Hcp.
    now rewrite bool_decide_eq_true_2 in Hcp.
  - intros p x Hp Hl. apply Hpres; [assumption|].
    eapply lookup_weaken; eassumption.
Qed.

(** [copySingleFile]: a call that returns has put the bytes of [src] at
    [dest], reports their number, and has left every other entry, [src]
    among them, as it was; and the call throws when no regular file is at
    [src]. *)
Theorem copySingleFile_copies (fs : store) (src dest : path) :
  (forall fs' n,
     copySingleFile fs src dest = Some (fs', n) ->
     exists data,
       fs !! src = Some (NFile data) /\ n = N.of_nat (length data)
       /\ fs' !! dest = Some (NFile data) /\ fs' !! src = Some (NFile data)
       /\ preserved_except dest fs fs')
  /\ ((forall data, fs !! src <> Some (NFile data)) ->
      copySingleFile fs src dest = None).
Proof.
  split; [intros fs' n; apply copySingleFile_returns|].
  unfold copySingleFile. intros Hno.
  destruct (mkdir_recursive fs (removelast dest)) as [fs1|] eqn:Hmk; [|reflexivity].
  destruct (mkdir_recursive_grows _ _ _ Hmk) as [_ Hnew].
  destruct (fs1 !! src) as [[data|]|] eqn:Hsrc; try reflexivity.
  destruct (Hnew _ _ Hsrc) as [?|[? _]]; [|discriminate]. now apply Hno in H.
Qed.

Lemma copySingleFile_copies_witness :
  exists fs',
    copySingleFile sample_store sample_file [js "staging"; js "Show"; js "a.mkv"]
    = Some (fs', 0%N)
    /\ fs' !! [js "staging"; js "Show"; js "a.mkv"] = Some (NFile [])
    /\ fs' !! sample_file = Some (NFile [])
    /\ copySingleFile sample_store [js "proc"; js "b.mkv"] [js "staging"; js "b.mkv"] = None.
Proof.
  destruct (option_succeeds
              (copySingleFile sample_store sample_file
                 [js "staging"; js "Show"; js "a.mkv"])) as [[fs' n] E];
    [vm_compute; reflexivity|].
  destruct (proj1 (copySingleFile_copies sample_store sample_file
                     [js "staging"; js "Show"; js "a.mkv"]) fs' n E)
    as (data & Hsrc & -> & Hd & Hs & _).
  assert (Hl : sample_store !! sample_file = Some (NFile [])) by (vm_compute; reflexivity).
  assert (data = []) as -> by congruence.
  exists fs'. split; [exact E|]. split; [exact Hd|]. split; [exact Hs|].
  apply (proj2 (copySingleFile_copies sample_store [js "proc"; js "b.mkv"]
                  [js "staging"; js "b.mkv"])).
  intros data.
  assert (Hn : sample_store !! [js "proc"; js "b.mkv"] = None) by (vm_compute; reflexivity).
  rewrite Hn. discriminate.
Defined.

Lemma relative_below (root suffix : path) : relative root (root ++ suffix) = suffix.
Proof.
  unfold relative.
  assert (H : common_prefix_length root (root ++ suffix) = length root).
  { induction root as [|c root IH]; [now destruct suffix|].
    cbn [app common_prefix_length length]. now rewrite decide_True, IH. }
  rewrite H, Nat.sub_diag, drop_app_length. reflexivity.
Qed.

Lemma path_join_plain (dir rel : path) :
  Forall (fun c => c <> js "..") rel -> path_join dir rel = dir ++ rel.
Proof.
  unfold path_join. intros H. revert dir.
  induction H as [|c rel Hc _ IH]; intros dir; cbn [foldl]; [now rewrite app_nil_r|].
  rewrite bool_decide_eq_false_2 by assumption.
  rewrite IH, <- app_assoc. reflexivity.
Qed.

(** [copySingleFileToOutput] keeps the relative path: a file below the
    source root is written below the output root at the same relative path,
    with the bytes of the source; the reported number is their count, and no
    other entry changes. *)
Theorem copySingleFileToOutput_keeps_relative_path
    (fs : store) (sourceRoot outputRoot suffix : path) (fs' : store) (n : N) :
  Forall (fun c => c <> js "..") suffix ->
  copySingleFileToOutput fs (sourceRoot ++ suffix) sourceRoot outputRoot = Some (fs', n) ->
  exists data,
    fs !! (sourceRoot ++ suffix) = Some (NFile data)
    /\ n = N.of_nat (length data)
    /\ fs' !! (outputRoot ++ suffix) = Some (NFile data)
    /\ preserved_except (outputRoot ++ suffix) fs fs'.
Proof.
  intros Hsuf H.
  assert (Hc : copySingleFile fs (sourceRoot ++ suffix) (outputRoot ++ suffix)
               = Some (fs', n)).
  { unfold copySingleFileToOutput in H. cbn zeta in H.
    rewrite relative_below, (path_join_plain _ _ Hsuf) in H. exact H. }
  destruct (copySingleFile_returns _ _ _ _ _ Hc) as (data & ? & ? & ? & _ & ?).
  now exists data.
Qed.

Lemma copySingleFileToOutput_keeps_relative_path_witness :
  exists fs',
    copySingleFileToOutput sample_store sample_file [js "proc"] [js "output"; js "Show"]
    = Some (fs', 0%N)
    /\ fs' !! [js "output"; js "Show"; js "Disc 01"; js "a.mkv"] = Some (NFile []).
Proof.
  destruct (option_succeeds
              (copySingleFileToOutput sample_store sample_file [js "proc"]
                 [js "output"; js "Show"])) as [[fs' n] E];
    [vm_compute; reflexivity|].
  destruct (copySingleFileToOutput_keeps_relative_path sample_store [js "proc"]
              [js "output"; js "Show"] [js "Disc 01"; js "a.mkv"] fs' n)
    as (data & Hsrc & -> & Hd & _).
  - apply (bool_decide_unpack _). vm_compute. exact I.
  - exact E.
  - assert (Hl : sample_store !! sample_file = Some (NFile [])) by (vm_compute; reflexivity).
    assert (data = []) as -> by (change ([js "proc"] ++ [js "Disc 01"; js "a.mkv"])
                                   with sample_file in Hsrc; congruence).
    exists fs'. split; [exact E | exact Hd].
Defined.

(** ** [copyEpisodeToWorkDir]: the originals and the new name *)

Lemma valid_name_digits u : valid_name (uint_digits u).
Proof. induction u; simpl; constructor; try reflexivity; assumption. Qed.

Lemma valid_name_padStart2 s : valid_name s -> valid_name (padStart2 s).
Proof.
  intros H. unfold padStart2. apply Forall_app. split; [|exact H].
  apply List.Forall_forall. intros c Hc. apply repeat_spec in Hc. now subst.
Qed.

Lemma valid_name_sanitizeFileName s : valid_name (sanitizeFileName s).
Proof. exact (proj1 (sanitizeFileName_normal s)). Qed.

Lemma valid_name_literal s :
  forallb (fun c => negb (is_invalid_char c)) s = true -> valid_name s.
Proof.
  intros H. apply List.Forall_forall. intros c Hc.
  rewrite forallb_forall in H. apply H in Hc.
  now apply negb_true_iff.
Qed.

(** The name that [copyEpisodeToWorkDir] gives a file holds none of the nine
    characters that the sanitizer removes (the slash among them) as soon as
    the extension of the original holds none; it is not empty; and the new
    path is that name inside the season directory inside [episodesDir]. *)
Theorem copyEpisodeToWorkDir_file_name_valid
    (m : EpisodeMatch.t) (anime : AnimeSearchResult.t)
    (episodesDir root : path) (dryRun : bool) (fs fs' : store) (r : RenamedFile.t) :
  valid_name (extname (EpisodeMatch.filePath m)) ->
  copyEpisodeToWorkDir m anime episodesDir root dryRun fs = Some (fs', r) ->
  valid_name (RenamedFile.newFileName r)
  /\ RenamedFile.newFileName r <> []
  /\ exists seasonDirName,
       valid_name seasonDirName
       /\ RenamedFile.newPath r = episodesDir ++ [seasonDirName; RenamedFile.newFileName r].
Proof.
  intros Hext H. apply copyEpisodeToWorkDir_record in H as ->.
  unfold renamedFileFor. cbn zeta. cbn [RenamedFile.newFileName RenamedFile.newPath].
  set (showName := sanitizeFileName
                      match AnimeTitle.english (AnimeSearchResult.title anime) with
                      | Some e => e
                      | None => AnimeTitle.romaji (AnimeSearchResult.title anime)
                      end).
  set (seasonNum := padStart2 (String_of (EpisodeMatch.seasonNumber m))).
  set (episodeNum := padStart2 (String_of (EpisodeMatch.episodeNumber m))).
  assert (Hshow : valid_name showName) by apply valid_name_sanitizeFileName.
  assert (Hs : valid_name seasonNum) by apply valid_name_padStart2, valid_name_digits.
  assert (He : valid_name episodeNum) by apply valid_name_padStart2, valid_name_digits.
  assert (Htitle : valid_name (sanitizeFileName (EpisodeMatch.episodeTitle m)))
    by apply valid_name_sanitizeFileName.
  assert (Hlit : forall s, forallb (fun c => negb (is_invalid_char c)) (js s) = true ->
                           valid_name (js s)) by (intros s; apply valid_name_literal).
  split; [|split].
  - destruct (sanitizeFileName (EpisodeMatch.episodeTitle m)) as [|t ts] eqn:Et.
    all: unfold valid_name; rewrite !Forall_app; repeat split;
        try assumption; try (apply Hlit; reflexivity).
  - destruct (sanitizeFileName (EpisodeMatch.episodeTitle m));
      intros E; apply (f_equal length) in E; rewrite !length_app in E;
        simpl in E; lia.
  - exists (js "Season " ++ seasonNum). split.
    + unfold valid_name. rewrite Forall_app. split; [apply Hlit; reflexivity | exact Hs].
    + unfold join. now rewrite <- app_assoc.
Qed.

Lemma copyEpisodeToWorkDir_file_name_valid_witness :
  exists fs1 r1,
    copyEpisodeToWorkDir (sample_match 1 2) sample_anime
      [js "proc"; js "_episodes"] [js "proc"] false sample_store = Some (fs1, r1)
    /\ valid_name (RenamedFile.newFileName r1).
Proof.
  destruct (option_succeeds
              (copyEpisodeToWorkDir (sample_match 1 2) sample_anime
                 [js "proc"; js "_episodes"] [js "proc"] false sample_store))
    as [[fs1 r1] E]; [vm_compute; reflexivity|].
  exists fs1, r1. split; [exact E|].
  refine (proj1 (copyEpisodeToWorkDir_file_name_valid _ _ _ _ _ _ _ _ _ E)).
  apply valid_name_literal. vm_compute. reflexivity.
Defined.

(** [copyEpisodeToWorkDir] never modifies an original: every entry of the
    store is still there, unchanged, after the call; a dry run leaves the
    store as it is; and a call that finds nothing at the new path puts
    there the bytes of the matched file. *)
Theorem copyEpisodeToWorkDir_keeps_originals
    (m : EpisodeMatch.t) (anime : AnimeSearchResult.t)
    (episodesDir root : path) (dryRun : bool) (fs fs' : store) (r : RenamedFile.t) :
  copyEpisodeToWorkDir m anime episodesDir root dryRun fs = Some (fs', r) ->
  fs ⊆ fs'
  /\ (dryRun = true -> fs' = fs)
  /\ (dryRun = false -> fs !! RenamedFile.newPath r = None ->
      exists data,
        fs !! EpisodeMatch.filePath m = Some (NFile data)
        /\ fs' !! RenamedFile.newPath r = Some (NFile data)).
Proof.
  intros H. pose proof (copyEpisodeToWorkDir_record _ _ _ _ _ _ _ _ H) as ->.
  unfold copyEpisodeToWorkDir in H.
  destruct dryRun.
  { injection H as <-. split; [reflexivity|]. split; [reflexivity | discriminate]. }
  destruct (access fs _) eqn:Hacc.
  { injection H as <-. split; [reflexivity|]. split; [discriminate|].
    intros _ Hnone. unfold access in Hacc. apply bool_decide_eq_true in Hacc.
    rewrite Hnone in Hacc. now destruct Hacc. }
  destruct (mkdir_recursive fs _) as [fs1|] eqn:Hmk; [|discriminate].
  destruct (cp fs1 _ _) as [fs2|] eqn:Hcp; [|discriminate].
  injection H as <-.
  destruct (mkdir_recursive_grows _ _ _ Hmk) as [Hsub Hnew].
  destruct (cp_copies _ _ _ _ Hcp) as (data & Hsrc & Hdest & _ & Hgrow).
  assert (Hnone : fs !! RenamedFile.newPath (renamedFileFor m anime episodesDir root) = None).
  { unfold access in Hacc. apply bool_decide_eq_false in Hacc.
    destruct (fs !! RenamedFile.newPath (renamedFileFor m anime episodesDir root)) eqn:E;
      [|reflexivity].
    exfalso. apply Hacc. eauto. }
  assert (Hnone1 : fs1 !! RenamedFile.newPath (renamedFileFor m anime episodesDir root) = None).
  { destruct (fs1 !! RenamedFile.newPath (renamedFileFor m anime episodesDir root))
      as [x|] eqn:E; [|reflexivity].
    destruct (Hnew _ _ E) as [?|[_ Hin]]; [congruence|].
    apply ancestors_shorter in Hin. unfold renamedFileFor in Hin. cbn zeta in Hin.
    cbn [RenamedFile.newPath] in Hin. unfold join in Hin.
    rewrite !length_app in Hin. simpl in Hin. lia. }
  split; [etransitivity; [exact Hsub | now apply Hgrow]|].
  split; [discriminate|]. intros _ _. exists data. split; [|exact Hdest].
  destruct (Hnew _ _ Hsrc) as [?|[? _]]; [assumption | discriminate].
Qed.

Lemma copyEpisodeToWorkDir_keeps_originals_witness :
  exists fs1 r1,
    copyEpisodeToWorkDir (sample_match 1 2) sample_anime
      [js "proc"; js "_episodes"] [js "proc"] false sample_store = Some (fs1, r1)
    /\ sample_store ⊆ fs1.
Proof.
  destruct (option_succeeds
              (copyEpisodeToWorkDir (sample_match 1 2) sample_anime
                 [js "proc"; js "_episodes"] [js "proc"] false sample_store))
    as [[fs1 r1] E]; [vm_compute; reflexivity|].
  exists fs1, r1. split; [exact E|].
  exact (proj1 (copyEpisodeToWorkDir_keeps_originals _ _ _ _ _ _ _ _ E)).
Defined.

(** ** [enumerateSourceFiles] and [listOriginalFiles] *)

Lemma filter_all_false {A} (f : A -> bool) l :
  (forall x, In x l -> f x = false) -> List.filter f l = [].
Proof.
  induction l as [|a l IH]; intros H; [reflexivity|]. cbn.
  rewrite (H a) by now left. apply IH. intros x Hx. apply H. now right.
Qed.

Lemma filter_all_true {A} (f : A -> bool) l :
  (forall x, In x l -> f x = true) -> List.filter f l = l.
Proof.
  induction l as [|a l IH]; intros H; [reflexivity|]. cbn.
  rewrite (H a) by now left. f_equal. apply IH. intros x Hx. apply H. now right.
Qed.







(** [listOriginalFiles] lists the files of the recursive walk of the
    series directory except those that lie in one of its working
    directories (or are themselves a top-level entry named with an
    underscore): the filter looks at the first component only, so an
    underscore directory deeper down is walked. *)
Theorem listOriginalFiles_skips_work_dirs
    (fs : list entry) (seriesDir : path) (files : list path) :
  listOriginalFiles fs seriesDir = Some files ->
  exists all,
    listAllFilesRecursive fs seriesDir = Some all
    /\ files = List.filter (fun p => negb (in_work_dir seriesDir p)) all.
Proof.
  unfold listOriginalFiles, listAllFilesRecursive.
  destruct (readdir fs seriesDir) as [entries|]; [|discriminate].
  intros [= <-]. eexists. split; [reflexivity|].
  induction entries as [|e es IH]; [reflexivity|].
  cbn [flat_map]. rewrite List.filter_app, <- IH. f_equal.
  assert (Hall : forall p, In p (listAllFilesOfEntry seriesDir e) ->
                           in_work_dir seriesDir p = isWorkDir (entry_name e)).
  { intros p Hp. apply listAllFilesOfEntry_prefix in Hp as [q ->].
    unfold in_work_dir. now rewrite drop_app_length. }
  destruct (isWorkDir (entry_name e)) eqn:Hw.
  - symmetry. apply filter_all_false. intros p Hp. now rewrite (Hall p Hp).
  - rewrite filter_all_true by (intros p Hp; now rewrite (Hall p Hp)).
    now destruct e.
Qed.

Lemma listOriginalFiles_skips_work_dirs_witness :
  listOriginalFiles [EDir (js "proc") 4096 sample_disc] [js "proc"]
  = Some [[js "proc"; js "ep1.mkv"]; [js "proc"; js "ep2.MKV"];
          [js "proc"; js "menu.mkv"]; [js "proc"; js "more"; js "ep3.mp4"];
          [js "proc"; js "more"; js "notes.txt"]].
Proof.
  destruct (option_succeeds (listOriginalFiles [EDir (js "proc") 4096 sample_disc]
                               [js "proc"])) as [files E]; [vm_compute; reflexivity|].
  destruct (listOriginalFiles_skips_work_dirs _ _ _ E) as (all & Hall & Hf).
  rewrite E, Hf. vm_compute in Hall. injection Hall as <-. vm_compute. reflexivity.
Defined.

(** ** [processFolder]: the confirmation of the detection *)

Lemma List_filter_sublist {A} (f : A -> bool) l : sublist (List.filter f l) l.
Proof.
  induction l as [|a l IH]; cbn; [constructor|].
  destruct (f a); [now apply sublist_skip | now apply sublist_cons].
Qed.

Lemma confirmation_last signals :
  foldl (fun st c => Detection.detectionConfirmationSignal c st)
        Detection.initial signals
  = match last signals with
    | Some c => Detection.detectionConfirmationSignal c Detection.initial
    | None => Detection.initial
    end.
Proof.
  induction signals as [|c signals _] using rev_ind; [reflexivity|].
  now rewrite foldl_app, last_snoc.
Qed.

Lemma corrected_sublist detection st :
  sublist (Detection.corrected detection st)
          (EpisodeDetectionResult.episodes detection
           ++ EpisodeDetectionResult.nonEpisodes detection).
Proof.
  unfold Detection.corrected. cbn zeta.
  assert (H1 : sublist
                 (if (0 <? length (Detection.detectionRemovedPaths st))%nat
                  then List.filter
                         (fun f => negb (bool_decide (SourceFileInfo.path f
                                                      ∈ Detection.detectionRemovedPaths st)))
                         (EpisodeDetectionResult.episodes detection)
                  else EpisodeDetectionResult.episodes detection)
                 (EpisodeDetectionResult.episodes detection)).
  { destruct (0 <? _)%nat; [apply List_filter_sublist | reflexivity]. }
  destruct (0 <? length (Detection.detectionAddedPaths st))%nat.
  - apply sublist_app; [exact H1 | apply List_filter_sublist].
  - now apply sublist_inserts_r.
Qed.

(** The confirmation of the detection only chooses among the video files
    that the detection listed: every episode file after Step 2 is one of
    them, and none is there twice when the listing held none twice. The
    field [confirmed] of the signal is not read: signals with the same added
    and removed paths give the same episode files. And when the guard of
    Step 2 holds the coordinator stays blocked until a signal arrives. *)
Theorem detection_confirmation_chooses_listed_files
    (detection : EpisodeDetectionResult.t) (signals : list DetectionConfirmation.t)
    (files : list SourceFileInfo.t) :
  Detection.episodeFiles detection signals = Some files ->
  sublist files (EpisodeDetectionResult.episodes detection
                 ++ EpisodeDetectionResult.nonEpisodes detection)
  /\ (NoDup (map SourceFileInfo.path
               (EpisodeDetectionResult.episodes detection
                ++ EpisodeDetectionResult.nonEpisodes detection)) ->
      NoDup (map SourceFileInfo.path files))
  /\ (forall signals',
        map DetectionConfirmation.addedPaths signals'
        = map DetectionConfirmation.addedPaths signals ->
        map DetectionConfirmation.removedPaths signals'
        = map DetectionConfirmation.removedPaths signals ->
        Detection.episodeFiles detection signals' = Some files)
  /\ (Detection.awaits_confirmation detection = true ->
      Detection.episodeFiles detection [] = None /\ signals <> []).
Proof.
  intros H.
  assert (Hsub : sublist files (EpisodeDetectionResult.episodes detection
                                ++ EpisodeDetectionResult.nonEpisodes detection)).
  { unfold Detection.episodeFiles in H. cbn zeta in H.
    destruct (Detection.awaits_confirmation detection).
    - destruct (Detection.detectionConfirmed _); [|discriminate].
      injection H as <-. apply corrected_sublist.
    - injection H as <-. now apply sublist_inserts_r. }
  split; [exact Hsub|]. split; [|split].
  - intros Hnd. eapply sublist_NoDup; [exact Hnd|]. now apply (fmap_sublist SourceFileInfo.path).
  - intros signals' Ha Hr. rewrite <- H.
    unfold Detection.episodeFiles. cbn zeta. rewrite !confirmation_last.
    apply (f_equal last) in Ha, Hr. change (@map) with (@fmap list _) in Ha, Hr. rewrite !fmap_last in Ha, Hr.
    destruct (last signals') as [c'|], (last signals) as [c|];
      try discriminate; [|reflexivity].
    injection Ha as Ha. injection Hr as Hr.
    unfold Detection.detectionConfirmationSignal. now rewrite Ha, Hr.
  - intros Hw. unfold Detection.episodeFiles in *. cbn zeta in *. rewrite Hw in *.
    split; [reflexivity|]. intros ->. discriminate.
Qed.

Lemma detection_confirmation_chooses_listed_files_witness :
  let signals :=
    [DetectionConfirmation.mk false (Some [[js "disc"; js "ep2.mkv"]]) None] in
  Detection.episodeFiles sample_detection signals
  = Some (EpisodeDetectionResult.episodes sample_detection
          ++ EpisodeDetectionResult.nonEpisodes sample_detection)
  /\ Detection.episodeFiles sample_detection
       [DetectionConfirmation.mk true (Some [[js "disc"; js "ep2.mkv"]]) None]
     = Some (EpisodeDetectionResult.episodes sample_detection
             ++ EpisodeDetectionResult.nonEpisodes sample_detection)
  /\ Detection.episodeFiles sample_detection [] = None.
Proof.
  intros signals.
  assert (H : Detection.episodeFiles sample_detection signals
              = Some (EpisodeDetectionResult.episodes sample_detection
                      ++ EpisodeDetectionResult.nonEpisodes sample_detection))
    by (vm_compute; reflexivity).
  destruct (detection_confirmation_chooses_listed_files sample_detection signals _ H)
    as (_ & _ & Hsame & Hwait).
  split; [exact H|]. split.
  - apply Hsame; reflexivity.
  - apply Hwait. reflexivity.
Defined.
